(** * vita-elf-create: the ELF loader of the Vita toolchain

    A shallow embedding of [src/vita-elf.c] (ELF ingestion, relocation
    decoding, stub linking, import resolution, address mapping) and of the
    driver [src/vita-elf-create.c], with the properties of the design
    document stated over it.

    Conventions.  C integers are [Z]; a [uint32_t] computation is written
    with its wrap-around ([u32]); a pointer into an array is the index of
    the element, [None] being [NULL]; an opaque pointer handed out by a
    library is a [Z] with [0] for [NULL].  A function that can fail returns
    a [result]: [Ok], [Fail] with the diagnostic of the [FAILX] that was
    taken, or [Undef] where the C code would read or write out of bounds or
    divide by zero. *)

From Stdlib Require Import ZArith Lia Bool String.
From stdpp Require Import base list.

Local Open Scope Z_scope.

(** ** Machine integers *)

Definition u32 (x : Z) : Z := x mod 2 ^ 32.

(** Conversion of a [uint32_t] to [int32_t] (two's complement). *)
Definition s32 (x : Z) : Z :=
  let y := u32 x in if y <? 2 ^ 31 then y else y - 2 ^ 32.

Definition shl32 (x n : Z) : Z := u32 (Z.shiftl x n).
Definition shr32 (x n : Z) : Z := Z.shiftr x n.

(** C's [!x] on an integer. *)
Definition lnot (x : Z) : Z := if x =? 0 then 1 else 0.

(** ** Constants of the ELF headers

    [elf-defs.h] and the system's [elf.h] are not part of the tree.  The
    codes below are the ones the ARM ELF ABI assigns to the names the source
    uses. *)
Module ElfDefs.
Definition R_ARM_NONE : Z := 0.
Definition R_ARM_ABS32 : Z := 2.
Definition R_ARM_REL32 : Z := 3.
Definition R_ARM_THM_CALL : Z := 10.
Definition R_ARM_CALL : Z := 28.
Definition R_ARM_JUMP24 : Z := 29.
Definition R_ARM_THM_JUMP24 : Z := 30.
Definition R_ARM_TARGET1 : Z := 38.
Definition R_ARM_V4BX : Z := 40.
Definition R_ARM_TARGET2 : Z := 41.
Definition R_ARM_PREL31 : Z := 42.
Definition R_ARM_MOVW_ABS_NC : Z := 43.
Definition R_ARM_MOVT_ABS : Z := 44.
Definition R_ARM_THM_MOVW_ABS_NC : Z := 47.
Definition R_ARM_THM_MOVT_ABS : Z := 48.
Definition R_ARM_THM_PC11 : Z := 102.

Definition SHT_PROGBITS : Z := 1.
Definition SHT_SYMTAB : Z := 2.
Definition SHT_RELA : Z := 4.
Definition SHT_REL : Z := 9.
Definition SHT_ARM_EXIDX : Z := 0x70000001.

Definition STB_GLOBAL : Z := 1.
Definition STT_OBJECT : Z := 1.
Definition STT_FUNC : Z := 2.

Definition ELF_K_ELF : Z := 3.
Definition EM_ARM : Z := 40.
Definition ELFCLASS32 : Z := 1.
Definition ELFDATA2LSB : Z := 1.

Definition EXIT_SUCCESS : Z := 0.
Definition EXIT_FAILURE : Z := 1.
End ElfDefs.
Import ElfDefs.

(** ** Decoding the target of a REL entry *)

(** [#define THUMB_SHUFFLE(x) ((((x) & 0xFFFF0000) >> 16) | (((x) & 0xFFFF) << 16))] *)
Definition THUMB_SHUFFLE (x : Z) : Z :=
  Z.lor (shr32 (Z.land x 0xFFFF0000) 16) (shl32 (Z.land x 0xFFFF) 16).

(** Membership of a relocation code in the [case] labels of one arm. *)
Definition is_case (type : Z) (labels : list Z) : bool :=
  existsb (Z.eqb type) labels.

(** [decode_rel_target]: [None] is the [errx(EXIT_FAILURE, ...)] after the
    [switch]. *)
Definition decode_rel_target (data type addr : Z) : option Z :=
  if is_case type [R_ARM_NONE; R_ARM_V4BX] then Some 0xdeadbeef
  else if is_case type [R_ARM_ABS32; R_ARM_TARGET1] then Some data
  else if is_case type [R_ARM_REL32; R_ARM_TARGET2] then Some (u32 (data + addr))
  else if is_case type [R_ARM_PREL31] then Some (u32 (data + addr))
  else if is_case type [R_ARM_THM_CALL] then
    let data := THUMB_SHUFFLE data in
    let upper := shr32 data 16 in
    let lower := Z.land data 0xFFFF in
    let sign := Z.land (shr32 upper 10) 1 in
    let j1 := Z.land (shr32 lower 13) 1 in
    let j2 := Z.land (shr32 lower 11) 1 in
    let imm10 := Z.land upper 0x3ff in
    let imm11 := Z.land lower 0x7ff in
    Some (u32 (addr +
      Z.lor
        (shl32
           (Z.lor (Z.lor (Z.lor (Z.lor imm11 (shl32 imm10 11))
                                (shl32 (lnot (Z.lxor j2 sign)) 21))
                         (shl32 (lnot (Z.lxor j1 sign)) 22))
                  (shl32 sign 23))
           1)
        (if sign =? 0 then 0 else 0xff000000)))
  else if is_case type [R_ARM_CALL; R_ARM_JUMP24] then
    Some (shr32 (shl32 (u32 (shl32 (Z.land data 0x00ffffff) 2 + addr)) 8) 8)
  else if is_case type [R_ARM_MOVW_ABS_NC] then
    Some (Z.lor (shr32 (Z.land data 0xf0000) 4) (Z.land data 0xfff))
  else if is_case type [R_ARM_MOVT_ABS] then
    Some (shl32 (Z.lor (shr32 (Z.land data 0xf0000) 4) (Z.land data 0xfff)) 16)
  else if is_case type [R_ARM_THM_MOVW_ABS_NC] then
    let data := THUMB_SHUFFLE data in
    Some (Z.lor (Z.lor (Z.lor
            (shl32 (Z.land (shr32 data 16) 0xf) 12)
            (shl32 (Z.land (shr32 data 26) 0x1) 11))
            (shl32 (Z.land (shr32 data 12) 0x7) 8))
            (Z.land data 0xff))
  else if is_case type [R_ARM_THM_MOVT_ABS] then
    let data := THUMB_SHUFFLE data in
    Some (Z.lor (Z.lor (Z.lor
            (shl32 (Z.land (shr32 data 16) 0xf) 28)
            (shl32 (Z.land (shr32 data 26) 0x1) 27))
            (shl32 (Z.land (shr32 data 12) 0x7) 24))
            (shl32 (Z.land data 0xff) 16))
  else None.

Inductive rel_handling := REL_HANDLE_NORMAL | REL_HANDLE_IGNORE | REL_HANDLE_INVALID.

Definition get_rel_handling (type : Z) : rel_handling :=
  if is_case type [R_ARM_NONE; R_ARM_V4BX] then REL_HANDLE_IGNORE
  else if is_case type
       [R_ARM_ABS32; R_ARM_TARGET1; R_ARM_REL32; R_ARM_TARGET2; R_ARM_PREL31;
        R_ARM_THM_CALL; R_ARM_CALL; R_ARM_JUMP24; R_ARM_MOVW_ABS_NC;
        R_ARM_MOVT_ABS; R_ARM_THM_MOVW_ABS_NC; R_ARM_THM_MOVT_ABS]
  then REL_HANDLE_NORMAL
  else REL_HANDLE_INVALID.


(** ** Results of the loaders

    The loaders [return 1], or report through [FAILX]/[FAIL]/[FAILE]/[warnx]
    and [return 0] (for [vita_elf_load]: [NULL]).  [diag] names the report
    that was made. *)
Inductive diag :=
  | D_open_failed
  | D_not_elf
  | D_getehdr_failed
  | D_not_arm
  | D_not_32bit_le
  | D_getshdrstrndx_failed
  | D_strptr_failed
  | D_multiple_fstubs
  | D_multiple_vstubs
  | D_debug_info
  | D_multiple_symtabs
  | D_getsym_failed
  | D_getrel_failed
  | D_invalid_reloc (type : Z)
  | D_rel_symbol_range (rel_sym num_symbols : Z)
  | D_rela_unsupported
  | D_no_stub_sections
  | D_no_symtab
  | D_no_rel_sections
  | D_symbol_type (symndx : nat) (stubs_ndx expected actual : Z)
  | D_duplicate_symbols (value stubs_ndx : Z) (first second : nat)
  | D_no_valid_stub (symndx : nat) (shndx : Z)
  | D_getphdrnum_failed
  | D_mmap_failed (segndx : nat).

Inductive result (A : Type) :=
  | Ok (a : A)
  | Fail (d : diag)
  | Undef.
Arguments Ok {A} a.
Arguments Fail {A} d.
Arguments Undef {A}.

Definition rbind {A B} (r : result A) (k : A -> result B) : result B :=
  match r with
  | Ok a => k a
  | Fail d => Fail d
  | Undef => Undef
  end.

Notation "'let*' x ':=' e 'in' k" := (rbind e (fun x => k))
  (at level 10, x name, e at level 100, k at level 200).

(** A value the C code needs to be there: [NULL] dereference or an
    out-of-bounds access otherwise. *)
Definition defined {A} (o : option A) : result A :=
  match o with Some a => Ok a | None => Undef end.

(** A count stored in an [int]. *)
Definition to_int (n : Z) : result Z :=
  if (0 <=? n) && (n <? 2 ^ 31) then Ok n else Undef.

(** ** The ELF file as libelf presents it

    libelf is not part of the tree; the records below hold what its
    accessors return.  Sections are numbered from 0, [elf_nextscn] starts at
    section 1, [elf_getscn] returns [NULL] past the last section.  A section
    hands out its contents as a sequence of [Elf_Data] chunks
    ([elf_getdata]). *)
Record Elf_Data := {
  d_buf : list Z;   (* bytes *)
  d_off : Z;
  d_size : Z
}.

Record Elf_Scn := {
  sh_name : Z;
  sh_type : Z;
  sh_addr : Z;
  sh_size : Z;
  sh_entsize : Z;
  sh_link : Z;
  sh_info : Z;
  scn_data : list Elf_Data
}.

Record GElf_Ehdr := {
  e_machine : Z;
  ei_class : Z;
  ei_data : Z
}.

Record GElf_Phdr := {
  p_type : Z;
  p_vaddr : Z;
  p_memsz : Z
}.

Record Elf := {
  elf_kind : Z;
  elf_ehdr : option GElf_Ehdr;          (* gelf_getehdr *)
  elf_shstrndx : option Z;              (* elf_getshdrstrndx *)
  elf_scns : list Elf_Scn;
  elf_phdrs : option (list GElf_Phdr);  (* elf_getphdrnum, gelf_getphdr *)
  elf_strptr : Z -> Z -> option string
}.

Definition elf_getscn (e : Elf) (ndx : Z) : option (Z * Elf_Scn) :=
  if ndx <? 0 then None
  else match elf_scns e !! Z.to_nat ndx with
       | Some s => Some (ndx, s)
       | None => None
       end.

(** [elf_ndxscn]; [SHN_UNDEF] for [NULL]. *)
Definition elf_ndxscn (scn : option (Z * Elf_Scn)) : Z :=
  match scn with Some (ndx, _) => ndx | None => 0 end.

(** The byte at [buf + off]; [None] outside the buffer. *)
Definition byte_at (buf : list Z) (off : Z) : option Z :=
  if off <? 0 then None
  else match buf !! Z.to_nat off with
       | Some b => Some (b mod 2 ^ 8)
       | None => None
       end.

Definition le16_at (buf : list Z) (off : Z) : option Z :=
  match byte_at buf off, byte_at buf (off + 1) with
  | Some b0, Some b1 => Some (b0 + 2 ^ 8 * b1)
  | _, _ => None
  end.

(** [le32toh( *(uint32_t * )(buf + off))] *)
Definition le32_at (buf : list Z) (off : Z) : option Z :=
  match byte_at buf off, byte_at buf (off + 1),
        byte_at buf (off + 2), byte_at buf (off + 3) with
  | Some b0, Some b1, Some b2, Some b3 =>
      Some (b0 + 2 ^ 8 * b1 + 2 ^ 16 * b2 + 2 ^ 24 * b3)
  | _, _, _, _ => None
  end.

Record GElf_Sym := {
  st_name : Z;
  st_value : Z;
  st_info : Z;
  st_shndx : Z
}.

(** [gelf_getsym] on a 32-bit file: entry [ndx] of an array of [Elf32_Sym]
    (16 bytes each), [NULL] when the entry does not lie in the chunk. *)
Definition gelf_getsym (data : Elf_Data) (ndx : Z) : option GElf_Sym :=
  if (0 <=? ndx) && ((ndx + 1) * 16 <=? d_size data) then
    match le32_at (d_buf data) (ndx * 16), le32_at (d_buf data) (ndx * 16 + 4),
          byte_at (d_buf data) (ndx * 16 + 12), le16_at (d_buf data) (ndx * 16 + 14) with
    | Some n, Some v, Some i, Some s =>
        Some {| st_name := n; st_value := v; st_info := i; st_shndx := s |}
    | _, _, _, _ => None
    end
  else None.

Definition GELF_ST_TYPE (info : Z) : Z := Z.land info 0xf.
Definition GELF_ST_BIND (info : Z) : Z := Z.shiftr info 4.

Record GElf_Rel := {
  r_offset : Z;
  r_info : Z
}.

(** [gelf_getrel] on a 32-bit file: entry [ndx] of an array of [Elf32_Rel]
    (8 bytes each), its [r_info] widened to the 64-bit form
    [(sym << 32) + type]. *)
Definition gelf_getrel (data : Elf_Data) (ndx : Z) : option GElf_Rel :=
  if (0 <=? ndx) && ((ndx + 1) * 8 <=? d_size data) then
    match le32_at (d_buf data) (ndx * 8), le32_at (d_buf data) (ndx * 8 + 4) with
    | Some o, Some i =>
        Some {| r_offset := o;
                r_info := Z.shiftl (Z.shiftr i 8) 32 + Z.land i 0xff |}
    | _, _ => None
    end
  else None.

Definition GELF_R_TYPE (info : Z) : Z := Z.land info 0xffffffff.
Definition GELF_R_SYM (info : Z) : Z := Z.shiftr info 32.

(** ** The loaded model

    [vita-elf.h] is not part of the tree.  The records have the fields the
    source reads and writes: guest addresses and NIDs are 32-bit, [addend]
    is a signed 32-bit integer, a pointer into the symbol table is the index
    of the symbol, pointers into the import databases are opaque ([0] is
    [NULL]). *)
Record vita_elf_symbol_t := {
  symbol_name : option string;
  symbol_value : Z;
  symbol_type : Z;
  symbol_binding : Z;
  symbol_shndx : Z
}.

Record vita_elf_stub_t := {
  stub_addr : Z;
  library_nid : Z;
  module_nid : Z;
  target_nid : Z;
  stub_symbol : option nat;
  stub_library : Z;
  stub_module : Z;
  stub_target : Z
}.

Record vita_elf_rela_t := {
  rela_type : Z;
  rela_symbol : option nat;
  rela_offset : Z;
  rela_addend : Z
}.

Record vita_elf_rela_table_t := {
  relas : list vita_elf_rela_t;
  num_relas : Z;
  target_ndx : Z
}.

Record vita_elf_segment_info_t := {
  seg_type : Z;
  seg_vaddr : Z;
  seg_memsz : Z;
  vaddr_top : Z;
  vaddr_bottom : Z
}.

(** [rela_tables] is the linked list, most recently loaded table first. *)
Record vita_elf_t := {
  fstubs_ndx : Z;
  vstubs_ndx : Z;
  symtab_ndx : Z;
  symtab : option (list vita_elf_symbol_t);
  num_symbols : Z;
  rela_tables : list vita_elf_rela_table_t;
  fstubs : list vita_elf_stub_t;
  vstubs : list vita_elf_stub_t;
  num_fstubs : Z;
  num_vstubs : Z;
  segments : list vita_elf_segment_info_t;
  num_segments : Z
}.

(** What [calloc] hands out. *)
Definition zero_symbol : vita_elf_symbol_t :=
  {| symbol_name := None; symbol_value := 0; symbol_type := 0; symbol_binding := 0; symbol_shndx := 0 |}.

Definition zero_stub : vita_elf_stub_t :=
  {| stub_addr := 0; library_nid := 0; module_nid := 0; target_nid := 0;
     stub_symbol := None; stub_library := 0; stub_module := 0; stub_target := 0 |}.

Definition zero_rela : vita_elf_rela_t :=
  {| rela_type := 0; rela_symbol := None; rela_offset := 0; rela_addend := 0 |}.

Definition zero_elf : vita_elf_t :=
  {| fstubs_ndx := 0; vstubs_ndx := 0; symtab_ndx := 0; symtab := None;
     num_symbols := 0; rela_tables := []; fstubs := []; vstubs := [];
     num_fstubs := 0; num_vstubs := 0; segments := []; num_segments := 0 |}.

(** ** Stub loader *)

(** The inner [for] of [load_stubs] over one chunk: [n] slots remain from
    [chunk_offset] on, [cur] is [curstub - *stubs]. *)
Fixpoint load_stubs_chunk (n : nat) (chunk_offset : Z) (shdr_addr : Z) (data : Elf_Data)
    (stubs : list vita_elf_stub_t) (cur : nat) : result (list vita_elf_stub_t * nat) :=
  match n with
  | O => Ok (stubs, cur)
  | S n' =>
      let* curstub := defined (stubs !! cur) in
      let* w0 := defined (le32_at (d_buf data) chunk_offset) in
      let* w1 := defined (le32_at (d_buf data) (chunk_offset + 4)) in
      let* w2 := defined (le32_at (d_buf data) (chunk_offset + 8)) in
      let curstub :=
        {| stub_addr := u32 (shdr_addr + d_off data + chunk_offset);
           library_nid := w0;
           module_nid := w1;
           target_nid := w2;
           stub_symbol := stub_symbol curstub;
           stub_library := stub_library curstub;
           stub_module := stub_module curstub;
           stub_target := stub_target curstub |} in
      load_stubs_chunk n' (chunk_offset + 16) shdr_addr data (<[cur := curstub]> stubs) (S cur)
  end.

(** The [while] of [load_stubs] over the chunks [elf_getdata] returns. *)
Fixpoint load_stubs_data (chunks : list Elf_Data) (total_bytes shdr_size shdr_addr : Z)
    (stubs : list vita_elf_stub_t) (cur : nat) : result (list vita_elf_stub_t) :=
  match chunks with
  | [] => Ok stubs
  | data :: rest =>
      if total_bytes <? shdr_size then
        let* r := load_stubs_chunk (Z.to_nat ((d_size data + 15) / 16)) 0 shdr_addr data stubs cur in
        load_stubs_data rest (total_bytes + d_size data) shdr_size shdr_addr (fst r) (snd r)
      else Ok stubs
  end.

(** [load_stubs] returns [num_stubs] and the array. *)
Definition load_stubs (scn : Elf_Scn) : result (Z * list vita_elf_stub_t) :=
  let* num_stubs := to_int (sh_size scn / 16) in
  let* stubs := load_stubs_data (scn_data scn) 0 (sh_size scn) (sh_addr scn)
                  (replicate (Z.to_nat num_stubs) zero_stub) 0 in
  Ok (num_stubs, stubs).

(** ** Symbol-table loader *)

Definition load_symbol (e : Elf) (shdr_link : Z) (sym : GElf_Sym) : vita_elf_symbol_t :=
  {| symbol_name := elf_strptr e shdr_link (st_name sym);
     symbol_value := st_value sym;
     symbol_type := GELF_ST_TYPE (st_info sym);
     symbol_binding := GELF_ST_BIND (st_info sym);
     symbol_shndx := st_shndx sym |}.

Fixpoint load_symbols_chunk (n : nat) (symndx : Z) (e : Elf) (shdr_link : Z)
    (data : Elf_Data) (data_beginsym : Z) (symtab : list vita_elf_symbol_t)
    : result (list vita_elf_symbol_t) :=
  match n with
  | O => Ok symtab
  | S n' =>
      match gelf_getsym data symndx with
      | None => Fail D_getsym_failed
      | Some sym =>
          let ndx := symndx + data_beginsym in
          if (0 <=? ndx) && (ndx <? Z.of_nat (length symtab)) then
            load_symbols_chunk n' (symndx + 1) e shdr_link data data_beginsym
              (<[Z.to_nat ndx := load_symbol e shdr_link sym]> symtab)
          else Undef
      end
  end.

Fixpoint load_symbols_data (chunks : list Elf_Data) (total_bytes : Z) (e : Elf)
    (shdr : Elf_Scn) (symtab : list vita_elf_symbol_t) : result (list vita_elf_symbol_t) :=
  match chunks with
  | [] => Ok symtab
  | data :: rest =>
      if total_bytes <? sh_size shdr then
        let* symtab :=
          load_symbols_chunk (Z.to_nat (d_size data / sh_entsize shdr)) 0 e (sh_link shdr)
            data (d_off data / sh_entsize shdr) symtab in
        load_symbols_data rest (total_bytes + d_size data) e shdr symtab
      else Ok symtab
  end.

Definition set_symtab (ve : vita_elf_t) (ndx : Z) (tab : list vita_elf_symbol_t) (n : Z)
    : vita_elf_t :=
  {| fstubs_ndx := fstubs_ndx ve; vstubs_ndx := vstubs_ndx ve;
     symtab_ndx := ndx; symtab := Some tab; num_symbols := n;
     rela_tables := rela_tables ve; fstubs := fstubs ve; vstubs := vstubs ve;
     num_fstubs := num_fstubs ve; num_vstubs := num_vstubs ve;
     segments := segments ve; num_segments := num_segments ve |}.

(** [load_symbols]; [calloc] of zero entries is taken to return a non-null
    pointer, as glibc does. *)
Definition load_symbols (e : Elf) (ve : vita_elf_t) (scn : option (Z * Elf_Scn))
    : result vita_elf_t :=
  if elf_ndxscn scn =? symtab_ndx ve then Ok ve
  else match symtab ve with
       | Some _ => Fail D_multiple_symtabs
       | None =>
           let* s := defined scn in
           let shdr := snd s in
           if sh_entsize shdr =? 0 then Undef
           else
             let* n := to_int (sh_size shdr / sh_entsize shdr) in
             let* tab := load_symbols_data (scn_data shdr) 0 e shdr
                           (replicate (Z.to_nat n) zero_symbol) in
             Ok (set_symtab ve (fst s) tab n)
       end.

(** ** Relocation loader *)

(** One turn of the [for] of [load_rel_table], after [gelf_getrel]:
    [currela] is the slot [rtable->relas + relndx], [text] the address and
    first chunk of the patched section. *)
Definition load_rel (ve : vita_elf_t) (text : option (Z * Elf_Data)) (rel : GElf_Rel)
    (currela : vita_elf_rela_t) : result vita_elf_rela_t :=
  let type := GELF_R_TYPE (r_info rel) in
  let type := if type =? R_ARM_THM_JUMP24 then R_ARM_THM_CALL else type in
  if type =? R_ARM_THM_PC11 then
    Ok {| rela_type := type; rela_symbol := rela_symbol currela;
          rela_offset := rela_offset currela; rela_addend := rela_addend currela |}
  else
    let* insn := defined (match text with
                          | Some (text_addr, text_data) =>
                              le32_at (d_buf text_data) (r_offset rel - text_addr)
                          | None => None
                          end) in
    match get_rel_handling type with
    | REL_HANDLE_IGNORE =>
        Ok {| rela_type := type; rela_symbol := rela_symbol currela;
              rela_offset := u32 (r_offset rel); rela_addend := rela_addend currela |}
    | REL_HANDLE_INVALID => Fail (D_invalid_reloc type)
    | REL_HANDLE_NORMAL =>
        let rel_sym := GELF_R_SYM (r_info rel) in
        if rel_sym >=? num_symbols ve then Fail (D_rel_symbol_range rel_sym (num_symbols ve))
        else
          let* tab := defined (symtab ve) in
          let* symbol := defined (tab !! Z.to_nat rel_sym) in
          match decode_rel_target insn type (u32 (r_offset rel)) with
          | None => Fail (D_invalid_reloc type)
          | Some target =>
              let addend :=
                if is_case type [R_ARM_MOVT_ABS; R_ARM_THM_MOVT_ABS] then
                  s32 (target - Z.land (symbol_value symbol) 0xFFFF0000)
                else if is_case type [R_ARM_MOVW_ABS_NC; R_ARM_THM_MOVW_ABS_NC] then
                  s32 (target - Z.land (symbol_value symbol) 0xFFFF)
                else if is_case type [R_ARM_THM_CALL] then
                  s32 (target - Z.land (symbol_value symbol) 0xFFFFFFFE)
                else
                  s32 (target - symbol_value symbol) in
              Ok {| rela_type := type; rela_symbol := Some (Z.to_nat rel_sym);
                    rela_offset := u32 (r_offset rel); rela_addend := addend |}
          end
    end.

Fixpoint load_rels (n : nat) (relndx : Z) (ve : vita_elf_t) (text : option (Z * Elf_Data))
    (data : Elf_Data) (relas : list vita_elf_rela_t) : result (list vita_elf_rela_t) :=
  match n with
  | O => Ok relas
  | S n' =>
      match gelf_getrel data relndx with
      | None => Fail D_getrel_failed
      | Some rel =>
          let* currela := defined (relas !! Z.to_nat relndx) in
          let* currela := load_rel ve text rel currela in
          load_rels n' (relndx + 1) ve text data (<[Z.to_nat relndx := currela]> relas)
      end
  end.

Definition add_rela_table (ve : vita_elf_t) (rtable : vita_elf_rela_table_t) : vita_elf_t :=
  {| fstubs_ndx := fstubs_ndx ve; vstubs_ndx := vstubs_ndx ve;
     symtab_ndx := symtab_ndx ve; symtab := symtab ve; num_symbols := num_symbols ve;
     rela_tables := rtable :: rela_tables ve; fstubs := fstubs ve; vstubs := vstubs ve;
     num_fstubs := num_fstubs ve; num_vstubs := num_vstubs ve;
     segments := segments ve; num_segments := num_segments ve |}.

(** The section a REL section patches: its address and the chunk
    [elf_getdata(text_scn, NULL)]. *)
Definition text_of (e : Elf) (shdr_info : Z) : option (Z * Elf_Data) :=
  match elf_getscn e shdr_info with
  | Some (_, text_scn) =>
      match scn_data text_scn with
      | text_data :: _ => Some (sh_addr text_scn, text_data)
      | [] => None
      end
  | None => None
  end.

Definition load_rel_table (e : Elf) (ve : vita_elf_t) (shdr : Elf_Scn) : result vita_elf_t :=
  let* ve := load_symbols e ve (elf_getscn e (sh_link shdr)) in
  if sh_entsize shdr =? 0 then Undef
  else
    let* n := to_int (sh_size shdr / sh_entsize shdr) in
    let* data := defined (head (scn_data shdr)) in
    let* relas := load_rels (Z.to_nat (d_size data / sh_entsize shdr)) 0 ve
                    (text_of e (sh_info shdr)) data
                    (replicate (Z.to_nat n) zero_rela) in
    Ok (add_rela_table ve
          {| relas := relas; num_relas := n; target_ndx := sh_info shdr |}).

(** [load_rela_table]: [warnx("RELA sections currently unsupported")] and
    [return 0]. *)
Definition load_rela_table (ve : vita_elf_t) (shdr : Elf_Scn) : result vita_elf_t :=
  Fail D_rela_unsupported.

(** ** Stub-symbol linker *)

(** The three [continue] tests at the head of the loop of
    [lookup_stub_symbols]. *)
Definition is_stub_symbol (cursym : vita_elf_symbol_t) (stubs_ndx : Z) : bool :=
  (symbol_binding cursym =? STB_GLOBAL)
  && ((symbol_type cursym =? STT_FUNC) || (symbol_type cursym =? STT_OBJECT))
  && (symbol_shndx cursym =? stubs_ndx).

Definition set_stub_symbol (stub : vita_elf_stub_t) (symndx : nat) : vita_elf_stub_t :=
  {| stub_addr := stub_addr stub; library_nid := library_nid stub;
     module_nid := module_nid stub; target_nid := target_nid stub;
     stub_symbol := Some symndx; stub_library := stub_library stub;
     stub_module := stub_module stub; stub_target := stub_target stub |}.

(** The inner [for] over the stubs, with the test [stub == num_stubs] that
    follows it. *)
Fixpoint bind_stub (stubs : list vita_elf_stub_t) (cursym : vita_elf_symbol_t)
    (symndx : nat) (stubs_ndx : Z) : result (list vita_elf_stub_t) :=
  match stubs with
  | [] => Fail (D_no_valid_stub symndx (symbol_shndx cursym))
  | stub :: rest =>
      if negb (stub_addr stub =? symbol_value cursym) then
        let* rest := bind_stub rest cursym symndx stubs_ndx in
        Ok (stub :: rest)
      else
        match stub_symbol stub with
        | Some first => Fail (D_duplicate_symbols (symbol_value cursym) stubs_ndx first symndx)
        | None => Ok (set_stub_symbol stub symndx :: rest)
        end
  end.

(** The outer [for], from symbol [symndx] on. *)
Fixpoint lookup_stub_symbols_from (syms : list vita_elf_symbol_t) (symndx : nat)
    (stubs : list vita_elf_stub_t) (stubs_ndx sym_type : Z) : result (list vita_elf_stub_t) :=
  match syms with
  | [] => Ok stubs
  | cursym :: rest =>
      if negb (is_stub_symbol cursym stubs_ndx) then
        lookup_stub_symbols_from rest (S symndx) stubs stubs_ndx sym_type
      else if negb (Z.eqb (symbol_type cursym) sym_type) then
        Fail (D_symbol_type symndx stubs_ndx sym_type (symbol_type cursym))
      else
        let* stubs := bind_stub stubs cursym symndx stubs_ndx in
        lookup_stub_symbols_from rest (S symndx) stubs stubs_ndx sym_type
  end.

(** [lookup_stub_symbols]: the symbol table holds [num_symbols] entries. *)
Definition lookup_stub_symbols (ve : vita_elf_t) (stubs : list vita_elf_stub_t)
    (stubs_ndx sym_type : Z) : result (list vita_elf_stub_t) :=
  lookup_stub_symbols_from (default [] (symtab ve)) 0 stubs stubs_ndx sym_type.

(** ** ELF reader *)

Definition debug_sections : list string :=
  [".rel.debug_info"; ".rel.debug_arange"; ".rel.debug_line"; ".rel.debug_frame"]%string.

Definition set_fstubs (ve : vita_elf_t) (ndx n : Z) (stubs : list vita_elf_stub_t) : vita_elf_t :=
  {| fstubs_ndx := ndx; vstubs_ndx := vstubs_ndx ve;
     symtab_ndx := symtab_ndx ve; symtab := symtab ve; num_symbols := num_symbols ve;
     rela_tables := rela_tables ve; fstubs := stubs; vstubs := vstubs ve;
     num_fstubs := n; num_vstubs := num_vstubs ve;
     segments := segments ve; num_segments := num_segments ve |}.

Definition set_vstubs (ve : vita_elf_t) (ndx n : Z) (stubs : list vita_elf_stub_t) : vita_elf_t :=
  {| fstubs_ndx := fstubs_ndx ve; vstubs_ndx := ndx;
     symtab_ndx := symtab_ndx ve; symtab := symtab ve; num_symbols := num_symbols ve;
     rela_tables := rela_tables ve; fstubs := fstubs ve; vstubs := stubs;
     num_fstubs := num_fstubs ve; num_vstubs := n;
     segments := segments ve; num_segments := num_segments ve |}.

(** The stub-section branch at the head of the section loop. *)
Definition load_stub_section (ve : vita_elf_t) (ndx : Z) (shdr : Elf_Scn) (name : string)
    : result vita_elf_t :=
  if (sh_type shdr =? SHT_PROGBITS) && String.eqb name ".vitalink.fstubs" then
    if negb (fstubs_ndx ve =? 0) then Fail D_multiple_fstubs
    else
      let* r := load_stubs shdr in
      Ok (set_fstubs ve ndx (fst r) (snd r))
  else if (sh_type shdr =? SHT_PROGBITS) && String.eqb name ".vitalink.vstubs" then
    if negb (vstubs_ndx ve =? 0) then Fail D_multiple_vstubs
    else
      let* r := load_stubs shdr in
      Ok (set_vstubs ve ndx (fst r) (snd r))
  else Ok ve.

(** The body of the [while] over the sections, for section [ndx]. *)
Definition load_section (e : Elf) (shstrndx : Z) (ve : vita_elf_t) (ndx : Z) (shdr : Elf_Scn)
    : result vita_elf_t :=
  match elf_strptr e shstrndx (sh_name shdr) with
  | None => Fail D_strptr_failed
  | Some name =>
      let* ve := load_stub_section ve ndx shdr name in
      if existsb (String.eqb name) debug_sections then Fail D_debug_info
      else if sh_type shdr =? SHT_SYMTAB then load_symbols e ve (Some (ndx, shdr))
      else if sh_type shdr =? SHT_REL then load_rel_table e ve shdr
      else if sh_type shdr =? SHT_RELA then load_rela_table ve shdr
      else Ok ve
  end.

Fixpoint scan_sections (e : Elf) (shstrndx : Z) (scns : list Elf_Scn) (ndx : Z)
    (ve : vita_elf_t) : result vita_elf_t :=
  match scns with
  | [] => Ok ve
  | shdr :: rest =>
      let* ve := load_section e shstrndx ve ndx shdr in
      scan_sections e shstrndx rest (ndx + 1) ve
  end.

(** Host pointers are the addresses of a 64-bit host, numbers below
    [2 ^ 64].  A call of [mmap] that fails returns [MAP_FAILED], the
    pointer with all bits set, and not [NULL]. *)
Definition host_pointer_bits : Z := 64.

Definition MAP_FAILED : Z := 2 ^ host_pointer_bits - 1.

(** The [for] over the program headers; [mmap segndx memsz] is the pointer
    the call of [mmap] for segment [segndx] returns.  The code tests that
    pointer against [NULL] only, and goes on with any other: with the start
    of a reservation, and with [MAP_FAILED] too.  [vaddr_top + memsz] is
    pointer arithmetic: it is defined when [vaddr_top] points to the
    reservation and the sum is an address of the host again; on
    [MAP_FAILED], which points to nothing, it is not. *)
Fixpoint load_segments (mmap : nat -> Z -> Z) (phdrs : list GElf_Phdr) (segndx : nat)
    : result (list vita_elf_segment_info_t) :=
  match phdrs with
  | [] => Ok []
  | phdr :: rest =>
      let* curseg :=
        if negb (p_memsz phdr =? 0) then
          let top := mmap segndx (p_memsz phdr) in
          if top =? 0 then Fail (D_mmap_failed segndx)
          else if top =? MAP_FAILED then Undef
          else if (0 <? top) && (top + p_memsz phdr <? 2 ^ host_pointer_bits) then
            Ok {| seg_type := p_type phdr; seg_vaddr := p_vaddr phdr;
                  seg_memsz := p_memsz phdr;
                  vaddr_top := top; vaddr_bottom := top + p_memsz phdr |}
          else Undef
        else Ok {| seg_type := p_type phdr; seg_vaddr := p_vaddr phdr;
                   seg_memsz := p_memsz phdr; vaddr_top := 0; vaddr_bottom := 0 |} in
      let* rest := load_segments mmap rest (S segndx) in
      Ok (curseg :: rest)
  end.

Definition set_linked (ve : vita_elf_t) (fs vs : list vita_elf_stub_t)
    (segs : list vita_elf_segment_info_t) : vita_elf_t :=
  {| fstubs_ndx := fstubs_ndx ve; vstubs_ndx := vstubs_ndx ve;
     symtab_ndx := symtab_ndx ve; symtab := symtab ve; num_symbols := num_symbols ve;
     rela_tables := rela_tables ve; fstubs := fs; vstubs := vs;
     num_fstubs := num_fstubs ve; num_vstubs := num_vstubs ve;
     segments := segs; num_segments := Z.of_nat (length segs) |}.

(** What [vita_elf_load] does once the sections are scanned. *)
Definition link_and_map (e : Elf) (mmap : nat -> Z -> Z) (ve : vita_elf_t) : result vita_elf_t :=
  if (fstubs_ndx ve =? 0) && (vstubs_ndx ve =? 0) then Fail D_no_stub_sections
  else match symtab ve with
  | None => Fail D_no_symtab
  | Some _ =>
  match rela_tables ve with
  | [] => Fail D_no_rel_sections
  | _ :: _ =>
      let* fs := if negb (fstubs_ndx ve =? 0)
                 then lookup_stub_symbols ve (fstubs ve) (fstubs_ndx ve) STT_FUNC
                 else Ok (fstubs ve) in
      let* vs := if negb (vstubs_ndx ve =? 0)
                 then lookup_stub_symbols ve (vstubs ve) (vstubs_ndx ve) STT_OBJECT
                 else Ok (vstubs ve) in
      match elf_phdrs e with
      | None => Fail D_getphdrnum_failed
      | Some phdrs =>
          let* segs := load_segments mmap phdrs 0 in
          Ok (set_linked ve fs vs segs)
      end
  end end.

(** The checks of [vita_elf_load] on the file header; they yield the index
    of the section-name string table. *)
Definition check_header (file : option Elf) : result (Elf * Z) :=
  match file with
  | None => Fail D_open_failed
  | Some e =>
      if negb (elf_kind e =? ELF_K_ELF) then Fail D_not_elf
      else match elf_ehdr e with
      | None => Fail D_getehdr_failed
      | Some ehdr =>
          if negb (e_machine ehdr =? EM_ARM) then Fail D_not_arm
          else if negb (ei_class ehdr =? ELFCLASS32) || negb (ei_data ehdr =? ELFDATA2LSB)
          then Fail D_not_32bit_le
          else match elf_shstrndx e with
          | None => Fail D_getshdrstrndx_failed
          | Some shstrndx => Ok (e, shstrndx)
          end
      end
  end.

(** [vita_elf_load]; [file] is [None] when the file cannot be opened. *)
Definition vita_elf_load (file : option Elf) (mmap : nat -> Z -> Z) : result vita_elf_t :=
  let* h := check_header file in
  let* ve := scan_sections (fst h) (snd h) (tail (elf_scns (fst h))) 1 zero_elf in
  link_and_map (fst h) mmap ve.

(** ** Import resolver *)

(** The arguments of the three [warnx] calls of [lookup_stubs], in the order
    of their format strings:
    ["Unable to find library with NID %u for %s symbol %s"],
    ["Unable to find module with NID %u for %s symbol %s"],
    ["Unable to find %s with NID %u for symbol %s"]. *)
Inductive warning :=
  | W_library (nid : Z) (stub_type_name : string) (symbol : option string)
  | W_module (nid : Z) (stub_type_name : string) (symbol : option string)
  | W_target (stub_type_name : string) (nid : Z) (symbol : option string).

Section Resolver.
(** The import databases are external: [vita_imports_find_lib],
    [vita_imports_find_module] and the target finders are given. *)
Variable vita_imports_find_lib : Z -> Z -> Z.
Variable vita_imports_find_module : Z -> Z -> Z.
Variable vita_imports_find_function : Z -> Z -> Z.
Variable vita_imports_find_variable : Z -> Z -> Z.

(** The [for] over the databases; [library] is [stub->library]. *)
Fixpoint find_library (imports : list Z) (nid : Z) (library : Z) : Z :=
  match imports with
  | [] => library
  | imp :: rest =>
      let library := vita_imports_find_lib imp nid in
      if negb (library =? 0) then library else find_library rest nid library
  end.

(** [stub->symbol ? stub->symbol->name : "(unreferenced stub)"] *)
Definition stub_symbol_name (tab : list vita_elf_symbol_t) (stub : vita_elf_stub_t)
    : option string :=
  match stub_symbol stub with
  | Some symndx => match tab !! symndx with
                   | Some symbol => symbol_name symbol
                   | None => None
                   end
  | None => Some "(unreferenced stub)"%string
  end.

Definition set_stub_imports (stub : vita_elf_stub_t) (library module target : Z)
    : vita_elf_stub_t :=
  {| stub_addr := stub_addr stub; library_nid := library_nid stub;
     module_nid := module_nid stub; target_nid := target_nid stub;
     stub_symbol := stub_symbol stub; stub_library := library;
     stub_module := module; stub_target := target |}.

(** The body of the [for] over the stubs: the stub as it is left, and the
    warning if one is made. *)
Definition lookup_stub (tab : list vita_elf_symbol_t) (imports : list Z)
    (find_stub : Z -> Z -> Z) (stub_type_name : string) (stub : vita_elf_stub_t)
    : vita_elf_stub_t * option warning :=
  let library := find_library imports (library_nid stub) (stub_library stub) in
  if library =? 0 then
    (set_stub_imports stub library (stub_module stub) (stub_target stub),
     Some (W_library (library_nid stub) stub_type_name (stub_symbol_name tab stub)))
  else
    let module := vita_imports_find_module library (module_nid stub) in
    if module =? 0 then
      (set_stub_imports stub library module (stub_target stub),
       Some (W_module (module_nid stub) stub_type_name (stub_symbol_name tab stub)))
    else
      let target := find_stub module (target_nid stub) in
      if target =? 0 then
        (set_stub_imports stub library module target,
         Some (W_target stub_type_name (module_nid stub) (stub_symbol_name tab stub)))
      else (set_stub_imports stub library module target, None).

(** [lookup_stubs]: the stubs, the warnings in the order they are made,
    and [found_all]. *)
Fixpoint lookup_stubs (tab : list vita_elf_symbol_t) (stubs : list vita_elf_stub_t)
    (imports : list Z) (find_stub : Z -> Z -> Z) (stub_type_name : string)
    : list vita_elf_stub_t * list warning * bool :=
  match stubs with
  | [] => ([], [], true)
  | stub :: rest =>
      let r := lookup_stub tab imports find_stub stub_type_name stub in
      let rs := lookup_stubs tab rest imports find_stub stub_type_name in
      match snd r with
      | Some w => (fst r :: fst (fst rs), w :: snd (fst rs), false)
      | None => (fst r :: fst (fst rs), snd (fst rs), snd rs)
      end
  end.

Definition set_stubs (ve : vita_elf_t) (fs vs : list vita_elf_stub_t) : vita_elf_t :=
  {| fstubs_ndx := fstubs_ndx ve; vstubs_ndx := vstubs_ndx ve;
     symtab_ndx := symtab_ndx ve; symtab := symtab ve; num_symbols := num_symbols ve;
     rela_tables := rela_tables ve; fstubs := fs; vstubs := vs;
     num_fstubs := num_fstubs ve; num_vstubs := num_vstubs ve;
     segments := segments ve; num_segments := num_segments ve |}.

Definition vita_elf_lookup_imports (ve : vita_elf_t) (imports : list Z)
    : vita_elf_t * list warning * bool :=
  let tab := default [] (symtab ve) in
  let f := lookup_stubs tab (fstubs ve) imports vita_imports_find_function "function" in
  let v := lookup_stubs tab (vstubs ve) imports vita_imports_find_variable "variable" in
  (set_stubs ve (fst (fst f)) (fst (fst v)),
   snd (fst f) ++ snd (fst v),
   snd f && snd v).

(** A stub resolves when the three lookups made for it all succeed. *)
Definition stub_resolves (imports : list Z) (find_stub : Z -> Z -> Z)
    (stub : vita_elf_stub_t) : bool :=
  let library := find_library imports (library_nid stub) (stub_library stub) in
  negb (library =? 0)
  && negb (vita_imports_find_module library (module_nid stub) =? 0)
  && negb (find_stub (vita_imports_find_module library (module_nid stub))
             (target_nid stub) =? 0).
End Resolver.

(** ** Address-space mapper

    Host pointers are integers; [0] is [NULL]. *)

Definition seg_contains_vaddr (seg : vita_elf_segment_info_t) (vaddr : Z) : bool :=
  (vaddr >=? seg_vaddr seg) && (vaddr <? u32 (seg_vaddr seg + seg_memsz seg)).

Definition seg_contains_host (seg : vita_elf_segment_info_t) (host_addr : Z) : bool :=
  (host_addr >=? vaddr_top seg) && (host_addr <? vaddr_bottom seg).

Fixpoint vaddr_to_host_from (segs : list vita_elf_segment_info_t) (vaddr : Z) : Z :=
  match segs with
  | [] => 0
  | seg :: rest =>
      if seg_contains_vaddr seg vaddr then vaddr_top seg + vaddr - seg_vaddr seg
      else vaddr_to_host_from rest vaddr
  end.

Definition vita_elf_vaddr_to_host (ve : vita_elf_t) (vaddr : Z) : Z :=
  vaddr_to_host_from (segments ve) vaddr.

(** [None]: [segndx] is not the index of a segment. *)
Definition vita_elf_segoffset_to_host (ve : vita_elf_t) (segndx : nat) (offset : Z)
    : option Z :=
  match segments ve !! segndx with
  | Some seg => if offset <? seg_memsz seg then Some (vaddr_top seg + offset) else Some 0
  | None => None
  end.

Fixpoint host_to_vaddr_from (segs : list vita_elf_segment_info_t) (host_addr : Z) : Z :=
  match segs with
  | [] => 0
  | seg :: rest =>
      if seg_contains_host seg host_addr
      then u32 (seg_vaddr seg + u32 (host_addr - vaddr_top seg))
      else host_to_vaddr_from rest host_addr
  end.

Definition vita_elf_host_to_vaddr (ve : vita_elf_t) (host_addr : Z) : Z :=
  if host_addr =? 0 then 0 else host_to_vaddr_from (segments ve) host_addr.

Fixpoint host_to_segndx_from (segs : list vita_elf_segment_info_t) (i : Z) (host_addr : Z) : Z :=
  match segs with
  | [] => -1
  | seg :: rest =>
      if seg_contains_host seg host_addr then i
      else host_to_segndx_from rest (i + 1) host_addr
  end.

Definition vita_elf_host_to_segndx (ve : vita_elf_t) (host_addr : Z) : Z :=
  host_to_segndx_from (segments ve) 0 host_addr.

Definition vita_elf_host_to_segoffset (ve : vita_elf_t) (host_addr : Z) (segndx : nat)
    : option Z :=
  if host_addr =? 0 then Some 0
  else match segments ve !! segndx with
       | Some seg =>
           if seg_contains_host seg host_addr
           then Some (s32 (host_addr - vaddr_top seg))
           else Some (-1)
       | None => None
       end.

Fixpoint vaddr_to_segndx_from (segs : list vita_elf_segment_info_t) (i : Z) (vaddr : Z) : Z :=
  match segs with
  | [] => -1
  | seg :: rest =>
      if seg_type seg =? SHT_ARM_EXIDX then vaddr_to_segndx_from rest (i + 1) vaddr
      else if seg_contains_vaddr seg vaddr then i
      else vaddr_to_segndx_from rest (i + 1) vaddr
  end.

Definition vita_elf_vaddr_to_segndx (ve : vita_elf_t) (vaddr : Z) : Z :=
  vaddr_to_segndx_from (segments ve) 0 vaddr.

(** [vita_elf_vaddr_to_segoffset]: the segment is only read when [vaddr] is
    not 0; [None] when it is read and [segndx] is not the index of a
    segment. *)
Definition vita_elf_vaddr_to_segoffset (ve : vita_elf_t) (vaddr : Z) (segndx : nat)
    : option Z :=
  if vaddr =? 0 then Some 0
  else match segments ve !! segndx with
       | Some seg => Some (u32 (vaddr - seg_vaddr seg))
       | None => None
       end.

(** ** The driver ([main] of vita-elf-create.c)

    The SCE encoder and the ELF writer are external.  Each call whose result
    [main] tests with [ASSERT]/[ELF_ASSERT] is a [stage]; [stage_ok] tells
    whether it succeeds in the run at hand. *)
Inductive stage :=
  | St_copy_to_file            (* elf_utils_copy_to_file *)
  | St_duplicate_shstrtab      (* elf_utils_duplicate_shstrtab *)
  | St_discard_invalid_relocs  (* sce_elf_discard_invalid_relocs *)
  | St_write_module_info       (* sce_elf_write_module_info *)
  | St_write_rela_sections     (* sce_elf_write_rela_sections *)
  | St_rewrite_stubs           (* sce_elf_rewrite_stubs *)
  | St_elf_update              (* elf_update(dest, ELF_C_WRITE) *)
  | St_set_headers.            (* sce_elf_set_headers *)

(** The calls between [FILE *outfile;] and [fclose(outfile)], in order. *)
Definition output_stages : list stage :=
  [St_copy_to_file; St_duplicate_shstrtab; St_discard_invalid_relocs;
   St_write_module_info; St_write_rela_sections; St_rewrite_stubs;
   St_elf_update; St_set_headers].

(** What a run does that can be seen from outside. *)
Inductive event :=
  | Ev_usage                   (* errx: usage message *)
  | Ev_diag (d : diag)         (* the report of a failed load *)
  | Ev_warn (w : warning)      (* a warning of the import resolver *)
  | Ev_stage (s : stage)       (* the stage is called *)
  | Ev_assert_failed (s : stage)
  | Ev_output_closed.          (* fclose(outfile): the output file is complete *)

Section Main.
Variable vita_imports_find_lib : Z -> Z -> Z.
Variable vita_imports_find_module : Z -> Z -> Z.
Variable vita_imports_find_function : Z -> Z -> Z.
Variable vita_imports_find_variable : Z -> Z -> Z.
Variable stage_ok : stage -> bool.

(** The chain of [ASSERT]s: [true] when control reaches the end of it. *)
Fixpoint run_stages (stages : list stage) : bool * list event :=
  match stages with
  | [] => (true, [])
  | s :: rest =>
      if stage_ok s then
        let r := run_stages rest in (fst r, Ev_stage s :: snd r)
      else (false, [Ev_stage s; Ev_assert_failed s])
  end.

(** [main]: the exit status and the events of the run, [None] where the
    behaviour of the C program is not defined.  [imports] is what
    [load_imports] returns ([None] for [NULL]); it depends on the file
    system through [vita_imports_load].  The listings printed on standard
    output are left out, but for the read of [ve->segments[0]] they
    make. *)
Definition main (argc : Z) (file : option Elf) (mmap : nat -> Z -> Z)
    (imports : option (list Z)) : option (Z * list event) :=
  if argc <? 3 then Some (EXIT_FAILURE, [Ev_usage])
  else
    match vita_elf_load file mmap with
    | Undef => None
    | Fail d => Some (EXIT_FAILURE, [Ev_diag d])
    | Ok ve =>
        match imports with
        | None => Some (EXIT_FAILURE, [])
        | Some imports =>
            let r := vita_elf_lookup_imports vita_imports_find_lib
                       vita_imports_find_module vita_imports_find_function
                       vita_imports_find_variable ve imports in
            let status := if snd r then EXIT_SUCCESS else EXIT_FAILURE in
            let warnings := map Ev_warn (snd (fst r)) in
            match segments (fst (fst r)) with
            | [] => None
            | _ :: _ =>
                let w := run_stages output_stages in
                if fst w then Some (status, warnings ++ snd w ++ [Ev_output_closed])
                else Some (EXIT_FAILURE, warnings ++ snd w)
            end
        end
    end.
End Main.

(** [print_rtable] of vita-elf-create.c: what is printed for one slot of a
    table, [None] when nothing is. *)
Inductive rtable_line :=
  | L_symbol (offset type : Z) (symbol : nat) (addend : Z)
  | L_absolute (offset type addend : Z).

Definition print_rela (rela : vita_elf_rela_t) : option rtable_line :=
  match rela_symbol rela with
  | Some symbol =>
      Some (L_symbol (rela_offset rela) (rela_type rela) symbol (rela_addend rela))
  | None =>
      if negb (rela_offset rela =? 0)
      then Some (L_absolute (rela_offset rela) (rela_type rela) (u32 (rela_addend rela)))
      else None
  end.

Definition print_rtable (rtable : vita_elf_rela_table_t) : list (option rtable_line) :=
  print_rela <$> take (Z.to_nat (num_relas rtable)) (relas rtable).

(** ** Input files of the scenarios *)
Module Scenarios.
Definition enc16 (x : Z) : list Z := [x mod 2 ^ 8; (x / 2 ^ 8) mod 2 ^ 8].

Definition enc32 (x : Z) : list Z :=
  [x mod 2 ^ 8; (x / 2 ^ 8) mod 2 ^ 8; (x / 2 ^ 16) mod 2 ^ 8; (x / 2 ^ 24) mod 2 ^ 8].

(** An [Elf32_Sym] and an [Elf32_Rel] as they lie in the file. *)
Definition Elf32_Sym (name value bind type shndx : Z) : list Z :=
  enc32 name ++ enc32 value ++ enc32 0 ++ [bind * 16 + type; 0] ++ enc16 shndx.

Definition Elf32_Rel (offset sym type : Z) : list Z :=
  enc32 offset ++ enc32 (sym * 2 ^ 8 + type).

Definition stub_slot (library module target : Z) : list Z :=
  enc32 library ++ enc32 module ++ enc32 target ++ enc32 0.

(** A section whose contents come as one chunk. *)
Definition section (name type addr entsize link info : Z) (bytes : list Z) : Elf_Scn :=
  {| sh_name := name; sh_type := type; sh_addr := addr;
     sh_size := Z.of_nat (length bytes); sh_entsize := entsize;
     sh_link := link; sh_info := info;
     scn_data := [ {| d_buf := bytes; d_off := 0; d_size := Z.of_nat (length bytes) |} ] |}.

Definition STB_LOCAL : Z := 0.
Definition SHT_STRTAB : Z := 3.
Definition PT_LOAD : Z := 1.

(** String tables: section 6 names the sections, section 4 the symbols. *)
Definition strptr (names : list string) (ndx off : Z) : option string :=
  if ndx =? 6 then
    [EmptyString; ".text"; ".vitalink.fstubs"; ".symtab"; ".strtab"; ".rel.text"; ".shstrtab";
     ".vitalink.vstubs"; ".rel.debug_info"]%string !! Z.to_nat off
  else if ndx =? 4 then names !! Z.to_nat off
  else None.

Definition elf_of (names : list string) (scns : list Elf_Scn) (phdrs : list GElf_Phdr) : Elf :=
  {| elf_kind := ELF_K_ELF;
     elf_ehdr := Some {| e_machine := EM_ARM; ei_class := ELFCLASS32; ei_data := ELFDATA2LSB |};
     elf_shstrndx := Some 6;
     elf_scns := scns;
     elf_phdrs := Some phdrs;
     elf_strptr := strptr names |}.

(** The usual layout: code at [0x81000], one function-stub section at
    [0x82000], a symbol table, the REL section of the code. *)
Definition image_with (phdrs : list GElf_Phdr) (text fstubs syms rels : list Z)
    (names : list string) : Elf :=
  elf_of names
    [ section 0 0 0 0 0 0 [];
      section 1 SHT_PROGBITS 0x81000 0 0 0 text;
      section 2 SHT_PROGBITS 0x82000 0 0 0 fstubs;
      section 3 SHT_SYMTAB 0 16 4 0 syms;
      section 4 SHT_STRTAB 0 0 0 0 [];
      section 5 SHT_REL 0 8 3 1 rels;
      section 6 SHT_STRTAB 0 0 0 0 [] ]
    phdrs.

Definition image : list Z -> list Z -> list Z -> list Z -> list string -> Elf :=
  image_with [ {| p_type := PT_LOAD; p_vaddr := 0x81000; p_memsz := 0x2000 |} ].

(** The reservation for segment [i] is at [(i + 1) * 2 ^ 32]. *)
Definition mmap (segndx : nat) (memsz : Z) : Z := (Z.of_nat segndx + 1) * 2 ^ 32.

(** S1: a Thumb BL at [0x81000] whose symbol has the Thumb bit set. *)
Definition S1 : Elf :=
  image [0xFF; 0xF7; 0xFE; 0xFF]
        (stub_slot 1 2 3)
        (Elf32_Sym 0 0 0 0 0 ++ Elf32_Sym 1 0x81001 STB_LOCAL STT_FUNC 1)
        (Elf32_Rel 0x81000 1 R_ARM_THM_CALL)
        [EmptyString; "S"]%string.
End Scenarios.

(** ** Further input files *)
Module Inputs.
Import Scenarios.

(** A segment that ends at the top of the 32-bit guest address space. *)
Definition top_segment : Elf :=
  image_with [ {| p_type := PT_LOAD; p_vaddr := 0xFFFFF000; p_memsz := 0x1000 |} ]
        [0xFF; 0xF7; 0xFE; 0xFF]
        (stub_slot 1 2 3)
        (Elf32_Sym 0 0 0 0 0 ++ Elf32_Sym 1 0x81001 STB_LOCAL STT_FUNC 1)
        (Elf32_Rel 0x81000 1 R_ARM_THM_CALL)
        [EmptyString; "S"]%string.

(** A context that holds segments only. *)
Definition with_segments (segs : list vita_elf_segment_info_t) : vita_elf_t :=
  set_linked zero_elf [] [] segs.

Definition code_segment : vita_elf_segment_info_t :=
  {| seg_type := PT_LOAD; seg_vaddr := 0x81000; seg_memsz := 0x2000;
     vaddr_top := 2 ^ 32; vaddr_bottom := 2 ^ 32 + 0x2000 |}.
End Inputs.

(** ** The design document's wording of the branch decode

    [sign_extend n x]: the low [n] bits of [x] read as a two's-complement
    number. *)
Definition sign_extend (n x : Z) : Z :=
  let y := x mod 2 ^ n in if y <? 2 ^ (n - 1) then y else y - 2 ^ n.

(** The decode of R_ARM_CALL and R_ARM_JUMP24 in the words of the design
    document: the low 24 bits of the word shifted left by 2, sign-extended
    from bit 25, plus the offset (as a 32-bit address). *)
Definition branch24_target_spec (data offset : Z) : Z :=
  u32 (sign_extend 26 (Z.shiftl (Z.land data 0x00FFFFFF) 2) + offset).

Module RelInputs.
Import Scenarios.

(** S2: [movw r0, #0xBEEF] and [movt r0, #0xDEAD] at adjacent offsets, on
    one symbol of value [0xDEADBEEF]. *)
Definition S2 : Elf :=
  image (enc32 0xE30B0EEF ++ enc32 0xE34D0EAD)
        (stub_slot 1 2 3)
        (Elf32_Sym 0 0 0 0 0 ++ Elf32_Sym 1 0xDEADBEEF STB_LOCAL STT_OBJECT 1)
        (Elf32_Rel 0x81000 1 R_ARM_MOVW_ABS_NC ++ Elf32_Rel 0x81004 1 R_ARM_MOVT_ABS)
        [EmptyString; "S"]%string.

(** A REL section with an R_ARM_THM_PC11 entry before the BL of S1. *)
Definition with_pc11 : Elf :=
  image [0xFF; 0xF7; 0xFE; 0xFF]
        (stub_slot 1 2 3)
        (Elf32_Sym 0 0 0 0 0 ++ Elf32_Sym 1 0x81001 STB_LOCAL STT_FUNC 1)
        (Elf32_Rel 0x81002 0 R_ARM_THM_PC11 ++ Elf32_Rel 0x81000 1 R_ARM_THM_CALL)
        [EmptyString; "S"]%string.

(** The REL section of a file built by [image]. *)
Definition rel_section (e : Elf) : Elf_Scn :=
  default (section 0 0 0 0 0 0 []) (elf_scns e !! 5%nat).

Definition rel_data (e : Elf) : Elf_Data :=
  default {| d_buf := []; d_off := 0; d_size := 0 |} (head (scn_data (rel_section e))).
End RelInputs.

(** ** Invariants of the segment table

    What the loop over the program headers establishes when the
    reservations are pairwise disjoint: 32-bit guest ranges, and for each
    segment of non-zero size a host buffer [[vaddr_top, vaddr_bottom)] of
    that size; host buffers of distinct segments do not overlap. *)
Definition segment_ok (seg : vita_elf_segment_info_t) : Prop :=
  0 <= seg_vaddr seg < 2 ^ 32 /\
  0 <= seg_memsz seg < 2 ^ 32 /\
  (seg_memsz seg <> 0 -> 0 < vaddr_top seg /\ vaddr_bottom seg = vaddr_top seg + seg_memsz seg) /\
  (seg_memsz seg = 0 -> vaddr_top seg = 0 /\ vaddr_bottom seg = 0).

Definition host_disjoint (s1 s2 : vita_elf_segment_info_t) : Prop :=
  vaddr_bottom s1 <= vaddr_top s2 \/ vaddr_bottom s2 <= vaddr_top s1.

Definition segments_ok (segs : list vita_elf_segment_info_t) : Prop :=
  (forall (i : nat) seg, segs !! i = Some seg -> segment_ok seg) /\
  (forall (i j : nat) si sj,
      i <> j -> segs !! i = Some si -> segs !! j = Some sj -> host_disjoint si sj).

(** ** Import databases of the scenarios *)
Module ImportInputs.
(** One database, handle 7: library 1 with module 2, whose only function
    has NID 4. *)
Definition find_lib (imports nid : Z) : Z :=
  if (imports =? 7) && (nid =? 1) then 100 else 0.

Definition find_module (library nid : Z) : Z :=
  if (library =? 100) && (nid =? 2) then 200 else 0.

Definition find_function (module nid : Z) : Z :=
  if (module =? 200) && (nid =? 4) then 300 else 0.

Definition find_variable (module nid : Z) : Z := 0.

(** A database that knows nothing. *)
Definition find_nothing (handle nid : Z) : Z := 0.

(** The stub of the scenario files: NIDs 1, 2, 3, no symbol. *)
Definition stub_1_2_3 : vita_elf_stub_t :=
  {| stub_addr := 0x82000; library_nid := 1; module_nid := 2; target_nid := 3;
     stub_symbol := None; stub_library := 0; stub_module := 0; stub_target := 0 |}.

(** Every output stage succeeds. *)
Definition all_stages_ok (s : stage) : bool := true.
End ImportInputs.

(** ** The stub slot at an address

    [stub_at stubs value]: the index of the first stub whose [addr] is
    [value], the one the inner loop of [lookup_stub_symbols] stops at. *)
Fixpoint stub_at (stubs : list vita_elf_stub_t) (value : Z) : option nat :=
  match stubs with
  | [] => None
  | stub :: rest =>
      if stub_addr stub =? value then Some 0%nat
      else match stub_at rest value with
           | Some k => Some (S k)
           | None => None
           end
  end.

Module LinkInputs.
Import Scenarios.

(** S6: two global FUNC symbols on the one stub slot at [0x82000]. *)
Definition S6 : Elf :=
  image [0xFF; 0xF7; 0xFE; 0xFF]
        (stub_slot 1 2 3)
        (Elf32_Sym 0 0 0 0 0
         ++ Elf32_Sym 1 0x82000 STB_GLOBAL STT_FUNC 2
         ++ Elf32_Sym 2 0x82000 STB_GLOBAL STT_FUNC 2)
        (Elf32_Rel 0x81000 1 R_ARM_THM_CALL)
        [EmptyString; "a"; "b"]%string.

(** A global FUNC symbol on the stub slot, bound by the linker. *)
Definition bound : Elf :=
  image [0xFF; 0xF7; 0xFE; 0xFF]
        (stub_slot 1 2 3)
        (Elf32_Sym 0 0 0 0 0 ++ Elf32_Sym 1 0x82000 STB_GLOBAL STT_FUNC 2)
        (Elf32_Rel 0x81000 1 R_ARM_THM_CALL)
        [EmptyString; "a"]%string.

(** A global FUNC symbol of the stub section that points at no slot. *)
Definition astray : Elf :=
  image [0xFF; 0xF7; 0xFE; 0xFF]
        (stub_slot 1 2 3)
        (Elf32_Sym 0 0 0 0 0 ++ Elf32_Sym 1 0x82004 STB_GLOBAL STT_FUNC 2)
        (Elf32_Rel 0x81000 1 R_ARM_THM_CALL)
        [EmptyString; "a"]%string.
End LinkInputs.

Module LinkContexts.
(** A symbol of the function-stub section (section 2) at [value]. *)
Definition stub_symbol_at (name : string) (value : Z) : vita_elf_symbol_t :=
  {| symbol_name := Some name; symbol_value := value; symbol_type := STT_FUNC;
     symbol_binding := STB_GLOBAL; symbol_shndx := 2 |}.

(** A context that holds the symbol table [tab] only. *)
Definition with_symbols (tab : list vita_elf_symbol_t) : vita_elf_t :=
  set_symtab zero_elf 3 tab (Z.of_nat (length tab)).
End LinkContexts.

(** ** Stub sections

    The test the section loop makes on a section header: [PROGBITS] and the
    name [name]. *)
Definition is_stub_section (e : Elf) (shstrndx : Z) (name : string) (shdr : Elf_Scn) : bool :=
  (sh_type shdr =? SHT_PROGBITS)
  && match elf_strptr e shstrndx (sh_name shdr) with
     | Some n => String.eqb n name
     | None => false
     end.

Module SectionInputs.
Import Scenarios.

(** The file of S1 with one more section: [extra] comes last, as section
    7. *)
Definition S1_with (extra : Elf_Scn) : Elf :=
  elf_of [EmptyString; "S"]%string (elf_scns S1 ++ [extra])
    [ {| p_type := PT_LOAD; p_vaddr := 0x81000; p_memsz := 0x2000 |} ].

(** A second section named [.vitalink.fstubs]. *)
Definition two_fstubs : Elf :=
  S1_with (section 2 SHT_PROGBITS 0x83000 0 0 0 (stub_slot 4 5 6)).

(** Two sections named [.vitalink.vstubs]. *)
Definition two_vstubs : Elf :=
  elf_of [EmptyString; "S"]%string
    (elf_scns S1 ++ [section 7 SHT_PROGBITS 0x83000 0 0 0 (stub_slot 4 5 6);
                     section 7 SHT_PROGBITS 0x84000 0 0 0 (stub_slot 7 8 9)])
    [ {| p_type := PT_LOAD; p_vaddr := 0x81000; p_memsz := 0x2000 |} ].
End SectionInputs.


(** ** The symbol value an addend is taken from

    The masks of the [if] chain that ends the loop body of
    [load_rel_table]. *)
Definition adjusted_symbol_value (type value : Z) : Z :=
  if is_case type [R_ARM_MOVT_ABS; R_ARM_THM_MOVT_ABS] then Z.land value 0xFFFF0000
  else if is_case type [R_ARM_MOVW_ABS_NC; R_ARM_THM_MOVW_ABS_NC] then Z.land value 0xFFFF
  else if is_case type [R_ARM_THM_CALL] then Z.land value 0xFFFFFFFE
  else value.

(** The type [load_rel_table] stores for a REL entry. *)
Definition loaded_type (rel : GElf_Rel) : Z :=
  if GELF_R_TYPE (r_info rel) =? R_ARM_THM_JUMP24 then R_ARM_THM_CALL
  else GELF_R_TYPE (r_info rel).

(** ** What the reservations are assumed to be

    The program headers of a 32-bit file, and host reservations of which
    no two overlap. *)
Definition phdr_32bit (phdr : GElf_Phdr) : Prop :=
  0 <= p_vaddr phdr < 2 ^ 32 /\ 0 <= p_memsz phdr < 2 ^ 32.

Definition reservations_disjoint (mmap : nat -> Z -> Z) (phdrs : list GElf_Phdr) : Prop :=
  forall (i j : nat) pi pj,
    i <> j -> phdrs !! i = Some pi -> phdrs !! j = Some pj ->
    p_memsz pi <> 0 -> p_memsz pj <> 0 ->
    mmap i (p_memsz pi) + p_memsz pi <= mmap j (p_memsz pj) \/
    mmap j (p_memsz pj) + p_memsz pj <= mmap i (p_memsz pi).

Module MoreSectionInputs.
Import Scenarios.

(** The file of S1 followed by a section named [.rel.debug_info]. *)
Definition with_debug_info : Elf :=
  SectionInputs.S1_with (section 8 SHT_REL 0 8 3 1 []).

(** The file of S1 followed by a RELA section. *)
Definition with_rela : Elf :=
  SectionInputs.S1_with (section 5 SHT_RELA 0 12 3 1 []).
End MoreSectionInputs.

(** ** Runs of the output stages *)
Module StageInputs.
(** Writing the output file fails: [elf_update] returns a negative
    number. *)
Definition update_fails (s : stage) : bool :=
  match s with
  | St_elf_update => false
  | _ => true
  end.
End StageInputs.

(** ** Guest ranges

    [vaddr] lies in the guest range [[vaddr, vaddr + memsz)] of [seg], and
    the range ends below [2 ^ 32]. *)
Definition seg_holds (seg : vita_elf_segment_info_t) (vaddr : Z) : Prop :=
  seg_vaddr seg <= vaddr < seg_vaddr seg + seg_memsz seg /\
  seg_vaddr seg + seg_memsz seg < 2 ^ 32.

(** The fields of a segment that come from a 32-bit program header. *)
Definition seg_32bit (seg : vita_elf_segment_info_t) : Prop :=
  0 <= seg_vaddr seg < 2 ^ 32 /\ 0 <= seg_memsz seg < 2 ^ 32.

Module MapperInputs.
(** An EXIDX segment that duplicates 16 bytes of the code segment, and
    comes before it in the table. *)
Definition exidx_segment : vita_elf_segment_info_t :=
  {| seg_type := SHT_ARM_EXIDX; seg_vaddr := 0x81100; seg_memsz := 0x10;
     vaddr_top := 3 * 2 ^ 32; vaddr_bottom := 3 * 2 ^ 32 + 0x10 |}.

Definition exidx_first : vita_elf_t :=
  Inputs.with_segments [exidx_segment; Inputs.code_segment].
End MapperInputs.
(** * Properties *)

(** ** Machine integers and the result monad *)

Lemma u32_range x : 0 <= u32 x < 2 ^ 32.
Proof. unfold u32. apply Z.mod_pos_bound. lia. Qed.

Lemma u32_small x : 0 <= x < 2 ^ 32 -> u32 x = x.
Proof. intros H. unfold u32. apply Z.mod_small. exact H. Qed.

Lemma s32_range x : - 2 ^ 31 <= s32 x < 2 ^ 31.
Proof.
  unfold s32. pose proof (u32_range x) as H.
  destruct (u32 x <? 2 ^ 31) eqn:E; [apply Z.ltb_lt in E | apply Z.ltb_ge in E]; lia.
Qed.

Lemma s32_congr x : (s32 x - x) mod 2 ^ 32 = 0.
Proof.
  unfold s32, u32.
  destruct (x mod 2 ^ 32 <? 2 ^ 31).
  - rewrite Zminus_mod, Z.mod_mod, Z.sub_diag by lia. reflexivity.
  - replace (x mod 2 ^ 32 - 2 ^ 32 - x) with (x mod 2 ^ 32 - x + (-1) * 2 ^ 32) by lia.
    rewrite Z.mod_add by lia.
    rewrite Zminus_mod, Z.mod_mod, Z.sub_diag by lia. reflexivity.
Qed.

Lemma rbind_Ok {A B} (r : result A) (k : A -> result B) b :
  rbind r k = Ok b -> exists a, r = Ok a /\ k a = Ok b.
Proof. destruct r; simpl; intros H; try discriminate. eauto. Qed.

Lemma defined_Ok {A} (o : option A) a : defined o = Ok a -> o = Some a.
Proof. destruct o; simpl; intros H; congruence. Qed.

Lemma Some_eq {A} (a b : A) : Some a = Some b -> a = b.
Proof. intros H. injection H. auto. Qed.

Lemma Ok_eq {A} (a b : A) : Ok a = Ok b -> a = b.
Proof. intros H. injection H. auto. Qed.

Lemma to_int_Ok n m : to_int n = Ok m -> m = n /\ 0 <= n < 2 ^ 31.
Proof.
  unfold to_int. destruct (0 <=? n) eqn:E1; destruct (n <? 2 ^ 31) eqn:E2; simpl;
    intros H; try discriminate.
  apply Z.leb_le in E1. apply Z.ltb_lt in E2. split; [congruence | lia].
Qed.

(** Inversion of a successful monadic computation, one bind at a time. *)
Ltac inv_ok H :=
  match type of H with
  | rbind _ _ = Ok _ =>
      let a := fresh "a" in let Ha := fresh "H" a in
      apply rbind_Ok in H; destruct H as [a [Ha H]]
  | defined _ = Ok _ => apply defined_Ok in H
  | Ok _ = Ok _ => injection H as H
  end.

Tactic Notation "inv_bind" hyp(H) "as" ident(a) ident(Ha) :=
  apply rbind_Ok in H; destruct H as [a [Ha H]].

Lemma byte_at_range buf off b : byte_at buf off = Some b -> 0 <= b < 2 ^ 8.
Proof.
  unfold byte_at. destruct (off <? 0); [discriminate |].
  destruct (buf !! Z.to_nat off); [| discriminate].
  intros H. injection H as <-. apply Z.mod_pos_bound. lia.
Qed.

Lemma le32_at_range buf off w : le32_at buf off = Some w -> 0 <= w < 2 ^ 32.
Proof.
  unfold le32_at.
  destruct (byte_at buf off) eqn:E0; [| discriminate].
  destruct (byte_at buf (off + 1)) eqn:E1; [| discriminate].
  destruct (byte_at buf (off + 2)) eqn:E2; [| discriminate].
  destruct (byte_at buf (off + 3)) eqn:E3; [| discriminate].
  intros H. injection H as <-.
  apply byte_at_range in E0, E1, E2, E3. lia.
Qed.

(** ** Branch decode (R_ARM_CALL, R_ARM_JUMP24) *)

(** What the code computes for a branch: the low 24 bits of the sum of the
    shifted field and the offset, zero-extended. *)
Lemma shl32_shr32_8 x : shr32 (shl32 x 8) 8 = x mod 2 ^ 24.
Proof.
  unfold shr32, shl32, u32.
  rewrite Z.shiftl_mul_pow2, Z.shiftr_div_pow2 by lia.
  replace (2 ^ 32) with (2 ^ 24 * 2 ^ 8) by reflexivity.
  rewrite Zmult_mod_distr_r. apply Z.div_mul. lia.
Qed.

Lemma decode_rel_target_branch24 data type addr :
  type = R_ARM_CALL \/ type = R_ARM_JUMP24 ->
  decode_rel_target data type addr =
    Some ((Z.land data 0x00ffffff * 4 + addr) mod 2 ^ 24).
Proof.
  intros Htype.
  assert (decode_rel_target data type addr =
          Some (shr32 (shl32 (u32 (shl32 (Z.land data 0x00ffffff) 2 + addr)) 8) 8)) as ->
    by (destruct Htype as [-> | ->]; reflexivity).
  f_equal. rewrite shl32_shr32_8. unfold shl32, u32.
  rewrite Z.shiftl_mul_pow2 by lia.
  rewrite Zplus_mod_idemp_l.
  apply Z.mod_mod_divide. exists (2 ^ 8). reflexivity.
Qed.

(** C1.  For a BL to itself at [0x81000100] (word [0xEBFFFFFE], field -2)
    the design document's decode gives the target [0x810000F8]: the field
    shifted left by 2, sign-extended from bit 25, plus the offset.
    [decode_rel_target] returns [0xF8] there: it adds the offset first and
    then keeps the low 24 bits of the sum, without sign extension. *)
Theorem decode_rel_target_call_truncates :
  decode_rel_target 0xEBFFFFFE R_ARM_CALL 0x81000100 = Some 0xF8 /\
  branch24_target_spec 0xEBFFFFFE 0x81000100 = 0x810000F8 /\
  decode_rel_target 0xEBFFFFFE R_ARM_CALL 0x81000100
    <> Some (branch24_target_spec 0xEBFFFFFE 0x81000100).
Proof. split; [reflexivity | split; [reflexivity | discriminate]]. Qed.

(** ** Relocation loader *)

Lemma gelf_getrel_range data ndx rel :
  gelf_getrel data ndx = Some rel -> 0 <= r_offset rel < 2 ^ 32.
Proof.
  unfold gelf_getrel.
  destruct ((0 <=? ndx) && ((ndx + 1) * 8 <=? d_size data)); [| discriminate].
  destruct (le32_at (d_buf data) (ndx * 8)) eqn:E0; [| discriminate].
  destruct (le32_at (d_buf data) (ndx * 8 + 4)); [| discriminate].
  intros H. injection H as <-. simpl. eapply le32_at_range; eassumption.
Qed.

(** The loop of [load_rel_table] writes slot [j] in turn [j] and nowhere
    else: after [n] turns from [relndx], each slot in between holds what
    [load_rel] made of REL entry [j], and the others are as they were. *)
Lemma load_rels_lookup ve text data n :
  forall relndx relas relas',
    0 <= relndx ->
    load_rels n relndx ve text data relas = Ok relas' ->
    length relas' = length relas /\
    forall j : nat,
      if (Z.to_nat relndx <=? j)%nat && (j <? Z.to_nat relndx + n)%nat then
        exists rel currela rela,
          gelf_getrel data (Z.of_nat j) = Some rel /\
          relas !! j = Some currela /\
          load_rel ve text rel currela = Ok rela /\
          relas' !! j = Some rela
      else relas' !! j = relas !! j.
Proof.
  induction n as [| n IH]; intros relndx relas relas' Hpos H; simpl in H.
  - injection H as <-. split; [reflexivity |]. intros j.
    replace (Z.to_nat relndx + 0)%nat with (Z.to_nat relndx) by lia.
    destruct (Z.to_nat relndx <=? j)%nat eqn:E1;
      destruct (j <? Z.to_nat relndx)%nat eqn:E2; simpl; try reflexivity.
    apply Nat.leb_le in E1. apply Nat.ltb_lt in E2. lia.
  - destruct (gelf_getrel data relndx) as [rel |] eqn:Hrel; [| discriminate].
    inv_bind H as currela Hcur. inv_ok Hcur. inv_bind H as rela Hrela.
    apply IH in H; [| lia]. destruct H as [Hlen H].
    rewrite length_insert in Hlen. split; [exact Hlen |].
    intros j. specialize (H j).
    replace (Z.to_nat (relndx + 1)) with (S (Z.to_nat relndx)) in H by lia.
    destruct (Nat.eq_dec j (Z.to_nat relndx)) as [-> | Hne].
    + replace ((Z.to_nat relndx <=? Z.to_nat relndx)%nat
               && (Z.to_nat relndx <? Z.to_nat relndx + S n)%nat) with true
        by (symmetry; apply andb_true_intro; split;
            [apply Nat.leb_le | apply Nat.ltb_lt]; lia).
      replace (S (Z.to_nat relndx) <=? Z.to_nat relndx)%nat with false in H
        by (symmetry; apply Nat.leb_gt; lia).
      simpl in H. exists rel, currela, rela.
      rewrite Z2Nat.id by lia. repeat split; try assumption.
      rewrite H. apply list_lookup_insert_eq. eapply lookup_lt_Some; eassumption.
    + destruct (S (Z.to_nat relndx) <=? j)%nat eqn:E1;
        destruct (j <? S (Z.to_nat relndx) + n)%nat eqn:E2; simpl in H.
      * apply Nat.leb_le in E1. apply Nat.ltb_lt in E2.
        replace ((Z.to_nat relndx <=? j)%nat && (j <? Z.to_nat relndx + S n)%nat)
          with true
          by (symmetry; apply andb_true_intro; split;
              [apply Nat.leb_le | apply Nat.ltb_lt]; lia).
        destruct H as (rel' & cur' & rela' & H1 & H2 & H3 & H4).
        exists rel', cur', rela'. repeat split; try assumption.
        rewrite list_lookup_insert_ne in H2 by lia. exact H2.
      * apply Nat.leb_le in E1. apply Nat.ltb_ge in E2.
        replace (j <? Z.to_nat relndx + S n)%nat with false
          by (symmetry; apply Nat.ltb_ge; lia).
        rewrite andb_false_r. rewrite H. apply list_lookup_insert_ne. lia.
      * apply Nat.leb_gt in E1.
        replace (Z.to_nat relndx <=? j)%nat with false
          by (symmetry; apply Nat.leb_gt; lia).
        simpl. rewrite H. apply list_lookup_insert_ne. lia.
      * apply Nat.leb_gt in E1.
        replace (Z.to_nat relndx <=? j)%nat with false
          by (symmetry; apply Nat.leb_gt; lia).
        simpl. rewrite H. apply list_lookup_insert_ne. lia.
Qed.

(** A successful [load_symbols] leaves a symbol table in place or the
    context as it was. *)
Lemma load_symbols_keeps e ve scn ve' :
  load_symbols e ve scn = Ok ve' ->
  fstubs_ndx ve' = fstubs_ndx ve /\ vstubs_ndx ve' = vstubs_ndx ve /\
  rela_tables ve' = rela_tables ve /\
  fstubs ve' = fstubs ve /\ vstubs ve' = vstubs ve.
Proof.
  unfold load_symbols.
  destruct (elf_ndxscn scn =? symtab_ndx ve).
  - intros H. injection H as <-. repeat split.
  - destruct (symtab ve); [discriminate |].
    intros H. inv_bind H as s Hs. destruct (sh_entsize (snd s) =? 0); [discriminate |].
    inv_bind H as n Hn. inv_bind H as tab Htab. injection H as <-. repeat split.
Qed.

(** What a successful [load_rel_table] has done. *)
Lemma load_rel_table_Ok e ve shdr ve' :
  load_rel_table e ve shdr = Ok ve' ->
  exists ve1 data relas',
    load_symbols e ve (elf_getscn e (sh_link shdr)) = Ok ve1 /\
    sh_entsize shdr <> 0 /\
    0 <= sh_size shdr / sh_entsize shdr < 2 ^ 31 /\
    head (scn_data shdr) = Some data /\
    load_rels (Z.to_nat (d_size data / sh_entsize shdr)) 0 ve1
      (text_of e (sh_info shdr)) data
      (replicate (Z.to_nat (sh_size shdr / sh_entsize shdr)) zero_rela) = Ok relas' /\
    ve' = add_rela_table ve1
            {| relas := relas'; num_relas := sh_size shdr / sh_entsize shdr;
               target_ndx := sh_info shdr |}.
Proof.
  unfold load_rel_table. intros H. inv_bind H as ve1 Hve1.
  destruct (sh_entsize shdr =? 0) eqn:E; [discriminate |]. apply Z.eqb_neq in E.
  inv_bind H as n Hn. apply to_int_Ok in Hn. destruct Hn as [-> Hn].
  inv_bind H as data Hdata. inv_ok Hdata. inv_bind H as relas' Hrelas.
  injection H as <-.
  exists ve1, data, relas'. repeat split; try assumption; lia.
Qed.

(** The slot of a loaded table at [j], when REL entry [j] exists. *)
Lemma load_rel_table_slot e ve shdr ve' rtable :
  load_rel_table e ve shdr = Ok ve' ->
  head (rela_tables ve') = Some rtable ->
  exists ve1 data,
    load_symbols e ve (elf_getscn e (sh_link shdr)) = Ok ve1 /\
    head (scn_data shdr) = Some data /\
    symtab ve' = symtab ve1 /\
    target_ndx rtable = sh_info shdr /\
    num_relas rtable = sh_size shdr / sh_entsize shdr /\
    length (relas rtable) = Z.to_nat (num_relas rtable) /\
    forall j : nat,
      if (j <? Z.to_nat (d_size data / sh_entsize shdr))%nat then
        exists rel rela,
          gelf_getrel data (Z.of_nat j) = Some rel /\
          load_rel ve1 (text_of e (sh_info shdr)) rel zero_rela = Ok rela /\
          relas rtable !! j = Some rela
      else relas rtable !! j = replicate (Z.to_nat (num_relas rtable)) zero_rela !! j.
Proof.
  intros H Hhd. apply load_rel_table_Ok in H.
  destruct H as (ve1 & data & relas' & Hsym & Hent & Hn & Hdata & Hrels & ->).
  simpl in Hhd. injection Hhd as <-. simpl.
  exists ve1, data. apply load_rels_lookup in Hrels; [| lia].
  destruct Hrels as [Hlen Hrels]. rewrite length_replicate in Hlen.
  repeat split; try assumption; try reflexivity.
  intros j. specialize (Hrels j). simpl in Hrels.
  destruct (j <? Z.to_nat (d_size data / sh_entsize shdr))%nat eqn:E; [| exact Hrels].
  destruct Hrels as (rel & cur & rela & H1 & H2 & H3 & H4).
  exists rel, rela. repeat split; try assumption.
  apply lookup_replicate in H2. destruct H2 as [-> _]. exact H3.
Qed.

(** The type a REL entry is loaded with: [R_ARM_THM_JUMP24] becomes
    [R_ARM_THM_CALL]. *)
Lemma load_rel_type ve text rel currela rela :
  load_rel ve text rel currela = Ok rela ->
  rela_type rela =
    (if GELF_R_TYPE (r_info rel) =? R_ARM_THM_JUMP24 then R_ARM_THM_CALL
     else GELF_R_TYPE (r_info rel)).
Proof.
  unfold load_rel.
  set (type := if GELF_R_TYPE (r_info rel) =? R_ARM_THM_JUMP24 then R_ARM_THM_CALL
               else GELF_R_TYPE (r_info rel)).
  destruct (type =? R_ARM_THM_PC11); [intros H; injection H as <-; reflexivity |].
  intros H. inv_bind H as insn Hinsn.
  destruct (get_rel_handling type); [| injection H as <-; reflexivity | discriminate].
  destruct (GELF_R_SYM (r_info rel) >=? num_symbols ve); [discriminate |].
  inv_bind H as tab Htab. inv_bind H as symbol Hsymbol.
  destruct (decode_rel_target insn type (u32 (r_offset rel))); [| discriminate].
  injection H as <-. reflexivity.
Qed.

(** A slot that [load_rel] leaves with a symbol went through the whole
    decode. *)
Lemma load_rel_symbol ve text rel currela rela k :
  load_rel ve text rel currela = Ok rela ->
  rela_symbol currela = None ->
  rela_symbol rela = Some k ->
  exists text_addr text_data insn tab symbol target,
    text = Some (text_addr, text_data) /\
    le32_at (d_buf text_data) (r_offset rel - text_addr) = Some insn /\
    symtab ve = Some tab /\
    tab !! k = Some symbol /\
    rela_offset rela = u32 (r_offset rel) /\
    decode_rel_target insn (rela_type rela) (rela_offset rela) = Some target /\
    rela_addend rela =
      (if is_case (rela_type rela) [R_ARM_MOVT_ABS; R_ARM_THM_MOVT_ABS] then
         s32 (target - Z.land (symbol_value symbol) 0xFFFF0000)
       else if is_case (rela_type rela) [R_ARM_MOVW_ABS_NC; R_ARM_THM_MOVW_ABS_NC] then
         s32 (target - Z.land (symbol_value symbol) 0xFFFF)
       else if is_case (rela_type rela) [R_ARM_THM_CALL] then
         s32 (target - Z.land (symbol_value symbol) 0xFFFFFFFE)
       else s32 (target - symbol_value symbol)).
Proof.
  unfold load_rel.
  set (type := if GELF_R_TYPE (r_info rel) =? R_ARM_THM_JUMP24 then R_ARM_THM_CALL
               else GELF_R_TYPE (r_info rel)).
  intros H Hcur Hk.
  destruct (type =? R_ARM_THM_PC11).
  { injection H as <-. simpl in Hk. congruence. }
  inv_bind H as insn Hinsn. inv_ok Hinsn.
  destruct (get_rel_handling type).
  - destruct (GELF_R_SYM (r_info rel) >=? num_symbols ve); [discriminate |].
    inv_bind H as tab Htab. inv_ok Htab. inv_bind H as symbol Hsymbol. inv_ok Hsymbol.
    destruct (decode_rel_target insn type (u32 (r_offset rel))) as [target |] eqn:Hdec;
      [| discriminate].
    injection H as <-. cbn [rela_symbol] in Hk. injection Hk as <-.
    cbn [rela_type rela_symbol rela_offset rela_addend].
    destruct text as [[text_addr text_data] |]; [| discriminate].
    exists text_addr, text_data, insn, tab, symbol, target.
    repeat split; assumption || reflexivity.
  - injection H as <-. simpl in Hk. congruence.
  - discriminate.
Qed.

(** C3.  Every entry of a loaded table that carries a symbol has
    [addend = target - adjusted symbol value] in 32-bit two's-complement
    arithmetic ([s32]), where [target] is what [decode_rel_target] makes of
    the word at the entry's offset and the symbol value is masked with
    [0xFFFF0000] for R_ARM_MOVT_ABS and R_ARM_THM_MOVT_ABS, with
    [0x0000FFFF] for R_ARM_MOVW_ABS_NC and R_ARM_THM_MOVW_ABS_NC, with
    [0xFFFFFFFE] for R_ARM_THM_CALL and not at all otherwise.  In
    particular a MOVW entry and a MOVT entry on a symbol of value
    [0xDEADBEEF] whose decoded targets are [0xBEEF] and [0xDEAD0000] both
    have addend 0. *)
Theorem loaded_rela_addend e ve shdr ve' rtable (i : nat) rela k :
  load_rel_table e ve shdr = Ok ve' ->
  head (rela_tables ve') = Some rtable ->
  relas rtable !! i = Some rela ->
  rela_symbol rela = Some k ->
  exists tab symbol text_addr text_data insn target,
    symtab ve' = Some tab /\
    tab !! k = Some symbol /\
    text_of e (target_ndx rtable) = Some (text_addr, text_data) /\
    le32_at (d_buf text_data) (rela_offset rela - text_addr) = Some insn /\
    decode_rel_target insn (rela_type rela) (rela_offset rela) = Some target /\
    (rela_type rela = R_ARM_MOVT_ABS \/ rela_type rela = R_ARM_THM_MOVT_ABS ->
       rela_addend rela = s32 (target - Z.land (symbol_value symbol) 0xFFFF0000)) /\
    (rela_type rela = R_ARM_MOVW_ABS_NC \/ rela_type rela = R_ARM_THM_MOVW_ABS_NC ->
       rela_addend rela = s32 (target - Z.land (symbol_value symbol) 0x0000FFFF)) /\
    (rela_type rela = R_ARM_THM_CALL ->
       rela_addend rela = s32 (target - Z.land (symbol_value symbol) 0xFFFFFFFE)) /\
    (rela_type rela <> R_ARM_MOVT_ABS -> rela_type rela <> R_ARM_THM_MOVT_ABS ->
     rela_type rela <> R_ARM_MOVW_ABS_NC -> rela_type rela <> R_ARM_THM_MOVW_ABS_NC ->
     rela_type rela <> R_ARM_THM_CALL ->
       rela_addend rela = s32 (target - symbol_value symbol)) /\
    (symbol_value symbol = 0xDEADBEEF ->
       (rela_type rela = R_ARM_MOVW_ABS_NC \/ rela_type rela = R_ARM_THM_MOVW_ABS_NC ->
        target = 0xBEEF -> rela_addend rela = 0) /\
       (rela_type rela = R_ARM_MOVT_ABS \/ rela_type rela = R_ARM_THM_MOVT_ABS ->
        target = 0xDEAD0000 -> rela_addend rela = 0)).
Proof.
  intros Hload Hhd Hi Hk.
  destruct (load_rel_table_slot _ _ _ _ _ Hload Hhd)
    as (ve1 & data & Hsym & Hdata & Htab & Htgt & Hnum & Hlen & Hslots).
  specialize (Hslots i).
  destruct (i <? Z.to_nat (d_size data / sh_entsize shdr))%nat.
  2:{ rewrite Hi in Hslots. symmetry in Hslots.
      apply lookup_replicate in Hslots. destruct Hslots as [-> _]. discriminate. }
  destruct Hslots as (rel & rela' & Hrel & Hld & Hi').
  assert (rela' = rela) as -> by congruence.
  destruct (load_rel_symbol _ _ _ _ _ _ Hld eq_refl Hk)
    as (text_addr & text_data & insn & tab & symbol & target
        & Htext & Hinsn & Htab1 & Hsymbol & Hoff & Hdec & Hadd).
  assert (rela_offset rela = r_offset rel) as Hoff'.
  { rewrite Hoff. apply u32_small. eapply gelf_getrel_range; eassumption. }
  exists tab, symbol, text_addr, text_data, insn, target.
  assert (Hmovt : rela_type rela = R_ARM_MOVT_ABS \/ rela_type rela = R_ARM_THM_MOVT_ABS ->
            rela_addend rela = s32 (target - Z.land (symbol_value symbol) 0xFFFF0000)).
  { intros [E | E]; rewrite Hadd, E; reflexivity. }
  assert (Hmovw : rela_type rela = R_ARM_MOVW_ABS_NC \/ rela_type rela = R_ARM_THM_MOVW_ABS_NC ->
            rela_addend rela = s32 (target - Z.land (symbol_value symbol) 0x0000FFFF)).
  { intros [E | E]; rewrite Hadd, E; reflexivity. }
  split; [congruence |]. split; [assumption |].
  split; [rewrite Htgt; assumption |].
  split; [rewrite Hoff'; assumption |].
  split; [assumption |].
  split; [exact Hmovt |]. split; [exact Hmovw |].
  split; [intros E; rewrite Hadd, E; reflexivity |].
  split.
  - intros N1 N2 N3 N4 N5. rewrite Hadd. unfold is_case, existsb.
    apply Z.eqb_neq in N1, N2, N3, N4, N5. rewrite N1, N2, N3, N4, N5. reflexivity.
  - intros Hval. split; intros Hty ->.
    + rewrite (Hmovw Hty), Hval. reflexivity.
    + rewrite (Hmovt Hty), Hval. reflexivity.
Qed.

Lemma loaded_rela_addend_witness :
  exists ve' rtable movw movt,
    load_rel_table RelInputs.S2 zero_elf (RelInputs.rel_section RelInputs.S2) = Ok ve' /\
    head (rela_tables ve') = Some rtable /\
    relas rtable !! 0%nat = Some movw /\ rela_symbol movw = Some 1%nat /\
    relas rtable !! 1%nat = Some movt /\ rela_symbol movt = Some 1%nat /\
    rela_addend movw = 0 /\ rela_addend movt = 0.
Proof.
  eexists _, _, _, _.
  split; [vm_compute; reflexivity |].
  split; [vm_compute; reflexivity |].
  split; [vm_compute; reflexivity |].
  split; [reflexivity |].
  split; [vm_compute; reflexivity |].
  split; [reflexivity |].
  split.
  - edestruct (loaded_rela_addend RelInputs.S2 zero_elf
                 (RelInputs.rel_section RelInputs.S2)) with (i := 0%nat) (k := 1%nat)
      as (tab & symbol & text_addr & text_data & insn & target
          & Htab & Hsymbol & Htext & Hinsn & Hdec & _ & _ & _ & _ & Hpair);
      [vm_compute; reflexivity | vm_compute; reflexivity
       | vm_compute; reflexivity | reflexivity |].
    vm_compute in Htab. injection Htab as <-.
    vm_compute in Hsymbol. injection Hsymbol as <-.
    vm_compute in Htext. injection Htext as <- <-.
    vm_compute in Hinsn. injection Hinsn as <-.
    vm_compute in Hdec. injection Hdec as <-.
    apply (proj1 (Hpair eq_refl)); [left; reflexivity | reflexivity].
  - edestruct (loaded_rela_addend RelInputs.S2 zero_elf
                 (RelInputs.rel_section RelInputs.S2)) with (i := 1%nat) (k := 1%nat)
      as (tab & symbol & text_addr & text_data & insn & target
          & Htab & Hsymbol & Htext & Hinsn & Hdec & _ & _ & _ & _ & Hpair);
      [vm_compute; reflexivity | vm_compute; reflexivity
       | vm_compute; reflexivity | reflexivity |].
    vm_compute in Htab. injection Htab as <-.
    vm_compute in Hsymbol. injection Hsymbol as <-.
    vm_compute in Htext. injection Htext as <- <-.
    vm_compute in Hinsn. injection Hinsn as <-.
    vm_compute in Hdec. injection Hdec as <-.
    apply (proj2 (Hpair eq_refl)); [left; reflexivity | reflexivity].
Defined.

(** C8, as the code has it.  A REL entry of type R_ARM_THM_PC11 is not
    decoded, but it keeps its slot in the table: the slot is counted in
    [num_relas] and records the type, its offset, symbol and addend stay
    zero, and [print_rtable] lists nothing for it. *)
Theorem thm_pc11_slot_blank e ve shdr ve' rtable data (i : nat) rel :
  load_rel_table e ve shdr = Ok ve' ->
  head (rela_tables ve') = Some rtable ->
  head (scn_data shdr) = Some data ->
  (i < Z.to_nat (d_size data / sh_entsize shdr))%nat ->
  gelf_getrel data (Z.of_nat i) = Some rel ->
  GELF_R_TYPE (r_info rel) = R_ARM_THM_PC11 ->
  relas rtable !! i =
    Some {| rela_type := R_ARM_THM_PC11; rela_symbol := None;
            rela_offset := 0; rela_addend := 0 |} /\
  Z.of_nat i < num_relas rtable /\
  print_rtable rtable !! i = Some None.
Proof.
  intros Hload Hhd Hdata Hi Hrel Htype.
  destruct (load_rel_table_slot _ _ _ _ _ Hload Hhd)
    as (ve1 & data' & Hsym & Hdata' & Htab & Htgt & Hnum & Hlen & Hslots).
  assert (data' = data) as -> by congruence.
  specialize (Hslots i).
  apply Nat.ltb_lt in Hi. rewrite Hi in Hslots.
  destruct Hslots as (rel' & rela & Hrel' & Hld & Hslot).
  assert (rel' = rel) as -> by congruence.
  unfold load_rel in Hld. rewrite Htype in Hld. simpl in Hld. injection Hld as <-.
  assert (Hlt : (i < Z.to_nat (num_relas rtable))%nat).
  { rewrite <- Hlen. eapply lookup_lt_Some; eassumption. }
  split; [exact Hslot |]. split; [lia |].
  unfold print_rtable. rewrite take_ge by lia.
  rewrite list_lookup_fmap, Hslot. reflexivity.
Qed.

Lemma thm_pc11_slot_blank_witness :
  exists ve' rtable,
    load_rel_table RelInputs.with_pc11 zero_elf
      (RelInputs.rel_section RelInputs.with_pc11) = Ok ve' /\
    head (rela_tables ve') = Some rtable /\
    relas rtable !! 0%nat =
      Some {| rela_type := R_ARM_THM_PC11; rela_symbol := None;
              rela_offset := 0; rela_addend := 0 |} /\
    0 < num_relas rtable /\
    print_rtable rtable !! 0%nat = Some None.
Proof.
  edestruct (thm_pc11_slot_blank RelInputs.with_pc11 zero_elf
               (RelInputs.rel_section RelInputs.with_pc11)) with (i := 0%nat)
    as (H1 & H2 & H3);
    [vm_compute; reflexivity | vm_compute; reflexivity | vm_compute; reflexivity
     | vm_compute; lia | vm_compute; reflexivity | reflexivity |].
  eexists _, _.
  split; [vm_compute; reflexivity |].
  split; [vm_compute; reflexivity |].
  split; [exact H1 |]. split; [exact H2 | exact H3].
Defined.

(** C8, as stated, fails: the table loaded from a REL section that holds an
    R_ARM_THM_PC11 entry and a BL has two entries, and the first is of type
    R_ARM_THM_PC11. *)
Lemma thm_pc11_entry_in_table :
  exists ve rtable rela,
    vita_elf_load (Some RelInputs.with_pc11) Scenarios.mmap = Ok ve /\
    rtable ∈ rela_tables ve /\
    num_relas rtable = 2 /\
    rela ∈ relas rtable /\
    rela_type rela = R_ARM_THM_PC11.
Proof.
  eexists _, _, _.
  split; [vm_compute; reflexivity |].
  split; [apply list_elem_of_here |].
  split; [reflexivity |].
  split; [apply list_elem_of_here |].
  reflexivity.
Qed.

(** C2, as the code has it.  A REL entry of type R_ARM_THM_CALL at offset
    [0x81000], where the section holds the bytes FF F7 FE FF, on a symbol
    of value [0x81001], is loaded with addend -4: the decoded target
    [0x80FFC] minus the symbol value with the Thumb bit cleared,
    [0x81000]. *)
Theorem thumb_bl_addend ve text_addr text_data rel currela tab symbol :
  GELF_R_TYPE (r_info rel) = R_ARM_THM_CALL ->
  r_offset rel = 0x81000 ->
  byte_at (d_buf text_data) (0x81000 - text_addr) = Some 0xFF ->
  byte_at (d_buf text_data) (0x81000 - text_addr + 1) = Some 0xF7 ->
  byte_at (d_buf text_data) (0x81000 - text_addr + 2) = Some 0xFE ->
  byte_at (d_buf text_data) (0x81000 - text_addr + 3) = Some 0xFF ->
  0 <= GELF_R_SYM (r_info rel) < num_symbols ve ->
  symtab ve = Some tab ->
  tab !! Z.to_nat (GELF_R_SYM (r_info rel)) = Some symbol ->
  symbol_value symbol = 0x81001 ->
  decode_rel_target 0xFFFEF7FF R_ARM_THM_CALL 0x81000 = Some 0x80FFC /\
  Z.land (symbol_value symbol) 0xFFFFFFFE = 0x81000 /\
  load_rel ve (Some (text_addr, text_data)) rel currela =
    Ok {| rela_type := R_ARM_THM_CALL;
          rela_symbol := Some (Z.to_nat (GELF_R_SYM (r_info rel)));
          rela_offset := 0x81000;
          rela_addend := -4 |}.
Proof.
  intros Htype Hoff B0 B1 B2 B3 Hsym Htab Hsymbol Hval.
  split; [reflexivity |]. split; [rewrite Hval; reflexivity |].
  unfold load_rel. rewrite Htype, Hoff.
  unfold le32_at. rewrite B0, B1, B2, B3.
  replace (GELF_R_SYM (r_info rel) >=? num_symbols ve) with false
    by (symmetry; rewrite Z.geb_leb; apply Z.leb_gt; lia).
  rewrite Htab. cbn [defined rbind]. rewrite Hsymbol. cbn [defined rbind].
  rewrite Hval.
  generalize (Z.to_nat (GELF_R_SYM (r_info rel))). intros k.
  vm_compute. reflexivity.
Qed.

Lemma thumb_bl_addend_witness :
  load_rel
    {| fstubs_ndx := 0; vstubs_ndx := 0; symtab_ndx := 3;
       symtab := Some [zero_symbol;
                       {| symbol_name := Some "S"%string; symbol_value := 0x81001;
                          symbol_type := STT_FUNC; symbol_binding := 0;
                          symbol_shndx := 1 |}];
       num_symbols := 2; rela_tables := []; fstubs := []; vstubs := [];
       num_fstubs := 0; num_vstubs := 0; segments := []; num_segments := 0 |}
    (Some (0x81000, {| d_buf := [0xFF; 0xF7; 0xFE; 0xFF]; d_off := 0; d_size := 4 |}))
    {| r_offset := 0x81000; r_info := Z.shiftl 1 32 + R_ARM_THM_CALL |}
    zero_rela =
  Ok {| rela_type := R_ARM_THM_CALL; rela_symbol := Some 1%nat;
        rela_offset := 0x81000; rela_addend := -4 |}.
Proof.
  refine (proj2 (proj2 (thumb_bl_addend _ 0x81000 _ _ zero_rela _ _
                          _ _ _ _ _ _ _ _ _ _)));
    try reflexivity.
  vm_compute. split; discriminate || reflexivity.
Defined.

(** C2, as stated, fails: loading the file of scenario S1 gives the entry
    the addend -4, not -6. *)
Lemma thumb_bl_addend_not_minus_6 :
  exists ve rtable rela,
    vita_elf_load (Some Scenarios.S1) Scenarios.mmap = Ok ve /\
    head (rela_tables ve) = Some rtable /\
    relas rtable !! 0%nat = Some rela /\
    rela_type rela = R_ARM_THM_CALL /\
    rela_offset rela = 0x81000 /\
    rela_addend rela = -4 /\
    rela_addend rela <> -6.
Proof.
  eexists _, _, _.
  split; [vm_compute; reflexivity |].
  split; [reflexivity |]. split; [reflexivity |].
  split; [reflexivity |]. split; [reflexivity |].
  split; [reflexivity | discriminate].
Qed.

(** ** Address-space mapper *)

(** C9, as the code has it.  For a segment index [segndx] of the context
    and any guest address, contained in the segment or not,
    [vita_elf_vaddr_to_segoffset] returns the 32-bit difference
    [vaddr - segments[segndx].vaddr] when [vaddr] is not 0, and 0 when
    [vaddr] is 0. *)
Theorem vaddr_to_segoffset_raw ve vaddr (segndx : nat) seg :
  segments ve !! segndx = Some seg ->
  (vaddr <> 0 ->
     vita_elf_vaddr_to_segoffset ve vaddr segndx = Some (u32 (vaddr - seg_vaddr seg))) /\
  (vaddr = 0 -> vita_elf_vaddr_to_segoffset ve vaddr segndx = Some 0).
Proof.
  intros Hseg. unfold vita_elf_vaddr_to_segoffset. split.
  - intros Hne. apply Z.eqb_neq in Hne. rewrite Hne, Hseg. reflexivity.
  - intros ->. reflexivity.
Qed.

Lemma vaddr_to_segoffset_raw_witness :
  vita_elf_vaddr_to_segoffset (Inputs.with_segments [Inputs.code_segment]) 0x80000 0
    = Some 0xFFFFF000 /\
  seg_contains_vaddr Inputs.code_segment 0x80000 = false.
Proof.
  split; [| reflexivity].
  apply (vaddr_to_segoffset_raw (Inputs.with_segments [Inputs.code_segment])
           0x80000 0 Inputs.code_segment); [reflexivity | discriminate].
Defined.

(** C9, as stated, fails at the guest address 0: for a segment at
    [0x81000] the function returns 0, and the raw subtraction
    [0 - 0x81000] is [0xFFF7F000]. *)
Lemma vaddr_to_segoffset_of_null :
  segments (Inputs.with_segments [Inputs.code_segment]) !! 0%nat = Some Inputs.code_segment /\
  vita_elf_vaddr_to_segoffset (Inputs.with_segments [Inputs.code_segment]) 0 0 = Some 0 /\
  u32 (0 - seg_vaddr Inputs.code_segment) = 0xFFF7F000 /\
  vita_elf_vaddr_to_segoffset (Inputs.with_segments [Inputs.code_segment]) 0 0
    <> Some (u32 (0 - seg_vaddr Inputs.code_segment)).
Proof.
  split; [reflexivity |]. split; [reflexivity |]. split; [reflexivity |]. discriminate.
Qed.

(** When [seg_contains_vaddr] holds the address lies in the segment, and
    the sum [vaddr + memsz] did not wrap. *)
Lemma seg_contains_vaddr_true seg vaddr :
  segment_ok seg ->
  seg_contains_vaddr seg vaddr = true ->
  seg_vaddr seg <= vaddr < seg_vaddr seg + seg_memsz seg /\
  seg_vaddr seg + seg_memsz seg < 2 ^ 32.
Proof.
  intros (Hv & Hm & _) H. unfold seg_contains_vaddr in H.
  apply andb_true_iff in H. destruct H as [H1 H2].
  apply Z.geb_le in H1. apply Z.ltb_lt in H2. unfold u32 in H2.
  destruct (Z_lt_ge_dec (seg_vaddr seg + seg_memsz seg) (2 ^ 32)) as [Hlt | Hge].
  - rewrite Z.mod_small in H2 by lia. lia.
  - replace (seg_vaddr seg + seg_memsz seg)
      with (seg_vaddr seg + seg_memsz seg - 2 ^ 32 + 1 * 2 ^ 32) in H2 by lia.
    rewrite Z.mod_add, Z.mod_small in H2 by lia. lia.
Qed.

Lemma seg_contains_vaddr_no_wrap seg vaddr :
  segment_ok seg ->
  seg_vaddr seg <= vaddr < seg_vaddr seg + seg_memsz seg ->
  seg_vaddr seg + seg_memsz seg < 2 ^ 32 ->
  seg_contains_vaddr seg vaddr = true.
Proof.
  intros (Hv & Hm & _) Hin Hno. unfold seg_contains_vaddr.
  rewrite u32_small by lia.
  apply andb_true_intro. split; [apply Z.geb_le | apply Z.ltb_lt]; lia.
Qed.

(** [vita_elf_vaddr_to_host] answers from the first segment that contains
    the address. *)
Lemma vaddr_to_host_from_first segs vaddr :
  (exists (i : nat) seg, segs !! i = Some seg /\ seg_contains_vaddr seg vaddr = true) ->
  exists (j : nat) seg,
    segs !! j = Some seg /\ seg_contains_vaddr seg vaddr = true /\
    vaddr_to_host_from segs vaddr = vaddr_top seg + vaddr - seg_vaddr seg.
Proof.
  induction segs as [| s segs IH]; intros (i & seg & Hi & Hc).
  - rewrite lookup_nil in Hi. discriminate.
  - simpl. destruct (seg_contains_vaddr s vaddr) eqn:E.
    + exists 0%nat, s. split; [reflexivity |]. split; [exact E | reflexivity].
    + destruct i as [| i]; simpl in Hi; [congruence |].
      destruct IH as (j & seg' & Hj & Hc' & Heq); [eauto |].
      exists (S j), seg'. repeat split; assumption.
Qed.

(** [vita_elf_host_to_vaddr] answers from the one segment whose host buffer
    holds the pointer. *)
Lemma host_to_vaddr_from_only segs host_addr :
  forall (j : nat) seg,
    segs !! j = Some seg ->
    seg_contains_host seg host_addr = true ->
    (forall (k : nat) sk, k <> j -> segs !! k = Some sk ->
                          seg_contains_host sk host_addr = false) ->
    host_to_vaddr_from segs host_addr = u32 (seg_vaddr seg + u32 (host_addr - vaddr_top seg)).
Proof.
  induction segs as [| s segs IH]; intros j seg Hj Hc Hothers.
  - rewrite lookup_nil in Hj. discriminate.
  - simpl. destruct j as [| j]; simpl in Hj.
    + injection Hj as ->. rewrite Hc. reflexivity.
    + rewrite (Hothers 0%nat s) by (discriminate || reflexivity).
      apply (IH j); [assumption | assumption |].
      intros k sk Hne Hk. apply (Hothers (S k)); [lia | exact Hk].
Qed.

(** The round trip through the host address, for every segment whose guest
    range ends below [2 ^ 32]. *)
Lemma host_to_vaddr_to_host ve (i : nat) seg vaddr :
  segments_ok (segments ve) ->
  segments ve !! i = Some seg ->
  seg_vaddr seg <= vaddr < seg_vaddr seg + seg_memsz seg ->
  seg_vaddr seg + seg_memsz seg < 2 ^ 32 ->
  vita_elf_host_to_vaddr ve (vita_elf_vaddr_to_host ve vaddr) = vaddr.
Proof.
  intros [Hok Hdis] Hi Hin Hno.
  unfold vita_elf_host_to_vaddr, vita_elf_vaddr_to_host.
  destruct (vaddr_to_host_from_first (segments ve) vaddr) as (j & sj & Hj & Hc & ->).
  { exists i, seg. split; [exact Hi |].
    apply seg_contains_vaddr_no_wrap; eauto. }
  destruct (seg_contains_vaddr_true _ _ (Hok _ _ Hj) Hc) as [Hinj Hnoj].
  destruct (Hok _ _ Hj) as (Hv & Hm & Hhost & _).
  destruct Hhost as [Htop Hbot]; [lia |].
  replace (vaddr_top sj + vaddr - seg_vaddr sj =? 0) with false
    by (symmetry; apply Z.eqb_neq; lia).
  rewrite (host_to_vaddr_from_only _ _ j sj Hj).
  - replace (vaddr_top sj + vaddr - seg_vaddr sj - vaddr_top sj)
      with (vaddr - seg_vaddr sj) by lia.
    rewrite (u32_small (vaddr - seg_vaddr sj)) by lia.
    replace (seg_vaddr sj + (vaddr - seg_vaddr sj)) with vaddr by lia.
    apply u32_small. lia.
  - unfold seg_contains_host.
    apply andb_true_intro. split; [apply Z.geb_le | apply Z.ltb_lt]; lia.
  - intros k sk Hne Hk. unfold seg_contains_host.
    destruct (Hok _ _ Hk) as (_ & Hmk & Hhk & Hzk).
    destruct (Z.eq_dec (seg_memsz sk) 0) as [Hz | Hnz].
    + destruct (Hzk Hz) as [-> ->].
      apply andb_false_intro2. apply Z.ltb_ge. lia.
    + destruct (Hdis k j sk sj Hne Hk Hj) as [Hd | Hd].
      * apply andb_false_intro2. apply Z.ltb_ge. lia.
      * apply andb_false_intro1. rewrite Z.geb_leb. apply Z.leb_gt. lia.
Qed.

(** C4.  The file [Inputs.top_segment] loads; its one segment is
    [[0xFFFFF000, 0xFFFFF000 + 0x1000)].  For the guest address
    [0xFFFFF000] of that segment [vita_elf_vaddr_to_host] returns [NULL],
    because [seg->vaddr + seg->memsz] wraps to 0, and the round trip gives
    0 instead of the address. *)
Theorem host_round_trip_fails_at_top :
  exists ve seg,
    vita_elf_load (Some Inputs.top_segment) Scenarios.mmap = Ok ve /\
    segments ve = [seg] /\
    segments_ok (segments ve) /\
    seg_vaddr seg <= 0xFFFFF000 < seg_vaddr seg + seg_memsz seg /\
    vita_elf_vaddr_to_host ve 0xFFFFF000 = 0 /\
    vita_elf_host_to_vaddr ve (vita_elf_vaddr_to_host ve 0xFFFFF000) = 0 /\
    vita_elf_host_to_vaddr ve (vita_elf_vaddr_to_host ve 0xFFFFF000) <> 0xFFFFF000.
Proof.
  eexists _, _.
  split; [vm_compute; reflexivity |].
  split; [reflexivity |].
  split.
  { split.
    - intros [| i] seg H; simpl in H; [| rewrite lookup_nil in H; discriminate].
      injection H as <-. unfold segment_ok. simpl. lia.
    - intros [| i] [| j] si sj Hne Hi Hj; simpl in Hi, Hj;
        try congruence; rewrite lookup_nil in *; discriminate. }
  split; [simpl; lia |].
  split; [reflexivity |]. split; [reflexivity | discriminate].
Qed.

(** ** Import resolver *)

Section ResolverFacts.
Variable find_lib find_module : Z -> Z -> Z.

(** A stub is warned about exactly when it does not resolve. *)
Lemma lookup_stub_warns tab imports find_stub name stub :
  snd (lookup_stub find_lib find_module tab imports find_stub name stub) = None <->
  stub_resolves find_lib find_module imports find_stub stub = true.
Proof.
  unfold lookup_stub, stub_resolves.
  destruct (find_library find_lib imports (library_nid stub) (stub_library stub) =? 0);
    simpl; [split; discriminate |].
  destruct (find_module _ (module_nid stub) =? 0); simpl; [split; discriminate |].
  destruct (find_stub _ (target_nid stub) =? 0); simpl; split; discriminate || reflexivity.
Qed.

(** The three warnings, by the step that fails.  The warning of the
    target step carries [stub->module_nid]. *)
Lemma lookup_stub_warning tab imports find_stub name stub :
  let library := find_library find_lib imports (library_nid stub) (stub_library stub) in
  let module := find_module library (module_nid stub) in
  let target := find_stub module (target_nid stub) in
  (library = 0 ->
     snd (lookup_stub find_lib find_module tab imports find_stub name stub)
     = Some (W_library (library_nid stub) name (stub_symbol_name tab stub))) /\
  (library <> 0 -> module = 0 ->
     snd (lookup_stub find_lib find_module tab imports find_stub name stub)
     = Some (W_module (module_nid stub) name (stub_symbol_name tab stub))) /\
  (library <> 0 -> module <> 0 -> target = 0 ->
     snd (lookup_stub find_lib find_module tab imports find_stub name stub)
     = Some (W_target name (module_nid stub) (stub_symbol_name tab stub))).
Proof.
  intros library module target. unfold lookup_stub.
  fold library. fold module. fold target.
  split; [| split].
  - intros ->. reflexivity.
  - intros H1 ->. apply Z.eqb_neq in H1. rewrite H1. reflexivity.
  - intros H1 H2 ->. apply Z.eqb_neq in H1, H2. rewrite H1, H2. reflexivity.
Qed.

(** [lookup_stubs] goes through all the stubs whatever fails: it returns
    as many stubs as it was given, makes one warning for each stub that
    does not resolve, and [found_all] tells whether all resolved. *)
Lemma lookup_stubs_all tab imports find_stub name stubs :
  let r := lookup_stubs find_lib find_module tab stubs imports find_stub name in
  length (fst (fst r)) = length stubs /\
  length (snd (fst r)) =
    length (filter (fun s => stub_resolves find_lib find_module imports find_stub s = false)
              stubs) /\
  snd r = forallb (stub_resolves find_lib find_module imports find_stub) stubs.
Proof.
  induction stubs as [| stub rest IH]; simpl; [repeat split |].
  destruct IH as (IH1 & IH2 & IH3).
  pose proof (lookup_stub_warns tab imports find_stub name stub) as Hw.
  destruct (snd (lookup_stub find_lib find_module tab imports find_stub name stub))
    as [w |] eqn:E; simpl.
  - destruct (stub_resolves find_lib find_module imports find_stub stub) eqn:R.
    + destruct Hw as [_ Hw]. discriminate (Hw eq_refl).
    + rewrite filter_cons_True by exact R. simpl.
      repeat split; congruence.
  - destruct Hw as [Hw _]. pose proof (Hw eq_refl) as R. rewrite R.
    rewrite filter_cons_False by (rewrite R; discriminate). simpl.
    repeat split; congruence.
Qed.

(** [found_all] is still 1 at the end exactly when no warning was made. *)
Lemma lookup_stubs_silent tab imports find_stub name stubs :
  let r := lookup_stubs find_lib find_module tab stubs imports find_stub name in
  snd r = true <-> snd (fst r) = [].
Proof.
  induction stubs as [| s rest IH]; cbn [lookup_stubs]; [split; reflexivity |].
  destruct (snd (lookup_stub find_lib find_module tab imports find_stub name s));
    cbn [fst snd]; [split; discriminate | exact IH].
Qed.
End ResolverFacts.

(** C5.  A function stub with NIDs (1, 2, 3) is resolved against a database
    that has library 1 and module 2 but no function 3: the target step
    fails, and the warning made names NID 2, the module NID, where the
    NID that is missing is the target NID 3.  The stub has no symbol and
    is named "(unreferenced stub)"; the resolver does not abort. *)
Theorem lookup_stubs_target_warning_names_module_nid :
  target_nid ImportInputs.stub_1_2_3 = 3 /\
  lookup_stubs ImportInputs.find_lib ImportInputs.find_module []
    [ImportInputs.stub_1_2_3] [7] ImportInputs.find_function "function"
  = ([set_stub_imports ImportInputs.stub_1_2_3 100 200 0],
     [W_target "function" 2 (Some "(unreferenced stub)"%string)],
     false).
Proof. split; reflexivity. Qed.

(** ** The driver *)

Section MainFacts.
Variable find_lib find_module find_function find_variable : Z -> Z -> Z.
Variable stage_ok : stage -> bool.

Lemma run_stages_fst stages :
  fst (run_stages stage_ok stages) = forallb stage_ok stages.
Proof.
  induction stages as [| s rest IH]; simpl; [reflexivity |].
  destruct (stage_ok s); simpl; [exact IH | reflexivity].
Qed.

Lemma run_stages_all_ok stages :
  forallb stage_ok stages = true ->
  snd (run_stages stage_ok stages) = map Ev_stage stages.
Proof.
  induction stages as [| s rest IH]; simpl; [reflexivity |].
  destruct (stage_ok s); simpl; [| discriminate].
  intros H. rewrite IH by exact H. reflexivity.
Qed.

Lemma vita_elf_lookup_imports_found_all ve imports :
  let r := vita_elf_lookup_imports find_lib find_module find_function find_variable
             ve imports in
  segments (fst (fst r)) = segments ve /\
  snd r = forallb (stub_resolves find_lib find_module imports find_function) (fstubs ve)
          && forallb (stub_resolves find_lib find_module imports find_variable) (vstubs ve).
Proof.
  unfold vita_elf_lookup_imports. simpl. split; [reflexivity |].
  destruct (lookup_stubs_all find_lib find_module (default [] (symtab ve)) imports
              find_function "function" (fstubs ve)) as (_ & _ & ->).
  destruct (lookup_stubs_all find_lib find_module (default [] (symtab ve)) imports
              find_variable "variable" (vstubs ve)) as (_ & _ & ->).
  reflexivity.
Qed.

Lemma vita_elf_lookup_imports_silent ve imports :
  let r := vita_elf_lookup_imports find_lib find_module find_function find_variable
             ve imports in
  snd r = true <-> snd (fst r) = [].
Proof.
  unfold vita_elf_lookup_imports. cbn [fst snd].
  pose proof (lookup_stubs_silent find_lib find_module (default [] (symtab ve)) imports
                find_function "function" (fstubs ve)) as Hf.
  pose proof (lookup_stubs_silent find_lib find_module (default [] (symtab ve)) imports
                find_variable "variable" (vstubs ve)) as Hv.
  cbv zeta in Hf, Hv. rewrite andb_true_iff, Hf, Hv. split.
  - intros [-> ->]. reflexivity.
  - intros H. apply app_eq_nil in H. exact H.
Qed.

(** The chain of [ASSERT]s stops at the first stage that fails. *)
Lemma run_stages_stops pre s post :
  forallb stage_ok pre = true ->
  stage_ok s = false ->
  run_stages stage_ok (pre ++ s :: post)
  = (false, map Ev_stage pre ++ [Ev_stage s; Ev_assert_failed s]).
Proof.
  intros Hpre Hs. induction pre as [| p pre IH]; cbn [app run_stages map].
  - rewrite Hs. reflexivity.
  - cbn [forallb] in Hpre. apply andb_true_iff in Hpre. destruct Hpre as [Hp Hpre].
    rewrite Hp, (IH Hpre). reflexivity.
Qed.

(** C6.  The calls [main] makes to write the output are, in the order of
    vita-elf-create.c: [elf_utils_copy_to_file],
    [elf_utils_duplicate_shstrtab], [sce_elf_discard_invalid_relocs],
    [sce_elf_write_module_info], [sce_elf_write_rela_sections],
    [sce_elf_rewrite_stubs], [elf_update] and [sce_elf_set_headers], and
    then [fclose] on the output file.

    [main] exits with success exactly when the command line is complete,
    the ELF file loads, the import databases load, every stub resolves and
    each of these eight calls succeeds; a run that exits with success has
    made the eight calls in that order, closed the output file, and made
    no warning.

    When some stub does not resolve the exit status is failure and the
    resolver has made a warning, and the run goes on as it would
    otherwise: when the eight calls succeed they are all made, in that
    order, and the output file is closed; when one of them fails, the
    calls before it were made and none after it.

    [main] returns in all cases but where the behaviour of the loader is
    not defined or the file has no program header. *)
Theorem main_exit_status argc file mmap imports :
  let stages :=
    [St_copy_to_file; St_duplicate_shstrtab; St_discard_invalid_relocs;
     St_write_module_info; St_write_rela_sections; St_rewrite_stubs;
     St_elf_update; St_set_headers] in
  match main find_lib find_module find_function find_variable stage_ok
          argc file mmap imports with
  | None =>
      3 <= argc /\
      (vita_elf_load file mmap = Undef \/
       exists ve, vita_elf_load file mmap = Ok ve /\ segments ve = [])
  | Some (status, events) =>
      (status = EXIT_SUCCESS <->
         3 <= argc /\
         exists ve dbs,
           vita_elf_load file mmap = Ok ve /\
           imports = Some dbs /\
           forallb stage_ok stages = true /\
           (forall stub, In stub (fstubs ve) ->
              stub_resolves find_lib find_module dbs find_function stub = true) /\
           (forall stub, In stub (vstubs ve) ->
              stub_resolves find_lib find_module dbs find_variable stub = true)) /\
      (status = EXIT_SUCCESS ->
         events = map Ev_stage stages ++ [Ev_output_closed]) /\
      (forall ve dbs stub,
         3 <= argc ->
         vita_elf_load file mmap = Ok ve ->
         imports = Some dbs ->
         (In stub (fstubs ve) /\
          stub_resolves find_lib find_module dbs find_function stub = false) \/
         (In stub (vstubs ve) /\
          stub_resolves find_lib find_module dbs find_variable stub = false) ->
         let warnings :=
           snd (fst (vita_elf_lookup_imports find_lib find_module find_function
                       find_variable ve dbs)) in
         status = EXIT_FAILURE /\
         warnings <> [] /\
         (forallb stage_ok stages = true ->
            events = map Ev_warn warnings ++ map Ev_stage stages
                     ++ [Ev_output_closed]) /\
         (forall pre s post,
            stages = pre ++ s :: post ->
            forallb stage_ok pre = true ->
            stage_ok s = false ->
            events = map Ev_warn warnings ++ map Ev_stage pre
                     ++ [Ev_stage s; Ev_assert_failed s]))
  end.
Proof.
  intros stages. unfold main.
  destruct (argc <? 3) eqn:Hargc.
  { apply Z.ltb_lt in Hargc. split; [| split].
    - split; [discriminate | intros [H _]; lia].
    - discriminate.
    - intros; lia. }
  apply Z.ltb_ge in Hargc.
  destruct (vita_elf_load file mmap) as [ve | d |] eqn:Hload.
  2:{ split; [| split].
      - split; [discriminate | intros (_ & ve & dbs & H & _); discriminate].
      - discriminate.
      - intros; discriminate. }
  2:{ split; [exact Hargc | left; reflexivity]. }
  destruct imports as [dbs |].
  2:{ split; [| split].
      - split; [discriminate | intros (_ & ve' & dbs & _ & H & _); discriminate].
      - discriminate.
      - intros; discriminate. }
  destruct (vita_elf_lookup_imports_found_all ve dbs) as [Hsegs Hfound].
  pose proof (vita_elf_lookup_imports_silent ve dbs) as Hsilent.
  cbv zeta in Hsilent. rewrite Hfound in Hsilent.
  rewrite Hsegs, Hfound.
  set (warnings := snd (fst (vita_elf_lookup_imports find_lib find_module find_function
                               find_variable ve dbs))) in *.
  set (fa := forallb (stub_resolves find_lib find_module dbs find_function) (fstubs ve)
             && forallb (stub_resolves find_lib find_module dbs find_variable) (vstubs ve))
    in *.
  assert (Hfa : fa = true <->
            (forall stub, In stub (fstubs ve) ->
               stub_resolves find_lib find_module dbs find_function stub = true) /\
            (forall stub, In stub (vstubs ve) ->
               stub_resolves find_lib find_module dbs find_variable stub = true)).
  { unfold fa. rewrite andb_true_iff, !forallb_forall. reflexivity. }
  assert (Hun : forall stub,
            (In stub (fstubs ve) /\
             stub_resolves find_lib find_module dbs find_function stub = false) \/
            (In stub (vstubs ve) /\
             stub_resolves find_lib find_module dbs find_variable stub = false) ->
            fa = false /\ warnings <> []).
  { intros stub Hstub.
    assert (Hf : fa = false).
    { destruct fa; [| reflexivity].
      destruct Hfa as [[Hf Hv] _]; [reflexivity |].
      destruct Hstub as [[Hin Hr] | [Hin Hr]];
        [rewrite (Hf _ Hin) in Hr | rewrite (Hv _ Hin) in Hr]; discriminate. }
    split; [exact Hf |].
    intros Hnil. apply Hsilent in Hnil. rewrite Hf in Hnil. discriminate. }
  destruct (segments ve) eqn:Esegs.
  { split; [exact Hargc | right; exists ve; split; [reflexivity | exact Esegs]]. }
  rewrite run_stages_fst.
  change output_stages with stages.
  destruct (forallb stage_ok stages) eqn:Hst.
  - rewrite run_stages_all_ok by exact Hst.
    split; [| split].
    + split.
      * intros Hs. split; [exact Hargc |]. exists ve, dbs.
        split; [reflexivity |]. split; [reflexivity |]. split; [reflexivity |].
        apply Hfa. destruct fa; [reflexivity | discriminate].
      * intros (_ & ve' & dbs' & Hve & Hdbs & _ & Hf & Hv).
        apply Ok_eq in Hve. apply Some_eq in Hdbs. subst ve' dbs'.
        replace fa with true by (symmetry; apply Hfa; split; assumption).
        reflexivity.
    + intros Hs.
      assert (Hnil : warnings = []).
      { apply Hsilent. destruct fa; [reflexivity | discriminate]. }
      rewrite Hnil. reflexivity.
    + intros ve' dbs' stub _ Hve Hdbs Hstub.
      apply Ok_eq in Hve. apply Some_eq in Hdbs. subst ve' dbs'.
      cbv zeta. fold warnings.
      destruct (Hun stub Hstub) as [-> Hw].
      split; [reflexivity |]. split; [exact Hw |]. split; [reflexivity |].
      intros pre s post Hsplit Hpre Hs. exfalso.
      rewrite Hsplit, forallb_app in Hst. cbn [forallb] in Hst.
      rewrite Hs, andb_false_r in Hst. discriminate.
  - split; [| split].
    + split; [discriminate |].
      intros (_ & ve' & dbs' & _ & _ & H & _). discriminate.
    + discriminate.
    + intros ve' dbs' stub _ Hve Hdbs Hstub.
      apply Ok_eq in Hve. apply Some_eq in Hdbs. subst ve' dbs'.
      cbv zeta. fold warnings.
      destruct (Hun stub Hstub) as [_ Hw].
      split; [reflexivity |]. split; [exact Hw |]. split; [discriminate |].
      intros pre s post Hsplit Hpre Hs.
      rewrite Hsplit, (run_stages_stops pre s post Hpre Hs). reflexivity.
Qed.
End MainFacts.

Lemma main_exit_status_witness :
  main ImportInputs.find_nothing ImportInputs.find_nothing ImportInputs.find_nothing
    ImportInputs.find_nothing ImportInputs.all_stages_ok
    3 (Some Scenarios.S1) Scenarios.mmap (Some [7])
  = Some (EXIT_FAILURE,
          [Ev_warn (W_library 1 "function" (Some "(unreferenced stub)"%string));
           Ev_stage St_copy_to_file; Ev_stage St_duplicate_shstrtab;
           Ev_stage St_discard_invalid_relocs; Ev_stage St_write_module_info;
           Ev_stage St_write_rela_sections; Ev_stage St_rewrite_stubs;
           Ev_stage St_elf_update; Ev_stage St_set_headers;
           Ev_output_closed]).
Proof.
  pose proof (main_exit_status ImportInputs.find_nothing ImportInputs.find_nothing
                ImportInputs.find_nothing ImportInputs.find_nothing
                ImportInputs.all_stages_ok 3 (Some Scenarios.S1) Scenarios.mmap
                (Some [7])) as H.
  cbv zeta in H.
  destruct (main ImportInputs.find_nothing ImportInputs.find_nothing
              ImportInputs.find_nothing ImportInputs.find_nothing
              ImportInputs.all_stages_ok 3 (Some Scenarios.S1) Scenarios.mmap (Some [7]))
    as [[status events] |] eqn:E; [| vm_compute in E; discriminate].
  destruct H as (_ & _ & H).
  destruct (vita_elf_load (Some Scenarios.S1) Scenarios.mmap) as [ve | d |] eqn:Hload;
    [| vm_compute in Hload; discriminate | vm_compute in Hload; discriminate].
  assert (Hve : fstubs ve = [ImportInputs.stub_1_2_3] /\ vstubs ve = [] /\ symtab ve <> None).
  { vm_compute in Hload. apply Ok_eq in Hload. subst ve.
    split; [reflexivity |]. split; [reflexivity | discriminate]. }
  destruct (H ve [7] ImportInputs.stub_1_2_3) as (Hs & _ & Hall & _);
    [lia | reflexivity | reflexivity
     | left; split; [rewrite (proj1 Hve); left; reflexivity | reflexivity] |].
  rewrite Hs, (Hall eq_refl). do 2 f_equal.
  vm_compute in Hload. apply Ok_eq in Hload. subst ve. reflexivity.
Defined.

(** Scenario S5 as a run: one warning, the eight calls that write the
    output in order, the output file closed, exit status failure. *)
Example S5_run :
  main ImportInputs.find_nothing ImportInputs.find_nothing ImportInputs.find_nothing
    ImportInputs.find_nothing ImportInputs.all_stages_ok
    3 (Some Scenarios.S1) Scenarios.mmap (Some [7])
  = Some (EXIT_FAILURE,
          [Ev_warn (W_library 1 "function" (Some "(unreferenced stub)"%string));
           Ev_stage St_copy_to_file; Ev_stage St_duplicate_shstrtab;
           Ev_stage St_discard_invalid_relocs; Ev_stage St_write_module_info;
           Ev_stage St_write_rela_sections; Ev_stage St_rewrite_stubs;
           Ev_stage St_elf_update; Ev_stage St_set_headers;
           Ev_output_closed]).
Proof. vm_compute. reflexivity. Qed.

(** ** Stub-symbol linker *)

Lemma bind_stub_spec stubs cursym symndx stubs_ndx :
  bind_stub stubs cursym symndx stubs_ndx =
    match stub_at stubs (symbol_value cursym) with
    | None => Fail (D_no_valid_stub symndx (symbol_shndx cursym))
    | Some k =>
        match stubs !! k with
        | Some stub =>
            match stub_symbol stub with
            | Some first =>
                Fail (D_duplicate_symbols (symbol_value cursym) stubs_ndx first symndx)
            | None => Ok (<[k := set_stub_symbol stub symndx]> stubs)
            end
        | None => Undef
        end
    end.
Proof.
  induction stubs as [| stub rest IH]; simpl; [reflexivity |].
  destruct (stub_addr stub =? symbol_value cursym); simpl.
  - destruct (stub_symbol stub); reflexivity.
  - rewrite IH. destruct (stub_at rest (symbol_value cursym)) as [k |]; simpl; [| reflexivity].
    destruct (rest !! k) as [s |]; simpl; [| reflexivity].
    destruct (stub_symbol s); reflexivity.
Qed.

Lemma stub_at_lookup stubs value k :
  stub_at stubs value = Some k ->
  exists stub, stubs !! k = Some stub /\ stub_addr stub = value.
Proof.
  revert k. induction stubs as [| s rest IH]; intros k; simpl; [discriminate |].
  destruct (stub_addr s =? value) eqn:E.
  - intros H. injection H as <-. exists s. split; [reflexivity | apply Z.eqb_eq; exact E].
  - destruct (stub_at rest value) as [k' |]; [| discriminate].
    intros H. injection H as <-. simpl. apply IH. reflexivity.
Qed.

(** Binding a symbol does not move the slots. *)
Lemma stub_at_bind stubs (k : nat) stub symndx value :
  stubs !! k = Some stub ->
  stub_at (<[k := set_stub_symbol stub symndx]> stubs) value = stub_at stubs value.
Proof.
  revert k. induction stubs as [| s rest IH]; intros k Hk; [reflexivity |].
  destruct k as [| k]; simpl in *.
  - injection Hk as ->. reflexivity.
  - rewrite (IH k Hk). reflexivity.
Qed.

(** The loop of [lookup_stub_symbols], when it succeeds: no slot has moved,
    a slot that was bound still is, and each symbol the loop looked at is
    bound to the slot at its value. *)
Lemma lookup_stub_symbols_from_Ok stubs_ndx sym_type syms :
  forall symndx stubs stubs',
    lookup_stub_symbols_from syms symndx stubs stubs_ndx sym_type = Ok stubs' ->
    (forall value, stub_at stubs' value = stub_at stubs value) /\
    (forall (k : nat) stub i,
        stubs !! k = Some stub -> stub_symbol stub = Some i ->
        exists stub', stubs' !! k = Some stub' /\ stub_symbol stub' = Some i) /\
    (forall (i : nat) cursym,
        syms !! i = Some cursym -> is_stub_symbol cursym stubs_ndx = true ->
        symbol_type cursym = sym_type /\
        exists k stub',
          stub_at stubs (symbol_value cursym) = Some k /\
          stubs' !! k = Some stub' /\
          stub_symbol stub' = Some (symndx + i)%nat).
Proof.
  induction syms as [| cursym rest IH]; intros symndx stubs stubs' H; simpl in H.
  - injection H as <-. split; [reflexivity |]. split; [eauto |].
    intros i c Hi. rewrite lookup_nil in Hi. discriminate.
  - destruct (is_stub_symbol cursym stubs_ndx) eqn:Eq; simpl in H.
    + destruct (symbol_type cursym =? sym_type) eqn:Et; simpl in H; [| discriminate].
      apply Z.eqb_eq in Et.
      inv_bind H as stubs1 Hbind. rewrite bind_stub_spec in Hbind.
      destruct (stub_at stubs (symbol_value cursym)) as [k |] eqn:Hat; [| discriminate].
      destruct (stubs !! k) as [stub |] eqn:Hk; [| discriminate].
      destruct (stub_symbol stub) eqn:Hfree; [discriminate |].
      injection Hbind as <-.
      apply IH in H. destruct H as (Hat' & Hkeep & Hbound).
      split; [| split].
      * intros value. rewrite Hat'. apply stub_at_bind. exact Hk.
      * intros k0 s0 i0 Hk0 Hs0.
        apply (Hkeep k0 s0 i0); [| exact Hs0].
        destruct (Nat.eq_dec k k0) as [-> | Hne]; [congruence |].
        rewrite list_lookup_insert_ne by exact Hne. exact Hk0.
      * intros [| i] c Hi Hq; simpl in Hi.
        -- injection Hi as <-. split; [exact Et |].
           destruct (Hkeep k (set_stub_symbol stub symndx) symndx) as (s' & Hs' & Hsym).
           { apply list_lookup_insert_eq. eapply lookup_lt_Some; eassumption. }
           { reflexivity. }
           exists k, s'. rewrite Nat.add_0_r. repeat split; assumption.
        -- destruct (Hbound i c Hi Hq) as (Hty & k' & s' & Hk' & Hs' & Hsym).
           split; [exact Hty |]. exists k', s'.
           rewrite stub_at_bind in Hk' by exact Hk.
           replace (symndx + S i)%nat with (S symndx + i)%nat by lia.
           repeat split; assumption.
    + apply IH in H. destruct H as (Hat' & Hkeep & Hbound).
      split; [exact Hat' |]. split; [exact Hkeep |].
      intros [| i] c Hi Hq; simpl in Hi.
      * injection Hi as <-. congruence.
      * destruct (Hbound i c Hi Hq) as (Hty & k' & s' & Hk' & Hs' & Hsym).
        split; [exact Hty |]. exists k', s'.
        replace (symndx + S i)%nat with (S symndx + i)%nat by lia.
        repeat split; assumption.
Qed.

(** The linker reads and writes within its arrays: it returns or fails. *)
Lemma lookup_stub_symbols_from_defined stubs_ndx sym_type syms :
  forall symndx stubs,
    lookup_stub_symbols_from syms symndx stubs stubs_ndx sym_type <> Undef.
Proof.
  induction syms as [| cursym rest IH]; intros symndx stubs; simpl; [discriminate |].
  destruct (is_stub_symbol cursym stubs_ndx); simpl; [| apply IH].
  destruct (symbol_type cursym =? sym_type); simpl; [| discriminate].
  rewrite bind_stub_spec.
  destruct (stub_at stubs (symbol_value cursym)) as [k |] eqn:Hat; simpl; [| discriminate].
  destruct (stub_at_lookup _ _ _ Hat) as (stub & -> & _).
  destruct (stub_symbol stub); simpl; [discriminate | apply IH].
Qed.

Lemma not_Ok_Fail {A} (r : result A) :
  r <> Undef -> (forall a, r <> Ok a) -> exists d, r = Fail d.
Proof.
  destruct r as [a | d |]; intros H1 H2.
  - destruct (H2 a eq_refl).
  - eauto.
  - destruct (H1 eq_refl).
Qed.

(** Two symbols of the stub section at one value cannot both be linked. *)
Lemma lookup_stub_symbols_unique ve stubs stubs_ndx sym_type stubs' tab (i j : nat) ci cj :
  lookup_stub_symbols ve stubs stubs_ndx sym_type = Ok stubs' ->
  symtab ve = Some tab ->
  tab !! i = Some ci -> tab !! j = Some cj ->
  is_stub_symbol ci stubs_ndx = true -> is_stub_symbol cj stubs_ndx = true ->
  symbol_value ci = symbol_value cj ->
  i = j.
Proof.
  unfold lookup_stub_symbols. intros H Htab Hi Hj Hqi Hqj Hv.
  rewrite Htab in H. simpl in H.
  apply lookup_stub_symbols_from_Ok in H. destruct H as (_ & _ & Hbound).
  destruct (Hbound i ci Hi Hqi) as (_ & k & s & Hk & Hs & Hsym).
  destruct (Hbound j cj Hj Hqj) as (_ & k' & s' & Hk' & Hs' & Hsym').
  rewrite Hv in Hk. assert (k' = k) as -> by congruence.
  assert (s' = s) as -> by congruence.
  simpl in *. congruence.
Qed.

Lemma link_and_map_Ok e mmap ve1 ve :
  link_and_map e mmap ve1 = Ok ve ->
  symtab ve = symtab ve1 /\
  fstubs_ndx ve = fstubs_ndx ve1 /\
  vstubs_ndx ve = vstubs_ndx ve1 /\
  rela_tables ve = rela_tables ve1 /\
  (fstubs_ndx ve1 <> 0 ->
     lookup_stub_symbols ve1 (fstubs ve1) (fstubs_ndx ve1) STT_FUNC = Ok (fstubs ve)) /\
  (vstubs_ndx ve1 <> 0 ->
     lookup_stub_symbols ve1 (vstubs ve1) (vstubs_ndx ve1) STT_OBJECT = Ok (vstubs ve)) /\
  exists phdrs, elf_phdrs e = Some phdrs /\ load_segments mmap phdrs 0 = Ok (segments ve).
Proof.
  unfold link_and_map. intros H.
  destruct ((fstubs_ndx ve1 =? 0) && (vstubs_ndx ve1 =? 0)); [discriminate |].
  destruct (symtab ve1) eqn:Etab; [| discriminate].
  destruct (rela_tables ve1) eqn:Erel; [discriminate |].
  inv_bind H as fs Hfs. inv_bind H as vs Hvs.
  destruct (elf_phdrs e) as [phdrs |]; [| discriminate].
  inv_bind H as segs Hsegs. injection H as <-.
  cbn [set_linked symtab fstubs_ndx vstubs_ndx rela_tables fstubs vstubs segments].
  split; [exact Etab |]. split; [reflexivity |]. split; [reflexivity |].
  split; [exact Erel |]. split; [| split].
  - intros Hne. apply Z.eqb_neq in Hne. rewrite Hne in Hfs. exact Hfs.
  - intros Hne. apply Z.eqb_neq in Hne. rewrite Hne in Hvs. exact Hvs.
  - exists phdrs. split; [reflexivity | exact Hsegs].
Qed.

Lemma vita_elf_load_Ok file mmap ve :
  vita_elf_load file mmap = Ok ve ->
  exists e shstrndx ve1,
    check_header file = Ok (e, shstrndx) /\
    scan_sections e shstrndx (tail (elf_scns e)) 1 zero_elf = Ok ve1 /\
    link_and_map e mmap ve1 = Ok ve.
Proof.
  unfold vita_elf_load. intros H. inv_bind H as h Hh. inv_bind H as ve1 Hve1.
  destruct h as [e shstrndx]. exists e, shstrndx, ve1. repeat split; assumption.
Qed.

(** C7.  The stub-symbol linker, for the symbols of a stub section (GLOBAL,
    FUNC or OBJECT, [shndx] the section):
    - when it succeeds, each of them is bound to the stub whose [addr] is
      its value;
    - it fails when one of them has a value that is no stub's [addr];
    - it fails on a symbol whose stub is already bound, and so whenever two
      of them have the same value;
    - hence in a loaded context two such symbols with one value are the
      same symbol;
    - and a file whose symbol table has two GLOBAL FUNC symbols of the
      function-stub section with one value does not load: [vita_elf_load]
      fails, and [main] exits with failure before any output stage. *)
Theorem stub_symbols_linked :
  (forall ve stubs stubs_ndx sym_type stubs' tab (i : nat) cursym,
      lookup_stub_symbols ve stubs stubs_ndx sym_type = Ok stubs' ->
      symtab ve = Some tab ->
      tab !! i = Some cursym ->
      is_stub_symbol cursym stubs_ndx = true ->
      exists k stub,
        stub_at stubs (symbol_value cursym) = Some k /\
        stubs' !! k = Some stub /\
        stub_addr stub = symbol_value cursym /\
        stub_symbol stub = Some i) /\
  (forall ve stubs stubs_ndx sym_type tab (i : nat) cursym,
      symtab ve = Some tab ->
      tab !! i = Some cursym ->
      is_stub_symbol cursym stubs_ndx = true ->
      stub_at stubs (symbol_value cursym) = None ->
      exists d, lookup_stub_symbols ve stubs stubs_ndx sym_type = Fail d) /\
  (forall stubs cursym symndx stubs_ndx k stub first,
      stub_at stubs (symbol_value cursym) = Some k ->
      stubs !! k = Some stub ->
      stub_symbol stub = Some first ->
      bind_stub stubs cursym symndx stubs_ndx
      = Fail (D_duplicate_symbols (symbol_value cursym) stubs_ndx first symndx)) /\
  (forall ve stubs stubs_ndx sym_type tab (i j : nat) ci cj,
      symtab ve = Some tab ->
      i <> j ->
      tab !! i = Some ci -> tab !! j = Some cj ->
      is_stub_symbol ci stubs_ndx = true -> is_stub_symbol cj stubs_ndx = true ->
      symbol_value ci = symbol_value cj ->
      exists d, lookup_stub_symbols ve stubs stubs_ndx sym_type = Fail d) /\
  (forall file mmap ve tab stubs_ndx (i j : nat) ci cj,
      vita_elf_load file mmap = Ok ve ->
      symtab ve = Some tab ->
      stubs_ndx = fstubs_ndx ve \/ stubs_ndx = vstubs_ndx ve ->
      stubs_ndx <> 0 ->
      tab !! i = Some ci -> tab !! j = Some cj ->
      is_stub_symbol ci stubs_ndx = true -> is_stub_symbol cj stubs_ndx = true ->
      symbol_value ci = symbol_value cj ->
      i = j) /\
  (forall find_lib find_module find_function find_variable stage_ok argc imports
          file mmap e shstrndx ve1 tab (i j : nat) ci cj,
      3 <= argc ->
      check_header file = Ok (e, shstrndx) ->
      scan_sections e shstrndx (tail (elf_scns e)) 1 zero_elf = Ok ve1 ->
      symtab ve1 = Some tab ->
      fstubs_ndx ve1 <> 0 ->
      i <> j ->
      tab !! i = Some ci -> tab !! j = Some cj ->
      symbol_binding ci = STB_GLOBAL -> symbol_binding cj = STB_GLOBAL ->
      symbol_type ci = STT_FUNC -> symbol_type cj = STT_FUNC ->
      symbol_shndx ci = fstubs_ndx ve1 -> symbol_shndx cj = fstubs_ndx ve1 ->
      symbol_value ci = symbol_value cj ->
      exists d,
        vita_elf_load file mmap = Fail d /\
        main find_lib find_module find_function find_variable stage_ok
          argc file mmap imports = Some (EXIT_FAILURE, [Ev_diag d])).
Proof.
  assert (Hdup : forall ve stubs stubs_ndx sym_type tab (i j : nat) ci cj,
             symtab ve = Some tab -> i <> j ->
             tab !! i = Some ci -> tab !! j = Some cj ->
             is_stub_symbol ci stubs_ndx = true -> is_stub_symbol cj stubs_ndx = true ->
             symbol_value ci = symbol_value cj ->
             exists d, lookup_stub_symbols ve stubs stubs_ndx sym_type = Fail d).
  { intros ve stubs stubs_ndx sym_type tab i j ci cj Htab Hne Hi Hj Hqi Hqj Hv.
    apply not_Ok_Fail.
    - apply lookup_stub_symbols_from_defined.
    - intros stubs' H. apply Hne.
      eapply lookup_stub_symbols_unique; eassumption. }
  split; [| split; [| split; [| split; [exact Hdup | split]]]].
  - intros ve stubs stubs_ndx sym_type stubs' tab i cursym H Htab Hi Hq.
    unfold lookup_stub_symbols in H. rewrite Htab in H. simpl in H.
    apply lookup_stub_symbols_from_Ok in H. destruct H as (Hat & _ & Hbound).
    destruct (Hbound i cursym Hi Hq) as (_ & k & s & Hk & Hs & Hsym).
    exists k, s. repeat split; try assumption.
    rewrite <- Hat in Hk. apply stub_at_lookup in Hk.
    destruct Hk as (s' & Hs'' & Haddr). congruence.
  - intros ve stubs stubs_ndx sym_type tab i cursym Htab Hi Hq Hnone.
    apply not_Ok_Fail.
    + apply lookup_stub_symbols_from_defined.
    + intros stubs' H. unfold lookup_stub_symbols in H. rewrite Htab in H. simpl in H.
      apply lookup_stub_symbols_from_Ok in H. destruct H as (_ & _ & Hbound).
      destruct (Hbound i cursym Hi Hq) as (_ & k & s & Hk & _). congruence.
  - intros stubs cursym symndx stubs_ndx k stub first Hat Hk Hsym.
    rewrite bind_stub_spec, Hat, Hk, Hsym. reflexivity.
  - intros file mmap ve tab stubs_ndx i j ci cj Hload Htab Hndx Hnz Hi Hj Hqi Hqj Hv.
    apply vita_elf_load_Ok in Hload. destruct Hload as (e & shstrndx & ve1 & _ & _ & Hlink).
    apply link_and_map_Ok in Hlink.
    destruct Hlink as (Hsym & Hf & Hvx & _ & Hfs & Hvs & _).
    rewrite Hsym in Htab.
    destruct Hndx as [-> | ->].
    + rewrite Hf in *. eapply lookup_stub_symbols_unique; [apply (Hfs Hnz) | eassumption ..].
    + rewrite Hvx in *. eapply lookup_stub_symbols_unique; [apply (Hvs Hnz) | eassumption ..].
  - intros find_lib find_module find_function find_variable stage_ok argc imports
           file mmap e shstrndx ve1 tab i j ci cj
           Hargc Hhdr Hscan Htab Hnz Hne Hi Hj Bi Bj Ti Tj Si Sj Hv.
    assert (Hq : forall c, symbol_binding c = STB_GLOBAL -> symbol_type c = STT_FUNC ->
                           symbol_shndx c = fstubs_ndx ve1 ->
                           is_stub_symbol c (fstubs_ndx ve1) = true).
    { intros c B T S. unfold is_stub_symbol. rewrite B, T, S, !Z.eqb_refl. reflexivity. }
    destruct (Hdup ve1 (fstubs ve1) (fstubs_ndx ve1) STT_FUNC tab i j ci cj
                Htab Hne Hi Hj (Hq _ Bi Ti Si) (Hq _ Bj Tj Sj) Hv) as [d Hd].
    assert (Hlink : exists d', link_and_map e mmap ve1 = Fail d').
    { unfold link_and_map.
      destruct ((fstubs_ndx ve1 =? 0) && (vstubs_ndx ve1 =? 0)); [eauto |].
      rewrite Htab. destruct (rela_tables ve1); [eauto |].
      apply Z.eqb_neq in Hnz. rewrite Hnz. cbn [negb]. rewrite Hd. cbn [rbind]. eauto. }
    destruct Hlink as [d' Hd']. exists d'.
    assert (Hload : vita_elf_load file mmap = Fail d').
    { unfold vita_elf_load. rewrite Hhdr. cbn [rbind fst snd]. rewrite Hscan.
      cbn [rbind]. exact Hd'. }
    split; [exact Hload |].
    unfold main. rewrite Hload.
    replace (argc <? 3) with false by (symmetry; apply Z.ltb_ge; lia). reflexivity.
Qed.

Lemma stub_symbols_linked_witness :
  let a := LinkContexts.stub_symbol_at "a" 0x82000 in
  let b := LinkContexts.stub_symbol_at "b" 0x82000 in
  let c := LinkContexts.stub_symbol_at "c" 0x82004 in
  let stubs := [ImportInputs.stub_1_2_3] in
  (exists k stub,
      stub_at stubs 0x82000 = Some k /\
      [set_stub_symbol ImportInputs.stub_1_2_3 1] !! k = Some stub /\
      stub_addr stub = 0x82000 /\ stub_symbol stub = Some 1%nat) /\
  (exists d, lookup_stub_symbols (LinkContexts.with_symbols [zero_symbol; c])
               stubs 2 STT_FUNC = Fail d) /\
  bind_stub [set_stub_symbol ImportInputs.stub_1_2_3 1] b 2 2
    = Fail (D_duplicate_symbols 0x82000 2 1 2) /\
  (exists d, lookup_stub_symbols (LinkContexts.with_symbols [zero_symbol; a; b])
               stubs 2 STT_FUNC = Fail d) /\
  (exists ve, vita_elf_load (Some LinkInputs.bound) Scenarios.mmap = Ok ve /\
              fstubs ve = [set_stub_symbol ImportInputs.stub_1_2_3 1]) /\
  (exists d,
      vita_elf_load (Some LinkInputs.S6) Scenarios.mmap = Fail d /\
      main ImportInputs.find_lib ImportInputs.find_module ImportInputs.find_function
        ImportInputs.find_variable ImportInputs.all_stages_ok
        3 (Some LinkInputs.S6) Scenarios.mmap (Some [7])
      = Some (EXIT_FAILURE, [Ev_diag d])).
Proof.
  intros a b c stubs.
  destruct stub_symbols_linked as (P1 & P2 & P3 & P4 & P5 & P6).
  split; [| split; [| split; [| split; [| split]]]].
  - apply (P1 (LinkContexts.with_symbols [zero_symbol; a]) stubs 2 STT_FUNC
              [set_stub_symbol ImportInputs.stub_1_2_3 1] [zero_symbol; a] 1%nat a);
      reflexivity.
  - apply (P2 (LinkContexts.with_symbols [zero_symbol; c]) stubs 2 STT_FUNC
              [zero_symbol; c] 1%nat c); reflexivity.
  - apply (P3 [set_stub_symbol ImportInputs.stub_1_2_3 1] b 2%nat 2 0%nat
              (set_stub_symbol ImportInputs.stub_1_2_3 1) 1%nat); reflexivity.
  - apply (P4 (LinkContexts.with_symbols [zero_symbol; a; b]) stubs 2 STT_FUNC
              [zero_symbol; a; b] 1%nat 2%nat a b); try reflexivity. discriminate.
  - eexists. split; [vm_compute; reflexivity |].
    assert (1 = 1)%nat as _.
    { eapply (P5 (Some LinkInputs.bound) Scenarios.mmap _ _ 2 1%nat 1%nat);
        [vm_compute; reflexivity | vm_compute; reflexivity | left; reflexivity
         | discriminate | reflexivity | reflexivity | reflexivity | reflexivity
         | reflexivity]. }
    reflexivity.
  - eapply (P6 ImportInputs.find_lib ImportInputs.find_module ImportInputs.find_function
              ImportInputs.find_variable ImportInputs.all_stages_ok 3 (Some [7])
              (Some LinkInputs.S6) Scenarios.mmap _ _ _ _ 1%nat 2%nat);
      [lia | vm_compute; reflexivity | vm_compute; reflexivity | vm_compute; reflexivity
       | vm_compute; discriminate | discriminate
       | reflexivity | reflexivity | reflexivity | reflexivity | reflexivity
       | reflexivity | reflexivity | reflexivity | reflexivity].
Defined.

(** Scenario S6 as a run: the load fails on the second symbol, nothing is
    written. *)
Example S6_run :
  vita_elf_load (Some LinkInputs.S6) Scenarios.mmap
    = Fail (D_duplicate_symbols 0x82000 2 1 2) /\
  vita_elf_load (Some LinkInputs.astray) Scenarios.mmap
    = Fail (D_no_valid_stub 1 2) /\
  main ImportInputs.find_lib ImportInputs.find_module ImportInputs.find_function
    ImportInputs.find_variable ImportInputs.all_stages_ok
    3 (Some LinkInputs.S6) Scenarios.mmap (Some [7])
    = Some (EXIT_FAILURE, [Ev_diag (D_duplicate_symbols 0x82000 2 1 2)]).
Proof. repeat split; vm_compute; reflexivity. Qed.

(** ** ELF reader *)

Lemma check_header_Ok file e shstrndx :
  check_header file = Ok (e, shstrndx) ->
  file = Some e /\ elf_shstrndx e = Some shstrndx.
Proof.
  unfold check_header. destruct file as [e' |]; [| discriminate].
  destruct (negb (elf_kind e' =? ELF_K_ELF)); [discriminate |].
  destruct (elf_ehdr e') as [ehdr |]; [| discriminate].
  destruct (negb (e_machine ehdr =? EM_ARM)); [discriminate |].
  destruct (negb (ei_class ehdr =? ELFCLASS32) || negb (ei_data ehdr =? ELFDATA2LSB));
    [discriminate |].
  destruct (elf_shstrndx e') as [s |] eqn:E; [| discriminate].
  intros H. injection H as <- <-. split; [reflexivity | exact E].
Qed.

Lemma load_rel_table_keeps e ve shdr ve' :
  load_rel_table e ve shdr = Ok ve' ->
  fstubs_ndx ve' = fstubs_ndx ve /\ vstubs_ndx ve' = vstubs_ndx ve /\
  fstubs ve' = fstubs ve /\ vstubs ve' = vstubs ve /\
  exists rtable, rela_tables ve' = rtable :: rela_tables ve.
Proof.
  intros H. apply load_rel_table_Ok in H.
  destruct H as (ve1 & data & relas' & Hsym & _ & _ & _ & _ & ->).
  apply load_symbols_keeps in Hsym. destruct Hsym as (Hf & Hv & Hr & Hfs & Hvs).
  cbn [add_rela_table fstubs_ndx vstubs_ndx fstubs vstubs rela_tables].
  rewrite Hr. eauto 10.
Qed.

(** What the stub-section branch does to the two section indexes. *)
Lemma load_stub_section_ndx ve ndx shdr name ve' :
  load_stub_section ve ndx shdr name = Ok ve' ->
  ndx <> 0 ->
  (fstubs_ndx ve <> 0 -> fstubs_ndx ve' = fstubs_ndx ve) /\
  (vstubs_ndx ve <> 0 -> vstubs_ndx ve' = vstubs_ndx ve) /\
  (sh_type shdr = SHT_PROGBITS -> name = ".vitalink.fstubs"%string ->
     fstubs_ndx ve = 0 /\ fstubs_ndx ve' = ndx) /\
  (sh_type shdr = SHT_PROGBITS -> name = ".vitalink.vstubs"%string ->
     vstubs_ndx ve = 0 /\ vstubs_ndx ve' = ndx).
Proof.
  unfold load_stub_section. intros H Hndx.
  destruct (sh_type shdr =? SHT_PROGBITS) eqn:Et.
  2:{ injection H as <-. apply Z.eqb_neq in Et.
      repeat split; try reflexivity; intros; contradiction. }
  cbn [andb] in H.
  destruct (String.eqb name ".vitalink.fstubs") eqn:Ef.
  - apply String.eqb_eq in Ef. subst name.
    destruct (fstubs_ndx ve =? 0) eqn:E0; cbn [negb] in H; [| discriminate].
    apply Z.eqb_eq in E0. inv_bind H as r Hr. injection H as <-.
    cbn [set_fstubs fstubs_ndx vstubs_ndx].
    split; [intros; contradiction |]. split; [reflexivity |].
    split; [intros; split; [exact E0 | reflexivity] |].
    intros _ Hn. discriminate.
  - apply String.eqb_neq in Ef.
    destruct (String.eqb name ".vitalink.vstubs") eqn:Ev.
    + apply String.eqb_eq in Ev. subst name.
      destruct (vstubs_ndx ve =? 0) eqn:E0; cbn [negb] in H; [| discriminate].
      apply Z.eqb_eq in E0. inv_bind H as r Hr. injection H as <-.
      cbn [set_vstubs fstubs_ndx vstubs_ndx].
      split; [reflexivity |]. split; [intros; contradiction |].
      split; [intros _ Hn; discriminate |].
      intros; split; [exact E0 | reflexivity].
    + apply String.eqb_neq in Ev. injection H as <-.
      repeat split; try reflexivity; intros; contradiction.
Qed.

(** After the stub-section branch, the rest of the loop body leaves the two
    section indexes alone. *)
Lemma load_section_ndx e shstrndx ve ndx shdr ve' :
  load_section e shstrndx ve ndx shdr = Ok ve' ->
  ndx <> 0 ->
  (fstubs_ndx ve <> 0 -> fstubs_ndx ve' <> 0) /\
  (vstubs_ndx ve <> 0 -> vstubs_ndx ve' <> 0) /\
  (is_stub_section e shstrndx ".vitalink.fstubs" shdr = true ->
     fstubs_ndx ve = 0 /\ fstubs_ndx ve' <> 0) /\
  (is_stub_section e shstrndx ".vitalink.vstubs" shdr = true ->
     vstubs_ndx ve = 0 /\ vstubs_ndx ve' <> 0).
Proof.
  unfold load_section, is_stub_section. intros H Hndx.
  destruct (elf_strptr e shstrndx (sh_name shdr)) as [name |]; [| discriminate].
  inv_bind H as ve1 Hstub.
  destruct (load_stub_section_ndx _ _ _ _ _ Hstub Hndx) as (Kf & Kv & Nf & Nv).
  assert (Hkeep : fstubs_ndx ve' = fstubs_ndx ve1 /\ vstubs_ndx ve' = vstubs_ndx ve1).
  { destruct (existsb (String.eqb name) debug_sections); [discriminate |].
    destruct (sh_type shdr =? SHT_SYMTAB).
    { apply load_symbols_keeps in H. destruct H as (? & ? & _). split; assumption. }
    destruct (sh_type shdr =? SHT_REL).
    { apply load_rel_table_keeps in H. destruct H as (? & ? & _). split; assumption. }
    destruct (sh_type shdr =? SHT_RELA); [discriminate |].
    injection H as <-. split; reflexivity. }
  destruct Hkeep as [-> ->].
  split; [intros Hf; rewrite (Kf Hf); exact Hf |].
  split; [intros Hv; rewrite (Kv Hv); exact Hv |].
  split.
  - intros Hs. apply andb_true_iff in Hs. destruct Hs as [Ht Hn].
    apply Z.eqb_eq in Ht. apply String.eqb_eq in Hn.
    destruct (Nf Ht Hn) as [H0 ->]. split; assumption.
  - intros Hs. apply andb_true_iff in Hs. destruct Hs as [Ht Hn].
    apply Z.eqb_eq in Ht. apply String.eqb_eq in Hn.
    destruct (Nv Ht Hn) as [H0 ->]. split; assumption.
Qed.

(** A second stub section of either name stops the loop. *)
Lemma load_section_again e shstrndx ve ndx shdr :
  (is_stub_section e shstrndx ".vitalink.fstubs" shdr = true -> fstubs_ndx ve <> 0 ->
     load_section e shstrndx ve ndx shdr = Fail D_multiple_fstubs) /\
  (is_stub_section e shstrndx ".vitalink.vstubs" shdr = true -> vstubs_ndx ve <> 0 ->
     load_section e shstrndx ve ndx shdr = Fail D_multiple_vstubs).
Proof.
  unfold is_stub_section, load_section, load_stub_section.
  destruct (elf_strptr e shstrndx (sh_name shdr)) as [name |];
    [| split; intros H; rewrite andb_false_r in H; discriminate].
  split; intros Hs Hnz; apply andb_true_iff in Hs; destruct Hs as [-> Hn];
    apply String.eqb_eq in Hn; subst name; apply Z.eqb_neq in Hnz.
  - cbn [andb]. rewrite String.eqb_refl, Hnz. reflexivity.
  - cbn [andb].
    replace (".vitalink.vstubs" =? ".vitalink.fstubs")%string with false by reflexivity.
    rewrite String.eqb_refl, Hnz. reflexivity.
Qed.

Lemma scan_sections_app e shstrndx l1 l2 :
  forall ndx ve,
    scan_sections e shstrndx (l1 ++ l2) ndx ve =
    (let* ve1 := scan_sections e shstrndx l1 ndx ve in
     scan_sections e shstrndx l2 (ndx + Z.of_nat (length l1)) ve1).
Proof.
  induction l1 as [| shdr l1 IH]; intros ndx ve.
  - cbn [app scan_sections rbind length]. rewrite Z.add_0_r. reflexivity.
  - cbn [app scan_sections length].
    destruct (load_section e shstrndx ve ndx shdr) as [ve1 | d |]; cbn [rbind];
      [| reflexivity | reflexivity].
    rewrite IH. replace (ndx + 1 + Z.of_nat (length l1))
      with (ndx + Z.of_nat (S (length l1))) by lia.
    reflexivity.
Qed.

(** Once a stub section of a name has been scanned, its index is set and
    stays set. *)
Lemma scan_sections_ndx e shstrndx scns :
  forall ndx ve ve',
    scan_sections e shstrndx scns ndx ve = Ok ve' ->
    1 <= ndx ->
    (fstubs_ndx ve <> 0 -> fstubs_ndx ve' <> 0) /\
    (vstubs_ndx ve <> 0 -> vstubs_ndx ve' <> 0) /\
    ((exists shdr, In shdr scns /\ is_stub_section e shstrndx ".vitalink.fstubs" shdr = true) ->
       fstubs_ndx ve' <> 0) /\
    ((exists shdr, In shdr scns /\ is_stub_section e shstrndx ".vitalink.vstubs" shdr = true) ->
       vstubs_ndx ve' <> 0).
Proof.
  induction scns as [| shdr rest IH]; intros ndx ve ve' H Hndx; cbn [scan_sections] in H.
  - injection H as <-. repeat split; try (intros; assumption);
      intros (s & [] & _).
  - inv_bind H as ve1 Hsec.
    destruct (load_section_ndx _ _ _ _ _ _ Hsec ltac:(lia)) as (Kf & Kv & Nf & Nv).
    destruct (IH _ _ _ H ltac:(lia)) as (Kf' & Kv' & Ef & Ev).
    split; [intros Hf; auto |]. split; [intros Hv; auto |].
    split.
    + intros (s & [<- | Hin] & Hs); [apply Kf', (Nf Hs) | apply Ef; eauto].
    + intros (s & [<- | Hin] & Hs); [apply Kv', (Nv Hs) | apply Ev; eauto].
Qed.

(** C10.  When the sections the loader scans hold a PROGBITS section named
    [.vitalink.fstubs] after another one, or a PROGBITS section named
    [.vitalink.vstubs] after another one, [vita_elf_load] does not return a
    context: it fails.  When the sections before the second one are scanned
    without error, the failure is the one reported as "Multiple
    .vitalink.fstubs sections" (resp. vstubs). *)
Theorem multiple_stub_sections_fatal e mmap shstrndx pre shdr post (name : string) :
  elf_shstrndx e = Some shstrndx ->
  tail (elf_scns e) = pre ++ shdr :: post ->
  name = ".vitalink.fstubs"%string \/ name = ".vitalink.vstubs"%string ->
  is_stub_section e shstrndx name shdr = true ->
  (exists shdr0, In shdr0 pre /\ is_stub_section e shstrndx name shdr0 = true) ->
  (vita_elf_load (Some e) mmap <> Undef ->
     exists d, vita_elf_load (Some e) mmap = Fail d) /\
  (forall ve1,
      check_header (Some e) = Ok (e, shstrndx) ->
      scan_sections e shstrndx pre 1 zero_elf = Ok ve1 ->
      vita_elf_load (Some e) mmap =
        Fail (if String.eqb name ".vitalink.fstubs"
              then D_multiple_fstubs else D_multiple_vstubs)).
Proof.
  intros Hstr Htail Hname Hsec Hprev.
  assert (Hstop : forall ve1,
             scan_sections e shstrndx pre 1 zero_elf = Ok ve1 ->
             scan_sections e shstrndx (tail (elf_scns e)) 1 zero_elf =
               Fail (if String.eqb name ".vitalink.fstubs"
                     then D_multiple_fstubs else D_multiple_vstubs)).
  { intros ve1 Hpre. rewrite Htail, scan_sections_app, Hpre.
    cbn [rbind scan_sections].
    destruct (scan_sections_ndx _ _ _ _ _ _ Hpre ltac:(lia)) as (_ & _ & Ef & Ev).
    destruct (load_section_again e shstrndx ve1 (1 + Z.of_nat (length pre)) shdr)
      as [Af Av].
    destruct Hname as [-> | ->].
    - rewrite (Af Hsec (Ef Hprev)). reflexivity.
    - rewrite (Av Hsec (Ev Hprev)). reflexivity. }
  split.
  - intros Hdef. apply not_Ok_Fail; [exact Hdef |].
    intros ve Hload. apply vita_elf_load_Ok in Hload.
    destruct Hload as (e' & s' & ve1 & Hhdr & Hscan & _).
    destruct (check_header_Ok _ _ _ Hhdr) as [He Hs'].
    injection He as <-. assert (s' = shstrndx) as -> by congruence.
    rewrite Htail, scan_sections_app in Hscan.
    inv_bind Hscan as veA HA.
    rewrite Htail, scan_sections_app in Hstop.
    specialize (Hstop veA HA). rewrite HA in Hstop. cbn [rbind] in Hstop.
    congruence.
  - intros ve1 Hhdr Hpre. unfold vita_elf_load. rewrite Hhdr. cbn [rbind fst snd].
    rewrite (Hstop ve1 Hpre). reflexivity.
Qed.

Lemma multiple_stub_sections_fatal_witness :
  vita_elf_load (Some SectionInputs.two_fstubs) Scenarios.mmap = Fail D_multiple_fstubs /\
  vita_elf_load (Some SectionInputs.two_vstubs) Scenarios.mmap = Fail D_multiple_vstubs.
Proof.
  split.
  - eapply (proj2 (multiple_stub_sections_fatal SectionInputs.two_fstubs Scenarios.mmap 6
                     (firstn 6 (tail (elf_scns SectionInputs.two_fstubs)))
                     _ [] ".vitalink.fstubs"
                     eq_refl eq_refl (or_introl eq_refl) eq_refl _));
      [reflexivity | vm_compute; reflexivity].
    Unshelve.
    eexists. split; [right; left; reflexivity | reflexivity].
  - eapply (proj2 (multiple_stub_sections_fatal SectionInputs.two_vstubs Scenarios.mmap 6
                     (firstn 7 (tail (elf_scns SectionInputs.two_vstubs)))
                     _ [] ".vitalink.vstubs"
                     eq_refl eq_refl (or_intror eq_refl) eq_refl _));
      [reflexivity | vm_compute; reflexivity].
    Unshelve.
    eexists. split; [do 6 right; left; reflexivity | reflexivity].
Defined.

(** * Further properties of the loader *)

(** ** The two switches on the relocation type *)

(** [decode_rel_target] reaches its [errx] exactly for the types that
    [get_rel_handling] rejects: a type that [load_rel_table] lets through
    is always decoded. *)
Theorem decode_rel_target_errx_iff_invalid data type addr :
  decode_rel_target data type addr = None <->
  get_rel_handling type = REL_HANDLE_INVALID.
Proof.
  unfold decode_rel_target, get_rel_handling, is_case, existsb.
  destruct (type =? R_ARM_NONE); cbn [orb]; [split; intros H; discriminate H |].
  destruct (type =? R_ARM_V4BX); cbn [orb]; [split; intros H; discriminate H |].
  destruct (type =? R_ARM_ABS32); cbn [orb]; [split; intros H; discriminate H |].
  destruct (type =? R_ARM_TARGET1); cbn [orb]; [split; intros H; discriminate H |].
  destruct (type =? R_ARM_REL32); cbn [orb]; [split; intros H; discriminate H |].
  destruct (type =? R_ARM_TARGET2); cbn [orb]; [split; intros H; discriminate H |].
  destruct (type =? R_ARM_PREL31); cbn [orb]; [split; intros H; discriminate H |].
  destruct (type =? R_ARM_THM_CALL); cbn [orb]; [split; intros H; discriminate H |].
  destruct (type =? R_ARM_CALL); cbn [orb]; [split; intros H; discriminate H |].
  destruct (type =? R_ARM_JUMP24); cbn [orb]; [split; intros H; discriminate H |].
  destruct (type =? R_ARM_MOVW_ABS_NC); cbn [orb]; [split; intros H; discriminate H |].
  destruct (type =? R_ARM_MOVT_ABS); cbn [orb]; [split; intros H; discriminate H |].
  destruct (type =? R_ARM_THM_MOVW_ABS_NC); cbn [orb]; [split; intros H; discriminate H |].
  destruct (type =? R_ARM_THM_MOVT_ABS); cbn [orb]; [split; intros H; discriminate H |].
  split; reflexivity.
Qed.

(** ** Bounds of the bit operations *)

Lemma lor_lt_pow2 n a b :
  0 <= a < 2 ^ n -> 0 <= b < 2 ^ n -> 0 <= Z.lor a b < 2 ^ n.
Proof.
  intros Ha Hb.
  assert (Hn : 0 <= n).
  { destruct (Z_lt_ge_dec n 0) as [Hneg |]; [| lia].
    rewrite Z.pow_neg_r in Ha by exact Hneg. lia. }
  assert (H0 : 0 <= Z.lor a b) by (apply Z.lor_nonneg; lia).
  split; [exact H0 |].
  destruct (Z.eq_dec (Z.lor a b) 0) as [-> | Hnz]; [lia |].
  apply Z.log2_lt_pow2; [lia |].
  rewrite Z.log2_lor by lia.
  assert (La : Z.log2 a < n \/ a = 0).
  { destruct (Z.eq_dec a 0); [right; assumption | left; apply Z.log2_lt_pow2; lia]. }
  assert (Lb : Z.log2 b < n \/ b = 0).
  { destruct (Z.eq_dec b 0); [right; assumption | left; apply Z.log2_lt_pow2; lia]. }
  destruct La as [La | ->], Lb as [Lb | ->]; try lia.
  - change (Z.log2 0) with 0. pose proof (Z.log2_nonneg a). lia.
  - change (Z.log2 0) with 0. pose proof (Z.log2_nonneg b). lia.
  - exfalso. apply Hnz. reflexivity.
Qed.

Lemma land_lt_pow2 n a b :
  0 <= a -> 0 <= b < 2 ^ n -> 0 <= Z.land a b < 2 ^ n.
Proof.
  intros Ha Hb.
  assert (H0 : 0 <= Z.land a b) by (apply Z.land_nonneg; lia).
  split; [exact H0 |].
  destruct (Z.eq_dec (Z.land a b) 0) as [-> | Hnz]; [lia |].
  assert (b <> 0) by (intros ->; rewrite Z.land_0_r in Hnz; congruence).
  assert (Hn : 0 <= n).
  { destruct (Z_lt_ge_dec n 0) as [Hneg |]; [| lia].
    rewrite Z.pow_neg_r in Hb by exact Hneg. lia. }
  apply Z.log2_lt_pow2; [lia |].
  pose proof (Z.log2_land a b Ha ltac:(lia)) as Hl.
  assert (Z.log2 b < n) by (apply Z.log2_lt_pow2; lia).
  lia.
Qed.

Lemma shr32_range n a k :
  0 <= k -> 0 <= a < 2 ^ n -> 0 <= shr32 a k < 2 ^ n.
Proof.
  intros Hk Ha. unfold shr32. rewrite Z.shiftr_div_pow2 by exact Hk.
  assert (0 < 2 ^ k) by (apply Z.pow_pos_nonneg; lia).
  split; [apply Z.div_pos; lia |].
  apply Z.le_lt_trans with a; [| lia].
  apply Z.div_le_upper_bound; [lia |]. nia.
Qed.

Lemma shl32_range a k : 0 <= shl32 a k < 2 ^ 32.
Proof. apply u32_range. Qed.

Lemma THUMB_SHUFFLE_range x : 0 <= x < 2 ^ 32 -> 0 <= THUMB_SHUFFLE x < 2 ^ 32.
Proof.
  intros Hx. unfold THUMB_SHUFFLE.
  apply lor_lt_pow2; [| apply shl32_range].
  apply shr32_range; [lia |]. apply land_lt_pow2; lia.
Qed.

(** ** The decoded target is a 32-bit word *)

Lemma decode_rel_target_range_aux data type addr target :
  0 <= data < 2 ^ 32 ->
  decode_rel_target data type addr = Some target ->
  0 <= target < 2 ^ 32.
Proof.
  intros Hd. unfold decode_rel_target.
  pose proof (THUMB_SHUFFLE_range data Hd) as Hs.
  destruct (is_case type [R_ARM_NONE; R_ARM_V4BX]);
    [intros H; apply Some_eq in H; subst target; lia |].
  destruct (is_case type [R_ARM_ABS32; R_ARM_TARGET1]);
    [intros H; apply Some_eq in H; subst target; lia |].
  destruct (is_case type [R_ARM_REL32; R_ARM_TARGET2]);
    [intros H; apply Some_eq in H; subst target; apply u32_range |].
  destruct (is_case type [R_ARM_PREL31]);
    [intros H; apply Some_eq in H; subst target; apply u32_range |].
  destruct (is_case type [R_ARM_THM_CALL]);
    [intros H; cbv zeta in H; apply Some_eq in H; subst target; apply u32_range |].
  destruct (is_case type [R_ARM_CALL; R_ARM_JUMP24]).
  { intros H; apply Some_eq in H; subst target. rewrite shl32_shr32_8.
    pose proof (Z.mod_pos_bound
                  (u32 (shl32 (Z.land data 0x00ffffff) 2 + addr)) (2 ^ 24) ltac:(lia)).
    lia. }
  destruct (is_case type [R_ARM_MOVW_ABS_NC]).
  { intros H; apply Some_eq in H; subst target. apply lor_lt_pow2.
    - apply shr32_range; [lia |]. apply land_lt_pow2; lia.
    - apply land_lt_pow2; lia. }
  destruct (is_case type [R_ARM_MOVT_ABS]);
    [intros H; apply Some_eq in H; subst target; apply shl32_range |].
  destruct (is_case type [R_ARM_THM_MOVW_ABS_NC]).
  { intros H; cbv zeta in H; apply Some_eq in H; subst target.
    repeat apply lor_lt_pow2; try apply shl32_range. apply land_lt_pow2; lia. }
  destruct (is_case type [R_ARM_THM_MOVT_ABS]); [| discriminate].
  intros H; cbv zeta in H; apply Some_eq in H; subst target.
  repeat apply lor_lt_pow2; apply shl32_range.
Qed.

(** Whatever the type, the target decoded from a 32-bit instruction word is
    a 32-bit word. *)
Theorem decode_rel_target_range data type addr target :
  0 <= data < 2 ^ 32 ->
  decode_rel_target data type addr = Some target ->
  0 <= target < 2 ^ 32.
Proof. apply decode_rel_target_range_aux. Qed.

Lemma decode_rel_target_range_witness :
  decode_rel_target 0xE30B0EEF R_ARM_MOVW_ABS_NC 0x81000 = Some 0xBEEF /\
  0 <= 0xBEEF < 2 ^ 32.
Proof.
  split; [reflexivity |].
  apply (decode_rel_target_range 0xE30B0EEF R_ARM_MOVW_ABS_NC 0x81000);
    [lia | reflexivity].
Defined.

(** ** Addends and the words they were recovered from *)

Lemma u32_s32 x : u32 (s32 x) = u32 x.
Proof.
  unfold s32. pose proof (u32_range x) as H.
  destruct (u32 x <? 2 ^ 31).
  - unfold u32. apply Z.mod_mod. lia.
  - unfold u32 at 1.
    replace (u32 x - 2 ^ 32) with (u32 x + (-1) * 2 ^ 32) by lia.
    rewrite Z.mod_add by lia. unfold u32. apply Z.mod_mod. lia.
Qed.

Lemma u32_add_s32 a t : 0 <= t < 2 ^ 32 -> u32 (a + s32 (t - a)) = t.
Proof.
  intros Ht. unfold u32 at 1.
  rewrite <- Zplus_mod_idemp_r.
  fold (u32 (s32 (t - a))). rewrite u32_s32. unfold u32.
  rewrite Zplus_mod_idemp_r.
  replace (a + (t - a)) with t by lia. apply Z.mod_small. exact Ht.
Qed.

Lemma load_rel_symbol_adjusted ve text rel currela rela k :
  load_rel ve text rel currela = Ok rela ->
  rela_symbol currela = None ->
  rela_symbol rela = Some k ->
  exists tab symbol text_addr text_data insn target,
    symtab ve = Some tab /\ tab !! k = Some symbol /\
    text = Some (text_addr, text_data) /\
    le32_at (d_buf text_data) (r_offset rel - text_addr) = Some insn /\
    rela_offset rela = u32 (r_offset rel) /\
    decode_rel_target insn (rela_type rela) (rela_offset rela) = Some target /\
    rela_addend rela =
      s32 (target - adjusted_symbol_value (rela_type rela) (symbol_value symbol)).
Proof.
  intros H Hcur Hk.
  destruct (load_rel_symbol _ _ _ _ _ _ H Hcur Hk)
    as (text_addr & text_data & insn & tab & symbol & target
        & Htext & Hinsn & Htab & Hsymbol & Hoff & Hdec & Hadd).
  exists tab, symbol, text_addr, text_data, insn, target.
  split; [assumption |]. split; [assumption |].
  split; [assumption |]. split; [assumption |]. split; [assumption |].
  split; [assumption |].
  rewrite Hadd. unfold adjusted_symbol_value.
  destruct (is_case (rela_type rela) [R_ARM_MOVT_ABS; R_ARM_THM_MOVT_ABS]); [reflexivity |].
  destruct (is_case (rela_type rela) [R_ARM_MOVW_ABS_NC; R_ARM_THM_MOVW_ABS_NC]);
    [reflexivity |].
  destruct (is_case (rela_type rela) [R_ARM_THM_CALL]); reflexivity.
Qed.

(** For every entry of a loaded table that carries a symbol: let [insn] be
    the little-endian word of the patched section at the entry's offset,
    and [target] what [decode_rel_target] makes of it.  Adding the addend
    back to the adjusted symbol value gives [target] again, as a 32-bit
    word, and the addend is in the range of [int32_t]: nothing of the
    target is lost in the addend. *)
Theorem loaded_rela_restores_target e ve shdr ve' rtable (i : nat) rela k :
  load_rel_table e ve shdr = Ok ve' ->
  head (rela_tables ve') = Some rtable ->
  relas rtable !! i = Some rela ->
  rela_symbol rela = Some k ->
  exists tab symbol text_addr text_data insn target,
    symtab ve' = Some tab /\
    tab !! k = Some symbol /\
    text_of e (target_ndx rtable) = Some (text_addr, text_data) /\
    le32_at (d_buf text_data) (rela_offset rela - text_addr) = Some insn /\
    decode_rel_target insn (rela_type rela) (rela_offset rela) = Some target /\
    u32 (adjusted_symbol_value (rela_type rela) (symbol_value symbol) + rela_addend rela)
      = target /\
    - 2 ^ 31 <= rela_addend rela < 2 ^ 31.
Proof.
  intros Hload Hhd Hi Hk.
  destruct (load_rel_table_slot _ _ _ _ _ Hload Hhd)
    as (ve1 & data & Hsym & Hdata & Htab & Htgt & Hnum & Hlen & Hslots).
  specialize (Hslots i).
  destruct (i <? Z.to_nat (d_size data / sh_entsize shdr))%nat.
  2:{ rewrite Hi in Hslots. symmetry in Hslots.
      apply lookup_replicate in Hslots. destruct Hslots as [-> _]. discriminate. }
  destruct Hslots as (rel & rela' & Hrel & Hld & Hi').
  assert (rela' = rela) as -> by congruence.
  destruct (load_rel_symbol_adjusted _ _ _ _ _ _ Hld eq_refl Hk)
    as (tab & symbol & text_addr & text_data & insn & target
        & Htab1 & Hsymbol & Htext & Hinsn & Hoff & Hdec & Hadd).
  assert (Hoff' : rela_offset rela = r_offset rel).
  { rewrite Hoff. apply u32_small. eapply gelf_getrel_range; eassumption. }
  exists tab, symbol, text_addr, text_data, insn, target.
  split; [congruence |]. split; [assumption |].
  split; [rewrite Htgt; assumption |].
  split; [rewrite Hoff'; assumption |].
  split; [assumption |].
  split.
  - rewrite Hadd. apply u32_add_s32.
    apply (decode_rel_target_range_aux insn (rela_type rela) (rela_offset rela));
      [eapply le32_at_range; eassumption | assumption].
  - rewrite Hadd. apply s32_range.
Qed.

Lemma loaded_rela_restores_target_witness :
  exists ve' rtable rela,
    load_rel_table Scenarios.S1 zero_elf (RelInputs.rel_section Scenarios.S1) = Ok ve' /\
    head (rela_tables ve') = Some rtable /\
    relas rtable !! 0%nat = Some rela /\
    rela_symbol rela = Some 1%nat /\
    exists tab symbol text_addr text_data insn target,
      symtab ve' = Some tab /\
      tab !! 1%nat = Some symbol /\
      text_of Scenarios.S1 (target_ndx rtable) = Some (text_addr, text_data) /\
      le32_at (d_buf text_data) (rela_offset rela - text_addr) = Some insn /\
      decode_rel_target insn (rela_type rela) (rela_offset rela) = Some target /\
      u32 (adjusted_symbol_value (rela_type rela) (symbol_value symbol) + rela_addend rela)
        = target /\
      - 2 ^ 31 <= rela_addend rela < 2 ^ 31.
Proof.
  eexists _, _, _.
  split; [vm_compute; reflexivity |].
  split; [vm_compute; reflexivity |].
  split; [vm_compute; reflexivity |].
  split; [reflexivity |].
  eapply (loaded_rela_restores_target Scenarios.S1 zero_elf
            (RelInputs.rel_section Scenarios.S1) _ _ 0%nat _ 1%nat);
    [vm_compute; reflexivity | vm_compute; reflexivity | vm_compute; reflexivity
     | reflexivity].
Defined.

(** ** The table a REL section is loaded into *)

(** A REL entry of type R_ARM_THM_JUMP24 is loaded exactly as the entry of
    type R_ARM_THM_CALL with the same offset and symbol would be: after
    loading the two cannot be told apart. *)
Theorem thm_jump24_loaded_as_thm_call ve text rel rel' currela :
  GELF_R_TYPE (r_info rel) = R_ARM_THM_JUMP24 ->
  GELF_R_TYPE (r_info rel') = R_ARM_THM_CALL ->
  r_offset rel' = r_offset rel ->
  GELF_R_SYM (r_info rel') = GELF_R_SYM (r_info rel) ->
  load_rel ve text rel currela = load_rel ve text rel' currela.
Proof.
  intros H1 H2 H3 H4. unfold load_rel. rewrite H1, H2, H3, H4.
  change (R_ARM_THM_JUMP24 =? R_ARM_THM_JUMP24) with true.
  change (R_ARM_THM_CALL =? R_ARM_THM_JUMP24) with false.
  cbv iota. reflexivity.
Qed.

Lemma thm_jump24_loaded_as_thm_call_witness :
  load_rel
    (LinkContexts.with_symbols [zero_symbol; LinkContexts.stub_symbol_at "a" 0x82001])
    (Some (0x81000, {| d_buf := [0xFF; 0xF7; 0xFE; 0xFF]; d_off := 0; d_size := 4 |}))
    {| r_offset := 0x81000; r_info := Z.shiftl 1 32 + R_ARM_THM_JUMP24 |} zero_rela
  = Ok {| rela_type := R_ARM_THM_CALL; rela_symbol := Some 1%nat;
          rela_offset := 0x81000; rela_addend := -0x1004 |}.
Proof.
  rewrite (thm_jump24_loaded_as_thm_call _ _ _
             {| r_offset := 0x81000; r_info := Z.shiftl 1 32 + R_ARM_THM_CALL |});
    reflexivity.
Defined.

Lemma load_rel_cases ve text rel rela :
  load_rel ve text rel zero_rela = Ok rela ->
  (loaded_type rel = R_ARM_THM_PC11 /\
   rela = {| rela_type := R_ARM_THM_PC11; rela_symbol := None;
             rela_offset := 0; rela_addend := 0 |}) \/
  (loaded_type rel <> R_ARM_THM_PC11 /\
   get_rel_handling (loaded_type rel) = REL_HANDLE_IGNORE /\
   rela = {| rela_type := loaded_type rel; rela_symbol := None;
             rela_offset := u32 (r_offset rel); rela_addend := 0 |}) \/
  (loaded_type rel <> R_ARM_THM_PC11 /\
   get_rel_handling (loaded_type rel) = REL_HANDLE_NORMAL /\
   GELF_R_SYM (r_info rel) < num_symbols ve /\
   rela_type rela = loaded_type rel /\
   rela_symbol rela = Some (Z.to_nat (GELF_R_SYM (r_info rel))) /\
   rela_offset rela = u32 (r_offset rel)).
Proof.
  unfold load_rel. fold (loaded_type rel).
  destruct (loaded_type rel =? R_ARM_THM_PC11) eqn:Epc.
  { apply Z.eqb_eq in Epc. intros H. apply Ok_eq in H. subst rela.
    left. split; [exact Epc |]. rewrite Epc. reflexivity. }
  apply Z.eqb_neq in Epc. intros H. right.
  inv_bind H as insn Hinsn.
  destruct (get_rel_handling (loaded_type rel)) eqn:Eh.
  - right. destruct (GELF_R_SYM (r_info rel) >=? num_symbols ve) eqn:Es; [discriminate |].
    rewrite Z.geb_leb in Es. apply Z.leb_gt in Es.
    inv_bind H as tab Htab. inv_bind H as symbol Hsymbol.
    destruct (decode_rel_target insn (loaded_type rel) (u32 (r_offset rel)));
      [| discriminate].
    apply Ok_eq in H. subst rela.
    split; [exact Epc |]. split; [reflexivity |]. split; [exact Es |].
    repeat split.
  - left. apply Ok_eq in H. subst rela. repeat split; assumption.
  - discriminate.
Qed.

(** A successful [load_rel_table] puts one new table at the head of the
    list and keeps the tables loaded before; the table patches the section
    [sh_info], has [sh_size / sh_entsize] slots, and none of them has the
    type R_ARM_THM_JUMP24.  The stub arrays and stub-section indexes are not
    touched. *)
Theorem load_rel_table_shape e ve shdr ve' :
  load_rel_table e ve shdr = Ok ve' ->
  exists rtable,
    rela_tables ve' = rtable :: rela_tables ve /\
    target_ndx rtable = sh_info shdr /\
    num_relas rtable = sh_size shdr / sh_entsize shdr /\
    Z.of_nat (length (relas rtable)) = num_relas rtable /\
    (forall (i : nat) rela,
        relas rtable !! i = Some rela -> rela_type rela <> R_ARM_THM_JUMP24) /\
    fstubs ve' = fstubs ve /\ vstubs ve' = vstubs ve /\
    fstubs_ndx ve' = fstubs_ndx ve /\ vstubs_ndx ve' = vstubs_ndx ve.
Proof.
  intros Hload.
  destruct (load_rel_table_keeps _ _ _ _ Hload) as (Hf & Hv & Hfs & Hvs & rtable & Hr).
  exists rtable.
  destruct (load_rel_table_slot e ve shdr ve' rtable Hload)
    as (ve1 & data & Hsym & Hdata & Htab & Htgt & Hnum & Hlen & Hslots).
  { rewrite Hr. reflexivity. }
  destruct (load_rel_table_Ok _ _ _ _ Hload) as (_ & _ & _ & _ & _ & Hn & _).
  split; [exact Hr |]. split; [exact Htgt |]. split; [exact Hnum |].
  split; [rewrite Hlen, Hnum; lia |].
  split; [| repeat split; assumption].
  intros i rela Hi. specialize (Hslots i).
  destruct (i <? Z.to_nat (d_size data / sh_entsize shdr))%nat.
  - destruct Hslots as (rel & rela' & _ & Hld & Hi').
    assert (rela' = rela) as -> by congruence.
    rewrite (load_rel_type _ _ _ _ _ Hld).
    destruct (GELF_R_TYPE (r_info rel) =? R_ARM_THM_JUMP24) eqn:E.
    + discriminate.
    + apply Z.eqb_neq. exact E.
  - rewrite Hi in Hslots. symmetry in Hslots.
    apply lookup_replicate in Hslots. destruct Hslots as [-> _]. discriminate.
Qed.

Lemma load_rel_table_shape_witness :
  exists ve' rtable,
    load_rel_table RelInputs.with_pc11 zero_elf
      (RelInputs.rel_section RelInputs.with_pc11) = Ok ve' /\
    rela_tables ve' = [rtable] /\
    target_ndx rtable = 1 /\ num_relas rtable = 2 /\ length (relas rtable) = 2%nat.
Proof.
  edestruct (load_rel_table_shape RelInputs.with_pc11 zero_elf
               (RelInputs.rel_section RelInputs.with_pc11))
    as (rtable & Hr & Ht & Hn & Hl & _); [vm_compute; reflexivity |].
  eexists _, rtable.
  split; [vm_compute; reflexivity |].
  split; [exact Hr |]. split; [exact Ht |]. split; [exact Hn |].
  apply Nat2Z.inj. rewrite Hl, Hn. reflexivity.
Defined.

(** When [load_rel_table] succeeds every REL entry it went through has been
    classified: an R_ARM_THM_PC11 entry (only the type is stored), an
    ignored type (type and offset are stored, no symbol), or a type with
    normal handling whose symbol index is below [num_symbols] (type, offset
    and symbol are stored).  No entry of an invalid type and no symbol
    index out of range is let through. *)
Theorem load_rel_table_entries e ve shdr ve' rtable data (i : nat) :
  load_rel_table e ve shdr = Ok ve' ->
  head (rela_tables ve') = Some rtable ->
  head (scn_data shdr) = Some data ->
  (i < Z.to_nat (d_size data / sh_entsize shdr))%nat ->
  exists rel rela,
    gelf_getrel data (Z.of_nat i) = Some rel /\
    relas rtable !! i = Some rela /\
    ((loaded_type rel = R_ARM_THM_PC11 /\
      rela = {| rela_type := R_ARM_THM_PC11; rela_symbol := None;
                rela_offset := 0; rela_addend := 0 |}) \/
     (get_rel_handling (loaded_type rel) = REL_HANDLE_IGNORE /\
      rela = {| rela_type := loaded_type rel; rela_symbol := None;
                rela_offset := r_offset rel; rela_addend := 0 |}) \/
     (get_rel_handling (loaded_type rel) = REL_HANDLE_NORMAL /\
      0 <= GELF_R_SYM (r_info rel) < num_symbols ve' /\
      rela_type rela = loaded_type rel /\
      rela_symbol rela = Some (Z.to_nat (GELF_R_SYM (r_info rel))) /\
      rela_offset rela = r_offset rel)).
Proof.
  intros Hload Hhd Hdata Hi.
  destruct (load_rel_table_slot _ _ _ _ _ Hload Hhd)
    as (ve1 & data' & Hsym & Hdata' & Htab & Htgt & Hnum & Hlen & Hslots).
  assert (data' = data) as -> by congruence.
  specialize (Hslots i). apply Nat.ltb_lt in Hi. rewrite Hi in Hslots.
  destruct Hslots as (rel & rela & Hrel & Hld & Hslot).
  exists rel, rela. split; [exact Hrel |]. split; [exact Hslot |].
  assert (Hoff : u32 (r_offset rel) = r_offset rel).
  { apply u32_small. eapply gelf_getrel_range; eassumption. }
  assert (Hnsym : num_symbols ve' = num_symbols ve1).
  { destruct (load_rel_table_Ok _ _ _ _ Hload) as (ve2 & ? & ? & Hsym2 & _ & _ & _ & _ & ->).
    assert (ve2 = ve1) as -> by congruence. reflexivity. }
  assert (Hsympos : 0 <= GELF_R_SYM (r_info rel)).
  { unfold GELF_R_SYM. apply Z.shiftr_nonneg.
    unfold gelf_getrel in Hrel.
    destruct ((0 <=? Z.of_nat i) && ((Z.of_nat i + 1) * 8 <=? d_size data));
      [| discriminate].
    destruct (le32_at (d_buf data) (Z.of_nat i * 8)); [| discriminate].
    destruct (le32_at (d_buf data) (Z.of_nat i * 8 + 4)) as [w |] eqn:Ew; [| discriminate].
    apply Some_eq in Hrel. subst rel. cbn [r_info].
    pose proof (le32_at_range _ _ _ Ew) as Hw.
    assert (0 <= Z.shiftl (Z.shiftr w 8) 32).
    { apply Z.shiftl_nonneg, Z.shiftr_nonneg. lia. }
    assert (0 <= Z.land w 0xff) by (apply Z.land_nonneg; lia).
    lia. }
  destruct (load_rel_cases _ _ _ _ Hld) as [[Hpc ->] | [(Hpc & Hh & ->) | Hn]].
  - left. split; [exact Hpc | reflexivity].
  - right. left. rewrite Hoff. split; [exact Hh | reflexivity].
  - right. right. destruct Hn as (Hpc & Hh & Hs & Hty & Hsy & Ho).
    rewrite Hnsym, <- Hoff. repeat split; assumption.
Qed.

Lemma load_rel_table_entries_witness :
  exists ve' rtable rel rela,
    load_rel_table Scenarios.S1 zero_elf (RelInputs.rel_section Scenarios.S1) = Ok ve' /\
    head (rela_tables ve') = Some rtable /\
    gelf_getrel (RelInputs.rel_data Scenarios.S1) 0 = Some rel /\
    relas rtable !! 0%nat = Some rela /\
    get_rel_handling (loaded_type rel) = REL_HANDLE_NORMAL /\
    rela_symbol rela = Some 1%nat.
Proof.
  edestruct (load_rel_table_entries Scenarios.S1 zero_elf
               (RelInputs.rel_section Scenarios.S1)) with (i := 0%nat)
    as (rel & rela & Hrel & Hslot & Hcases);
    [vm_compute; reflexivity | vm_compute; reflexivity | vm_compute; reflexivity
     | vm_compute; lia |].
  eexists _, _, rel, rela.
  split; [vm_compute; reflexivity |].
  split; [vm_compute; reflexivity |].
  split; [exact Hrel |]. split; [exact Hslot |].
  vm_compute in Hrel. apply Some_eq in Hrel. subst rel.
  vm_compute in Hslot. apply Some_eq in Hslot. subst rela.
  split; reflexivity.
Defined.

(** ** Stub loader *)

(** The inner loop of [load_stubs] fills the [n] slots from [cur] on, one
    per 16 bytes of the chunk, and leaves the others alone. *)
Lemma load_stubs_chunk_lookup shdr_addr data n :
  forall chunk_offset stubs cur stubs' cur',
    load_stubs_chunk n chunk_offset shdr_addr data stubs cur = Ok (stubs', cur') ->
    cur' = (cur + n)%nat /\
    length stubs' = length stubs /\
    forall j : nat,
      if (cur <=? j)%nat && (j <? cur + n)%nat then
        exists w0 w1 w2 old,
          le32_at (d_buf data) (chunk_offset + 16 * Z.of_nat (j - cur)) = Some w0 /\
          le32_at (d_buf data) (chunk_offset + 16 * Z.of_nat (j - cur) + 4) = Some w1 /\
          le32_at (d_buf data) (chunk_offset + 16 * Z.of_nat (j - cur) + 8) = Some w2 /\
          stubs !! j = Some old /\
          stubs' !! j =
            Some {| stub_addr :=
                      u32 (shdr_addr + d_off data
                           + (chunk_offset + 16 * Z.of_nat (j - cur)));
                    library_nid := w0; module_nid := w1; target_nid := w2;
                    stub_symbol := stub_symbol old; stub_library := stub_library old;
                    stub_module := stub_module old; stub_target := stub_target old |}
      else stubs' !! j = stubs !! j.
Proof.
  induction n as [| n IH]; intros chunk_offset stubs cur stubs' cur' H;
    cbn [load_stubs_chunk] in H.
  - apply Ok_eq in H. injection H as <- <-.
    split; [lia |]. split; [reflexivity |]. intros j.
    destruct (cur <=? j)%nat eqn:E1; destruct (j <? cur + 0)%nat eqn:E2;
      cbn [andb]; try reflexivity.
    apply Nat.leb_le in E1. apply Nat.ltb_lt in E2. lia.
  - inv_bind H as old Hold. inv_ok Hold.
    inv_bind H as w0 Hw0. inv_ok Hw0.
    inv_bind H as w1 Hw1. inv_ok Hw1.
    inv_bind H as w2 Hw2. inv_ok Hw2.
    apply IH in H. destruct H as (-> & Hlen & H).
    rewrite length_insert in Hlen.
    split; [lia |]. split; [exact Hlen |].
    intros j. specialize (H j).
    destruct (Nat.eq_dec j cur) as [-> | Hne].
    + replace ((cur <=? cur)%nat && (cur <? cur + S n)%nat) with true
        by (symmetry; apply andb_true_intro; split;
            [apply Nat.leb_le | apply Nat.ltb_lt]; lia).
      replace (S cur <=? cur)%nat with false in H by (symmetry; apply Nat.leb_gt; lia).
      cbn [andb] in H.
      exists w0, w1, w2, old.
      replace (chunk_offset + 16 * Z.of_nat (cur - cur)) with chunk_offset by lia.
      repeat split; try assumption.
      rewrite H. apply list_lookup_insert_eq. eapply lookup_lt_Some; eassumption.
    + destruct (S cur <=? j)%nat eqn:E1; destruct (j <? S cur + n)%nat eqn:E2;
        cbn [andb] in H.
      * apply Nat.leb_le in E1. apply Nat.ltb_lt in E2.
        replace ((cur <=? j)%nat && (j <? cur + S n)%nat) with true
          by (symmetry; apply andb_true_intro; split;
              [apply Nat.leb_le | apply Nat.ltb_lt]; lia).
        destruct H as (v0 & v1 & v2 & old' & H0 & H1 & H2 & H3 & H4).
        exists v0, v1, v2, old'.
        replace (chunk_offset + 16 * Z.of_nat (j - cur))
          with (chunk_offset + 16 + 16 * Z.of_nat (j - S cur)) by lia.
        rewrite list_lookup_insert_ne in H3 by lia.
        repeat split; assumption.
      * apply Nat.ltb_ge in E2.
        replace (j <? cur + S n)%nat with false by (symmetry; apply Nat.ltb_ge; lia).
        rewrite andb_false_r. rewrite H. apply list_lookup_insert_ne. lia.
      * apply Nat.leb_gt in E1.
        replace (cur <=? j)%nat with false by (symmetry; apply Nat.leb_gt; lia).
        cbn [andb]. rewrite H. apply list_lookup_insert_ne. lia.
      * apply Nat.leb_gt in E1.
        replace (cur <=? j)%nat with false by (symmetry; apply Nat.leb_gt; lia).
        cbn [andb]. rewrite H. apply list_lookup_insert_ne. lia.
Qed.

Lemma load_stubs_data_length chunks :
  forall total_bytes shdr_size shdr_addr stubs cur stubs',
    load_stubs_data chunks total_bytes shdr_size shdr_addr stubs cur = Ok stubs' ->
    length stubs' = length stubs.
Proof.
  induction chunks as [| data rest IH]; intros total size addr stubs cur stubs' H;
    cbn [load_stubs_data] in H.
  - apply Ok_eq in H. subst. reflexivity.
  - destruct (total <? size); [| apply Ok_eq in H; subst; reflexivity].
    inv_bind H as r Hr. destruct r as [stubs1 cur1].
    apply load_stubs_chunk_lookup in Hr. destruct Hr as (_ & Hlen & _).
    apply IH in H. cbn [fst] in H. congruence.
Qed.

(** The stub array has [sh_size / 16] slots, however the section's data
    comes in chunks. *)
Theorem load_stubs_count scn num_stubs stubs :
  load_stubs scn = Ok (num_stubs, stubs) ->
  num_stubs = sh_size scn / 16 /\
  Z.of_nat (length stubs) = num_stubs.
Proof.
  unfold load_stubs. intros H.
  inv_bind H as n Hn. apply to_int_Ok in Hn. destruct Hn as [-> Hn].
  inv_bind H as stubs' Hdata. apply Ok_eq in H. injection H as <- <-.
  split; [reflexivity |].
  apply load_stubs_data_length in Hdata. rewrite Hdata, length_replicate. lia.
Qed.

Lemma load_stubs_count_witness :
  exists stubs,
    load_stubs (Scenarios.section 2 SHT_PROGBITS 0x82000 0 0 0
                  (Scenarios.stub_slot 1 2 3 ++ Scenarios.stub_slot 4 5 6))
      = Ok (2, stubs) /\
    Z.of_nat (length stubs) = 2.
Proof.
  eexists. split; [vm_compute; reflexivity |].
  eapply (proj2 (load_stubs_count
                   (Scenarios.section 2 SHT_PROGBITS 0x82000 0 0 0
                      (Scenarios.stub_slot 1 2 3 ++ Scenarios.stub_slot 4 5 6)) 2 _ _)).
  Unshelve. vm_compute. reflexivity.
Defined.

(** When the section's data is one chunk, slot [k] of the array is the
    stub of the [k]-th 16 bytes of the chunk: its address is the section's
    address plus the offset of the slot, its three NIDs are the first three
    little-endian words of the slot, and it is not bound to anything. *)
Theorem load_stubs_slots scn data num_stubs stubs (k : nat) :
  scn_data scn = [data] ->
  0 < sh_size scn ->
  load_stubs scn = Ok (num_stubs, stubs) ->
  (k < Z.to_nat ((d_size data + 15) / 16))%nat ->
  exists w0 w1 w2,
    le32_at (d_buf data) (16 * Z.of_nat k) = Some w0 /\
    le32_at (d_buf data) (16 * Z.of_nat k + 4) = Some w1 /\
    le32_at (d_buf data) (16 * Z.of_nat k + 8) = Some w2 /\
    stubs !! k =
      Some {| stub_addr := u32 (sh_addr scn + d_off data + 16 * Z.of_nat k);
              library_nid := w0; module_nid := w1; target_nid := w2;
              stub_symbol := None; stub_library := 0;
              stub_module := 0; stub_target := 0 |}.
Proof.
  unfold load_stubs. intros Hdata Hsize H Hk.
  inv_bind H as n Hn. inv_bind H as stubs' Hload. apply Ok_eq in H. injection H as <- <-.
  rewrite Hdata in Hload. cbn [load_stubs_data] in Hload.
  replace (0 <? sh_size scn) with true in Hload by (symmetry; apply Z.ltb_lt; lia).
  inv_bind Hload as r Hr. destruct r as [stubs1 cur1]. cbn [fst] in Hload.
  apply Ok_eq in Hload. subst stubs1.
  apply load_stubs_chunk_lookup in Hr. destruct Hr as (_ & _ & Hr).
  specialize (Hr k).
  replace ((0 <=? k)%nat && (k <? 0 + Z.to_nat ((d_size data + 15) / 16))%nat)
    with true in Hr
    by (symmetry; apply andb_true_intro; split;
        [apply Nat.leb_le | apply Nat.ltb_lt]; lia).
  destruct Hr as (w0 & w1 & w2 & old & H0 & H1 & H2 & Hold & Hnew).
  apply lookup_replicate in Hold. destruct Hold as [-> _].
  replace (0 + 16 * Z.of_nat (k - 0)) with (16 * Z.of_nat k) in * by lia.
  exists w0, w1, w2. repeat split; assumption.
Qed.

Lemma load_stubs_slots_witness :
  exists stubs,
    load_stubs (Scenarios.section 2 SHT_PROGBITS 0x82000 0 0 0
                  (Scenarios.stub_slot 1 2 3 ++ Scenarios.stub_slot 4 5 6))
      = Ok (2, stubs) /\
    stubs !! 1%nat =
      Some {| stub_addr := 0x82010; library_nid := 4; module_nid := 5; target_nid := 6;
              stub_symbol := None; stub_library := 0;
              stub_module := 0; stub_target := 0 |}.
Proof.
  edestruct (load_stubs_slots
               (Scenarios.section 2 SHT_PROGBITS 0x82000 0 0 0
                  (Scenarios.stub_slot 1 2 3 ++ Scenarios.stub_slot 4 5 6)))
    with (k := 1%nat) as (w0 & w1 & w2 & H0 & H1 & H2 & H);
    [reflexivity | vm_compute; reflexivity | vm_compute; reflexivity
     | vm_compute; lia |].
  eexists. split; [vm_compute; reflexivity |].
  vm_compute in H0. apply Some_eq in H0. subst w0.
  vm_compute in H1. apply Some_eq in H1. subst w1.
  vm_compute in H2. apply Some_eq in H2. subst w2.
  exact H.
Defined.

(** ** Symbol-table loader *)

(** The inner loop of [load_symbols] stores entry [symndx] of the chunk at
    index [symndx + data_beginsym] of the table. *)
Lemma load_symbols_chunk_lookup e shdr_link data data_beginsym n :
  forall symndx symtab symtab',
    0 <= symndx -> 0 <= data_beginsym ->
    load_symbols_chunk n symndx e shdr_link data data_beginsym symtab = Ok symtab' ->
    length symtab' = length symtab /\
    forall j : nat,
      if (Z.to_nat (symndx + data_beginsym) <=? j)%nat
         && (j <? Z.to_nat (symndx + data_beginsym) + n)%nat then
        exists sym,
          gelf_getsym data (Z.of_nat j - data_beginsym) = Some sym /\
          symtab' !! j = Some (load_symbol e shdr_link sym)
      else symtab' !! j = symtab !! j.
Proof.
  induction n as [| n IH]; intros symndx symtab symtab' Hs Hb H;
    cbn [load_symbols_chunk] in H.
  - apply Ok_eq in H. subst. split; [reflexivity |]. intros j.
    destruct (Z.to_nat (symndx + data_beginsym) <=? j)%nat eqn:E1;
      destruct (j <? Z.to_nat (symndx + data_beginsym) + 0)%nat eqn:E2;
      cbn [andb]; try reflexivity.
    apply Nat.leb_le in E1. apply Nat.ltb_lt in E2. lia.
  - destruct (gelf_getsym data symndx) as [sym |] eqn:Hsym; [| discriminate].
    destruct ((0 <=? symndx + data_beginsym)
              && (symndx + data_beginsym <? Z.of_nat (length symtab))) eqn:Hin;
      [| discriminate].
    apply andb_true_iff in Hin. destruct Hin as [_ Hin]. apply Z.ltb_lt in Hin.
    apply IH in H; [| lia | lia]. destruct H as [Hlen H].
    rewrite length_insert in Hlen. split; [exact Hlen |].
    intros j. specialize (H j).
    replace (Z.to_nat (symndx + 1 + data_beginsym))
      with (S (Z.to_nat (symndx + data_beginsym))) in H by lia.
    set (c := Z.to_nat (symndx + data_beginsym)) in *.
    destruct (Nat.eq_dec j c) as [-> | Hne].
    + replace ((c <=? c)%nat && (c <? c + S n)%nat) with true
        by (symmetry; apply andb_true_intro; split;
            [apply Nat.leb_le | apply Nat.ltb_lt]; lia).
      replace (S c <=? c)%nat with false in H by (symmetry; apply Nat.leb_gt; lia).
      cbn [andb] in H. exists sym.
      replace (Z.of_nat c - data_beginsym) with symndx by (unfold c; lia).
      split; [exact Hsym |].
      rewrite H. apply list_lookup_insert_eq. unfold c. lia.
    + destruct (S c <=? j)%nat eqn:E1; destruct (j <? S c + n)%nat eqn:E2;
        cbn [andb] in H.
      * apply Nat.leb_le in E1. apply Nat.ltb_lt in E2.
        replace ((c <=? j)%nat && (j <? c + S n)%nat) with true
          by (symmetry; apply andb_true_intro; split;
              [apply Nat.leb_le | apply Nat.ltb_lt]; lia).
        exact H.
      * apply Nat.ltb_ge in E2.
        replace (j <? c + S n)%nat with false by (symmetry; apply Nat.ltb_ge; lia).
        rewrite andb_false_r. rewrite H. apply list_lookup_insert_ne. lia.
      * apply Nat.leb_gt in E1.
        replace (c <=? j)%nat with false by (symmetry; apply Nat.leb_gt; lia).
        cbn [andb]. rewrite H. apply list_lookup_insert_ne. lia.
      * apply Nat.leb_gt in E1.
        replace (c <=? j)%nat with false by (symmetry; apply Nat.leb_gt; lia).
        cbn [andb]. rewrite H. apply list_lookup_insert_ne. lia.
Qed.

Lemma load_symbols_data_length e shdr chunks :
  forall total_bytes symtab symtab',
    load_symbols_data chunks total_bytes e shdr symtab = Ok symtab' ->
    length symtab' = length symtab.
Proof.
  induction chunks as [| data rest IH]; intros total symtab symtab' H;
    cbn [load_symbols_data] in H.
  - apply Ok_eq in H. subst. reflexivity.
  - destruct (total <? sh_size shdr); [| apply Ok_eq in H; subst; reflexivity].
    inv_bind H as tab1 Htab1.
    assert (length tab1 = length symtab).
    { clear H IH. revert Htab1.
      generalize (Z.to_nat (d_size data / sh_entsize shdr)) as n.
      generalize 0 as symndx. intros symndx n. revert symndx symtab.
      induction n as [| n IHn]; intros symndx symtab H; cbn [load_symbols_chunk] in H.
      - apply Ok_eq in H. subst. reflexivity.
      - destruct (gelf_getsym data symndx); [| discriminate].
        destruct ((0 <=? symndx + d_off data / sh_entsize shdr)
                  && (symndx + d_off data / sh_entsize shdr <? Z.of_nat (length symtab)));
          [| discriminate].
        apply IHn in H. rewrite length_insert in H. exact H. }
    apply IH in H. congruence.
Qed.

Lemma load_symbols_Ok e ve scn ve' :
  load_symbols e ve scn = Ok ve' ->
  (elf_ndxscn scn = symtab_ndx ve /\ ve' = ve) \/
  (elf_ndxscn scn <> symtab_ndx ve /\ symtab ve = None /\
   exists ndx shdr tab,
     scn = Some (ndx, shdr) /\
     symtab ve' = Some tab /\
     symtab_ndx ve' = ndx /\
     num_symbols ve' = sh_size shdr / sh_entsize shdr /\
     Z.of_nat (length tab) = num_symbols ve').
Proof.
  unfold load_symbols.
  destruct (elf_ndxscn scn =? symtab_ndx ve) eqn:E.
  { apply Z.eqb_eq in E. intros H. apply Ok_eq in H. left. split; congruence. }
  apply Z.eqb_neq in E. right. split; [exact E |].
  destruct (symtab ve); [discriminate |]. split; [reflexivity |].
  inv_bind H as s Hs. inv_ok Hs. destruct s as [ndx shdr]. cbn [fst snd] in H.
  destruct (sh_entsize shdr =? 0); [discriminate |].
  inv_bind H as n Hn. apply to_int_Ok in Hn. destruct Hn as [-> Hn].
  inv_bind H as tab Htab. apply Ok_eq in H. subst ve'.
  exists ndx, shdr, tab. cbn [set_symtab symtab symtab_ndx num_symbols].
  repeat split; try assumption.
  apply load_symbols_data_length in Htab. rewrite Htab, length_replicate. lia.
Qed.

(** What a call of [load_symbols] that returns success has done: nothing
    when asked for the table already loaded (in a fresh context, whose
    [symtab_ndx] is 0, that is also the answer for section 0 and for a
    section that does not exist); otherwise there was no table, and the
    context now holds one of [sh_size / sh_entsize] entries taken from the
    section. *)
Theorem load_symbols_loaded e ve scn ve' :
  load_symbols e ve scn = Ok ve' ->
  (elf_ndxscn scn = symtab_ndx ve /\ ve' = ve) \/
  (elf_ndxscn scn <> symtab_ndx ve /\ symtab ve = None /\
   exists ndx shdr tab,
     scn = Some (ndx, shdr) /\
     symtab ve' = Some tab /\
     symtab_ndx ve' = ndx /\
     num_symbols ve' = sh_size shdr / sh_entsize shdr /\
     Z.of_nat (length tab) = num_symbols ve').
Proof. apply load_symbols_Ok. Qed.

Lemma load_symbols_loaded_witness :
  exists ve' tab,
    load_symbols Scenarios.S1 zero_elf (elf_getscn Scenarios.S1 3) = Ok ve' /\
    symtab ve' = Some tab /\ symtab_ndx ve' = 3 /\ num_symbols ve' = 2 /\
    length tab = 2%nat /\
    load_symbols Scenarios.S1 zero_elf (elf_getscn Scenarios.S1 0) = Ok zero_elf.
Proof.
  destruct (load_symbols_loaded Scenarios.S1 zero_elf (elf_getscn Scenarios.S1 3)
              (set_symtab zero_elf 3
                 [load_symbol Scenarios.S1 4
                    {| st_name := 0; st_value := 0; st_info := 0; st_shndx := 0 |};
                  load_symbol Scenarios.S1 4
                    {| st_name := 1; st_value := 0x81001; st_info := 2; st_shndx := 1 |}] 2))
    as [[Hndx _] | (_ & _ & ndx & shdr & tab & Hscn & Htab & Hi & Hn & Hl)];
    [vm_compute; reflexivity | vm_compute in Hndx; discriminate |].
  eexists _, tab.
  split; [vm_compute; reflexivity |].
  split; [exact Htab |]. split; [reflexivity |]. split; [reflexivity |].
  split; [apply Nat2Z.inj; rewrite Hl; reflexivity |].
  reflexivity.
Defined.

(** Once a symbol table is loaded, asking for the same section again
    changes nothing, and asking for any other section is the fatal
    "multiple symbol tables". *)
Theorem load_symbols_once e ve scn ve' :
  load_symbols e ve scn = Ok ve' ->
  symtab ve' <> None ->
  load_symbols e ve' scn = Ok ve' /\
  forall scn2,
    elf_ndxscn scn2 <> symtab_ndx ve' ->
    load_symbols e ve' scn2 = Fail D_multiple_symtabs.
Proof.
  intros H Hsome. split.
  - destruct (load_symbols_Ok _ _ _ _ H)
      as [[Hndx ->] | (_ & _ & ndx & shdr & tab & -> & _ & Hi & _)];
      unfold load_symbols.
    + rewrite Hndx, Z.eqb_refl. reflexivity.
    + cbn [elf_ndxscn]. rewrite Hi, Z.eqb_refl. reflexivity.
  - intros scn2 Hne. unfold load_symbols.
    apply Z.eqb_neq in Hne. rewrite Hne.
    destruct (symtab ve'); [reflexivity | congruence].
Qed.

Lemma load_symbols_once_witness :
  exists ve',
    load_symbols Scenarios.S1 zero_elf (elf_getscn Scenarios.S1 3) = Ok ve' /\
    load_symbols Scenarios.S1 ve' (elf_getscn Scenarios.S1 3) = Ok ve' /\
    load_symbols Scenarios.S1 ve' (elf_getscn Scenarios.S1 4) = Fail D_multiple_symtabs.
Proof.
  edestruct (load_symbols_once Scenarios.S1 zero_elf (elf_getscn Scenarios.S1 3))
    as [H1 H2]; [vm_compute; reflexivity | vm_compute; discriminate |].
  eexists. split; [vm_compute; reflexivity |].
  split; [exact H1 |].
  apply H2. vm_compute. discriminate.
Defined.

(** When the section's data is one chunk at offset 0, entry [i] of the
    loaded table is entry [i] of the chunk: its value and section index, its
    type and binding split out of [st_info], its name looked up in the
    string table [sh_link]. *)
Theorem load_symbols_entries e ve ndx shdr ve' data tab (i : nat) :
  load_symbols e ve (Some (ndx, shdr)) = Ok ve' ->
  ndx <> symtab_ndx ve ->
  scn_data shdr = [data] ->
  d_off data = 0 ->
  0 < sh_size shdr ->
  symtab ve' = Some tab ->
  (i < Z.to_nat (d_size data / sh_entsize shdr))%nat ->
  exists sym,
    gelf_getsym data (Z.of_nat i) = Some sym /\
    tab !! i =
      Some {| symbol_name := elf_strptr e (sh_link shdr) (st_name sym);
              symbol_value := st_value sym;
              symbol_type := Z.land (st_info sym) 0xf;
              symbol_binding := Z.shiftr (st_info sym) 4;
              symbol_shndx := st_shndx sym |}.
Proof.
  unfold load_symbols. cbn [elf_ndxscn]. intros H Hne Hdata Hoff Hsize Htab Hi.
  apply Z.eqb_neq in Hne. rewrite Hne in H.
  destruct (symtab ve); [discriminate |].
  cbn [defined rbind fst snd] in H.
  destruct (sh_entsize shdr =? 0); [discriminate |].
  inv_bind H as n Hn. inv_bind H as tab' Hload. apply Ok_eq in H. subst ve'.
  cbn [set_symtab symtab] in Htab. apply Some_eq in Htab. subst tab'.
  rewrite Hdata in Hload. cbn [load_symbols_data] in Hload.
  replace (0 <? sh_size shdr) with true in Hload by (symmetry; apply Z.ltb_lt; lia).
  inv_bind Hload as tab1 Htab1. apply Ok_eq in Hload. subst tab1.
  rewrite Hoff in Htab1. rewrite Z.div_0_l in Htab1.
  2:{ intros E0. rewrite E0 in Hi. rewrite Z.div_0_r in Hi. cbn in Hi. lia. }
  apply load_symbols_chunk_lookup in Htab1; [| lia | lia].
  destruct Htab1 as [_ Hl]. specialize (Hl i).
  replace ((Z.to_nat (0 + 0) <=? i)%nat
           && (i <? Z.to_nat (0 + 0) + Z.to_nat (d_size data / sh_entsize shdr))%nat)
    with true in Hl
    by (symmetry; apply andb_true_intro; split;
        [apply Nat.leb_le | apply Nat.ltb_lt]; cbn; lia).
  destruct Hl as (sym & Hsym & Hl). exists sym.
  rewrite Z.sub_0_r in Hsym. split; [exact Hsym | exact Hl].
Qed.

Lemma load_symbols_entries_witness :
  exists ve' tab,
    load_symbols Scenarios.S1 zero_elf (elf_getscn Scenarios.S1 3) = Ok ve' /\
    symtab ve' = Some tab /\
    tab !! 1%nat =
      Some {| symbol_name := Some "S"%string; symbol_value := 0x81001;
              symbol_type := STT_FUNC; symbol_binding := 0; symbol_shndx := 1 |}.
Proof.
  edestruct (load_symbols_entries Scenarios.S1 zero_elf 3
               (default (Scenarios.section 0 0 0 0 0 0 []) (elf_scns Scenarios.S1 !! 3%nat)))
    with (i := 1%nat) as (sym & Hsym & Htab);
    [vm_compute; reflexivity | discriminate | reflexivity | reflexivity
     | vm_compute; reflexivity | vm_compute; reflexivity | vm_compute; lia |].
  eexists _, _. split; [vm_compute; reflexivity |].
  split; [vm_compute; reflexivity |].
  vm_compute in Hsym. apply Some_eq in Hsym. subst sym.
  exact Htab.
Defined.

(** ** Sections the reader refuses *)

Lemma load_stub_section_other ve ndx shdr name :
  String.eqb name ".vitalink.fstubs" = false ->
  String.eqb name ".vitalink.vstubs" = false ->
  load_stub_section ve ndx shdr name = Ok ve.
Proof.
  intros Hf Hv. unfold load_stub_section. rewrite Hf, Hv, !andb_false_r. reflexivity.
Qed.

Lemma debug_section_not_stub name :
  existsb (String.eqb name) debug_sections = true ->
  String.eqb name ".vitalink.fstubs" = false /\
  String.eqb name ".vitalink.vstubs" = false.
Proof.
  intros H. apply existsb_exists in H. destruct H as (d & Hin & Hd).
  apply String.eqb_eq in Hd. subst d.
  destruct Hin as [<- | [<- | [<- | [<- | []]]]]; split; reflexivity.
Qed.

Lemma load_section_refused e shstrndx ve ndx shdr name :
  elf_strptr e shstrndx (sh_name shdr) = Some name ->
  existsb (String.eqb name) debug_sections = true \/ sh_type shdr = SHT_RELA ->
  load_section e shstrndx ve ndx shdr =
    Fail (if existsb (String.eqb name) debug_sections
          then D_debug_info else D_rela_unsupported).
Proof.
  intros Hname Hwhy. unfold load_section. rewrite Hname.
  destruct (existsb (String.eqb name) debug_sections) eqn:Edbg.
  - destruct (debug_section_not_stub _ Edbg) as [Hf Hv].
    rewrite (load_stub_section_other _ _ _ _ Hf Hv). reflexivity.
  - destruct Hwhy as [? | Hrela]; [discriminate |].
    unfold load_stub_section. rewrite Hrela.
    change (SHT_RELA =? SHT_PROGBITS) with false.
    change (SHT_RELA =? SHT_SYMTAB) with false.
    change (SHT_RELA =? SHT_REL) with false.
    change (SHT_RELA =? SHT_RELA) with true.
    reflexivity.
Qed.

(** A section with one of the four debug names, or a RELA section, among
    the sections the loader scans makes the load fail.  When the sections
    before it are scanned without error, the failure is the report on
    debugging information for a debug name, and "RELA sections currently
    unsupported" otherwise. *)
Theorem debug_and_rela_sections_fatal e mmap shstrndx pre shdr post name :
  elf_shstrndx e = Some shstrndx ->
  tail (elf_scns e) = pre ++ shdr :: post ->
  elf_strptr e shstrndx (sh_name shdr) = Some name ->
  In name debug_sections \/ sh_type shdr = SHT_RELA ->
  (vita_elf_load (Some e) mmap <> Undef ->
     exists d, vita_elf_load (Some e) mmap = Fail d) /\
  (forall ve1,
      check_header (Some e) = Ok (e, shstrndx) ->
      scan_sections e shstrndx pre 1 zero_elf = Ok ve1 ->
      vita_elf_load (Some e) mmap =
        Fail (if existsb (String.eqb name) debug_sections
              then D_debug_info else D_rela_unsupported)).
Proof.
  intros Hstr Htail Hname Hwhy.
  assert (Hwhy' : existsb (String.eqb name) debug_sections = true
                  \/ sh_type shdr = SHT_RELA).
  { destruct Hwhy as [Hin | Hr]; [left | right; exact Hr].
    apply existsb_exists. exists name. split; [exact Hin | apply String.eqb_refl]. }
  assert (Hstop : forall ve1,
             scan_sections e shstrndx pre 1 zero_elf = Ok ve1 ->
             scan_sections e shstrndx (tail (elf_scns e)) 1 zero_elf =
               Fail (if existsb (String.eqb name) debug_sections
                     then D_debug_info else D_rela_unsupported)).
  { intros ve1 Hpre. rewrite Htail, scan_sections_app, Hpre.
    cbn [rbind scan_sections].
    rewrite (load_section_refused _ _ _ _ _ _ Hname Hwhy'). reflexivity. }
  split.
  - intros Hdef. apply not_Ok_Fail; [exact Hdef |].
    intros ve Hload. apply vita_elf_load_Ok in Hload.
    destruct Hload as (e' & s' & ve1 & Hhdr & Hscan & _).
    destruct (check_header_Ok _ _ _ Hhdr) as [He Hs'].
    apply Some_eq in He. subst e'. assert (s' = shstrndx) as -> by congruence.
    pose proof Hscan as Hscan'.
    rewrite Htail, scan_sections_app in Hscan'.
    inv_bind Hscan' as veA HA.
    rewrite (Hstop veA HA) in Hscan. discriminate.
  - intros ve1 Hhdr Hpre. unfold vita_elf_load. rewrite Hhdr. cbn [rbind fst snd].
    rewrite (Hstop ve1 Hpre). reflexivity.
Qed.

Lemma debug_and_rela_sections_fatal_witness :
  vita_elf_load (Some MoreSectionInputs.with_debug_info) Scenarios.mmap = Fail D_debug_info /\
  vita_elf_load (Some MoreSectionInputs.with_rela) Scenarios.mmap = Fail D_rela_unsupported.
Proof.
  split.
  - eapply (proj2 (debug_and_rela_sections_fatal MoreSectionInputs.with_debug_info
                     Scenarios.mmap 6
                     (firstn 6 (tail (elf_scns MoreSectionInputs.with_debug_info)))
                     _ [] ".rel.debug_info"
                     eq_refl eq_refl eq_refl (or_introl (or_introl eq_refl))));
      [reflexivity | vm_compute; reflexivity].
  - eapply (proj2 (debug_and_rela_sections_fatal MoreSectionInputs.with_rela
                     Scenarios.mmap 6
                     (firstn 6 (tail (elf_scns MoreSectionInputs.with_rela)))
                     _ [] ".rel.text"
                     eq_refl eq_refl eq_refl (or_intror eq_refl)));
      [reflexivity | vm_compute; reflexivity].
Defined.

(** ** The loaded context *)

Lemma load_segments_lookup mmap phdrs :
  forall segndx segs,
    load_segments mmap phdrs segndx = Ok segs ->
    length segs = length phdrs /\
    forall (i : nat) phdr,
      phdrs !! i = Some phdr ->
      exists seg,
        segs !! i = Some seg /\
        seg_type seg = p_type phdr /\
        seg_vaddr seg = p_vaddr phdr /\
        seg_memsz seg = p_memsz phdr /\
        (p_memsz phdr <> 0 ->
           vaddr_top seg = mmap (segndx + i)%nat (p_memsz phdr) /\
           vaddr_top seg <> 0 /\
           vaddr_top seg <> MAP_FAILED /\
           0 < vaddr_top seg /\
           vaddr_bottom seg = vaddr_top seg + p_memsz phdr /\
           vaddr_bottom seg < 2 ^ host_pointer_bits) /\
        (p_memsz phdr = 0 -> vaddr_top seg = 0 /\ vaddr_bottom seg = 0).
Proof.
  induction phdrs as [| phdr rest IH]; intros segndx segs H; cbn [load_segments] in H.
  - apply Ok_eq in H. subst segs. split; [reflexivity |].
    intros i ph Hi. rewrite lookup_nil in Hi. discriminate.
  - inv_bind H as curseg Hcur. inv_bind H as segs' Hrest. apply Ok_eq in H. subst segs.
    apply IH in Hrest. destruct Hrest as [Hlen Hrest].
    split; [cbn [length]; congruence |].
    intros [| i] ph Hi; cbn [lookup list_lookup] in Hi |- *.
    + apply Some_eq in Hi. subst ph. exists curseg. split; [reflexivity |].
      destruct (p_memsz phdr =? 0) eqn:E0; cbn [negb] in Hcur.
      * apply Z.eqb_eq in E0. apply Ok_eq in Hcur. subst curseg.
        cbn [seg_type seg_vaddr seg_memsz vaddr_top vaddr_bottom].
        split; [reflexivity |]. split; [reflexivity |]. split; [reflexivity |].
        split; [intros H; contradiction |]. intros _. split; reflexivity.
      * apply Z.eqb_neq in E0.
        destruct (mmap segndx (p_memsz phdr) =? 0) eqn:Em; [discriminate |].
        destruct (mmap segndx (p_memsz phdr) =? MAP_FAILED) eqn:Ef; [discriminate |].
        destruct ((0 <? mmap segndx (p_memsz phdr))
                  && (mmap segndx (p_memsz phdr) + p_memsz phdr <? 2 ^ host_pointer_bits))
          eqn:Er; [| discriminate].
        apply Z.eqb_neq in Em, Ef. apply andb_true_iff in Er. destruct Er as [Er1 Er2].
        apply Z.ltb_lt in Er1, Er2. apply Ok_eq in Hcur. subst curseg.
        cbn [seg_type seg_vaddr seg_memsz vaddr_top vaddr_bottom].
        rewrite Nat.add_0_r.
        split; [reflexivity |]. split; [reflexivity |]. split; [reflexivity |].
        split; [| intros H; contradiction]. intros _.
        split; [reflexivity |]. split; [exact Em |]. split; [exact Ef |].
        split; [exact Er1 |]. split; [reflexivity | exact Er2].
    + destruct (Hrest i ph Hi) as (seg & Hs & Ht & Hv & Hm & Hnz & Hz).
      exists seg. replace (segndx + S i)%nat with (S segndx + i)%nat by lia.
      exact (conj Hs (conj Ht (conj Hv (conj Hm (conj Hnz Hz))))).
Qed.

(** What holds of every context [vita_elf_load] returns: the file is an
    ELF file for ARM, 32-bit and little-endian; one of the two stub
    sections was found, a symbol table was loaded and at least one REL
    table; there is one segment record per program header, with its type,
    address and size.  For a size that is not 0, [vaddr_top] is the
    pointer [mmap] returned for the segment, which was neither [NULL] nor
    [MAP_FAILED], and [vaddr_bottom] is [vaddr_top + memsz], an address of
    the host; for the size 0 there is no host buffer.  (After a call of
    [mmap] that returned [MAP_FAILED], or a pointer with no [memsz] bytes
    of address space above it, [vita_elf_load] does not return a context:
    its behaviour is not defined.) *)
Theorem vita_elf_load_postconditions file mmap ve :
  vita_elf_load file mmap = Ok ve ->
  exists e ehdr phdrs,
    file = Some e /\
    elf_kind e = ELF_K_ELF /\
    elf_ehdr e = Some ehdr /\
    e_machine ehdr = EM_ARM /\
    ei_class ehdr = ELFCLASS32 /\
    ei_data ehdr = ELFDATA2LSB /\
    (fstubs_ndx ve <> 0 \/ vstubs_ndx ve <> 0) /\
    symtab ve <> None /\
    rela_tables ve <> [] /\
    elf_phdrs e = Some phdrs /\
    num_segments ve = Z.of_nat (length phdrs) /\
    length (segments ve) = length phdrs /\
    forall (i : nat) phdr,
      phdrs !! i = Some phdr ->
      exists seg,
        segments ve !! i = Some seg /\
        seg_type seg = p_type phdr /\
        seg_vaddr seg = p_vaddr phdr /\
        seg_memsz seg = p_memsz phdr /\
        (p_memsz phdr <> 0 ->
           vaddr_top seg = mmap i (p_memsz phdr) /\
           vaddr_top seg <> 0 /\
           vaddr_top seg <> MAP_FAILED /\
           0 < vaddr_top seg /\
           vaddr_bottom seg = vaddr_top seg + p_memsz phdr /\
           vaddr_bottom seg < 2 ^ host_pointer_bits) /\
        (p_memsz phdr = 0 -> vaddr_top seg = 0 /\ vaddr_bottom seg = 0).
Proof.
  intros Hload. apply vita_elf_load_Ok in Hload.
  destruct Hload as (e & shstrndx & ve1 & Hhdr & _ & Hlink).
  assert (Hfile : file = Some e) by (apply check_header_Ok in Hhdr; tauto).
  subst file. unfold check_header in Hhdr.
  destruct (elf_kind e =? ELF_K_ELF) eqn:Ek; cbn [negb] in Hhdr; [| discriminate].
  destruct (elf_ehdr e) as [ehdr |] eqn:Ee; [| discriminate].
  destruct (e_machine ehdr =? EM_ARM) eqn:Em; cbn [negb] in Hhdr; [| discriminate].
  destruct (ei_class ehdr =? ELFCLASS32) eqn:Ec; cbn [negb orb] in Hhdr; [| discriminate].
  destruct (ei_data ehdr =? ELFDATA2LSB) eqn:Ed; cbn [negb] in Hhdr; [| discriminate].
  clear Hhdr. apply Z.eqb_eq in Ek, Em, Ec, Ed.
  unfold link_and_map in Hlink.
  destruct ((fstubs_ndx ve1 =? 0) && (vstubs_ndx ve1 =? 0)) eqn:Es; [discriminate |].
  destruct (symtab ve1) as [tab |] eqn:Et; [| discriminate].
  destruct (rela_tables ve1) as [| rt rts] eqn:Er; [discriminate |].
  inv_bind Hlink as fs Hfs. inv_bind Hlink as vs Hvs.
  destruct (elf_phdrs e) as [phdrs |] eqn:Ep; [| discriminate].
  inv_bind Hlink as segs Hsegs. apply Ok_eq in Hlink. subst ve.
  cbn [set_linked fstubs_ndx vstubs_ndx symtab rela_tables segments num_segments].
  apply load_segments_lookup in Hsegs. destruct Hsegs as [Hlen Hsegs].
  exists e, ehdr, phdrs.
  split; [reflexivity |]. split; [exact Ek |]. split; [exact Ee |].
  split; [exact Em |]. split; [exact Ec |]. split; [exact Ed |].
  split.
  { apply andb_false_iff in Es. destruct Es as [E | E]; apply Z.eqb_neq in E; tauto. }
  split; [rewrite Et; discriminate |]. split; [rewrite Er; discriminate |].
  split; [exact Ep |]. split; [rewrite Hlen; reflexivity |].
  split; [exact Hlen |]. exact Hsegs.
Qed.

Lemma vita_elf_load_postconditions_witness :
  exists ve seg,
    vita_elf_load (Some Scenarios.S1) Scenarios.mmap = Ok ve /\
    fstubs_ndx ve = 2 /\ num_segments ve = 1 /\
    segments ve !! 0%nat = Some seg /\
    vaddr_top seg = 2 ^ 32 /\ vaddr_bottom seg = 2 ^ 32 + 0x2000.
Proof.
  destruct (vita_elf_load (Some Scenarios.S1) Scenarios.mmap) as [ve | d |] eqn:Hload;
    [| vm_compute in Hload; discriminate | vm_compute in Hload; discriminate].
  destruct (vita_elf_load_postconditions (Some Scenarios.S1) Scenarios.mmap ve Hload)
    as (e & ehdr & phdrs & He & _ & _ & _ & _ & _ & _ & _ & _ & Hph & _ & _ & Hsegs).
  apply Some_eq in He. subst e. apply Some_eq in Hph. subst phdrs.
  destruct (Hsegs 0%nat _ eq_refl) as (seg & Hs & _ & _ & _ & Hnz & _).
  destruct Hnz as (Ht & _ & _ & _ & Hb & _); [discriminate |].
  exists ve, seg. split; [reflexivity |].
  assert (Hve : fstubs_ndx ve = 2 /\ num_segments ve = 1).
  { vm_compute in Hload. apply Ok_eq in Hload. subst ve. split; reflexivity. }
  split; [exact (proj1 Hve) |]. split; [exact (proj2 Hve) |].
  split; [exact Hs |]. split; [rewrite Ht; reflexivity |].
  rewrite Hb, Ht. reflexivity.
Defined.

(** The segment table of a loaded context satisfies the invariants of the
    address mapper when the program headers are 32-bit and the
    reservations are disjoint, and its host buffers end at addresses of
    the host. *)
Lemma loaded_segments_ok file mmap ve e phdrs :
  vita_elf_load file mmap = Ok ve ->
  file = Some e ->
  elf_phdrs e = Some phdrs ->
  (forall phdr, In phdr phdrs -> phdr_32bit phdr) ->
  reservations_disjoint mmap phdrs ->
  segments_ok (segments ve) /\
  forall (i : nat) seg,
    segments ve !! i = Some seg -> vaddr_bottom seg < 2 ^ host_pointer_bits.
Proof.
  intros Hload -> Hph H32 Hdis.
  apply vita_elf_load_Ok in Hload.
  destruct Hload as (e' & shstrndx & ve1 & Hhdr & _ & Hlink).
  destruct (check_header_Ok _ _ _ Hhdr) as [He _]. apply Some_eq in He. subst e'.
  apply link_and_map_Ok in Hlink.
  destruct Hlink as (_ & _ & _ & _ & _ & _ & phdrs' & Hph' & Hsegs).
  assert (phdrs' = phdrs) as -> by congruence.
  apply load_segments_lookup in Hsegs. destruct Hsegs as [Hlen Hsegs].
  assert (Hback : forall (i : nat) seg,
             segments ve !! i = Some seg ->
             exists phdr, phdrs !! i = Some phdr /\
               seg_vaddr seg = p_vaddr phdr /\ seg_memsz seg = p_memsz phdr /\
               (p_memsz phdr <> 0 ->
                  vaddr_top seg = mmap i (p_memsz phdr) /\ 0 < vaddr_top seg /\
                  vaddr_bottom seg = vaddr_top seg + p_memsz phdr /\
                  vaddr_bottom seg < 2 ^ host_pointer_bits) /\
               (p_memsz phdr = 0 -> vaddr_top seg = 0 /\ vaddr_bottom seg = 0)).
  { intros i seg Hi.
    destruct (phdrs !! i) as [phdr |] eqn:Hp.
    - destruct (Hsegs i phdr Hp) as (seg' & Hs & _ & Hv & Hm & Hnz & Hz).
      assert (seg' = seg) as -> by congruence. exists phdr.
      split; [reflexivity |]. split; [exact Hv |]. split; [exact Hm |].
      split; [| exact Hz].
      intros Hne. destruct (Hnz Hne) as (Ht & _ & _ & Hpos & Hb & Hlt).
      split; [exact Ht |]. split; [exact Hpos |]. split; [exact Hb | exact Hlt].
    - apply lookup_ge_None in Hp. apply lookup_lt_Some in Hi. lia. }
  split; [split |].
  - intros i seg Hi. destruct (Hback i seg Hi) as (phdr & Hp & Hv & Hm & Hnz & Hz).
    assert (Hr : phdr_32bit phdr).
    { apply H32. apply list_elem_of_In. eapply list_elem_of_lookup_2. exact Hp. }
    destruct Hr as [Hrv Hrm].
    unfold segment_ok. rewrite Hv, Hm.
    split; [exact Hrv |]. split; [exact Hrm |]. split.
    + intros Hne. destruct (Hnz Hne) as (Ht & Hpos & Hb & _).
      split; [exact Hpos | exact Hb].
    + exact Hz.
  - intros i j si sj Hne Hi Hj.
    destruct (Hback i si Hi) as (pi & Hpi & _ & Hmi & Hnzi & Hzi).
    destruct (Hback j sj Hj) as (pj & Hpj & _ & Hmj & Hnzj & Hzj).
    assert (Hri : phdr_32bit pi).
    { apply H32. apply list_elem_of_In. eapply list_elem_of_lookup_2. exact Hpi. }
    assert (Hrj : phdr_32bit pj).
    { apply H32. apply list_elem_of_In. eapply list_elem_of_lookup_2. exact Hpj. }
    destruct Hri as [_ Hri], Hrj as [_ Hrj].
    unfold host_disjoint.
    destruct (Z.eq_dec (p_memsz pi) 0) as [Zi | Ni].
    { destruct (Hzi Zi) as [Ht Hb].
      destruct (Z.eq_dec (p_memsz pj) 0) as [Zj | Nj].
      - destruct (Hzj Zj) as [Ht' Hb']. lia.
      - destruct (Hnzj Nj) as (Ht' & Hpos' & Hb' & _). lia. }
    destruct (Hnzi Ni) as (Hti & Hposi & Hbi & _).
    destruct (Z.eq_dec (p_memsz pj) 0) as [Zj | Nj].
    { destruct (Hzj Zj) as [Ht' Hb']. lia. }
    destruct (Hnzj Nj) as (Htj & Hposj & Hbj & _).
    destruct (Hdis i j pi pj Hne Hpi Hpj Ni Nj); rewrite Hti, Htj in *; lia.
  - intros i seg Hi. destruct (Hback i seg Hi) as (phdr & Hp & _ & _ & Hnz & Hz).
    destruct (Z.eq_dec (p_memsz phdr) 0) as [Z0 | N0].
    + destruct (Hz Z0) as [_ ->]. apply Z.pow_pos_nonneg; [lia | discriminate].
    + destruct (Hnz N0) as (_ & _ & _ & Hlt). exact Hlt.
Qed.

(** In a context [vita_elf_load] has returned, for 32-bit program headers
    and reservations of which no two overlap: the host address of a guest
    address that lies in a segment whose guest range ends below [2 ^ 32] is
    an address of the host, neither [NULL] nor beyond the host's address
    space, and going back from it gives the guest address again; segments
    may overlap in guest addresses. *)
Theorem loaded_host_round_trip file mmap ve e phdrs (i : nat) seg vaddr :
  vita_elf_load file mmap = Ok ve ->
  file = Some e ->
  elf_phdrs e = Some phdrs ->
  (forall phdr, In phdr phdrs -> phdr_32bit phdr) ->
  reservations_disjoint mmap phdrs ->
  segments ve !! i = Some seg ->
  seg_vaddr seg <= vaddr < seg_vaddr seg + seg_memsz seg ->
  seg_vaddr seg + seg_memsz seg < 2 ^ 32 ->
  0 < vita_elf_vaddr_to_host ve vaddr < 2 ^ host_pointer_bits /\
  vita_elf_host_to_vaddr ve (vita_elf_vaddr_to_host ve vaddr) = vaddr.
Proof.
  intros Hload Hfile Hph H32 Hres Hi Hin Hno.
  destruct (loaded_segments_ok _ _ _ _ _ Hload Hfile Hph H32 Hres) as [Hok Hbound].
  split; [| eapply host_to_vaddr_to_host; eassumption].
  unfold vita_elf_vaddr_to_host.
  destruct (vaddr_to_host_from_first (segments ve) vaddr) as (j & sj & Hj & Hc & ->).
  { exists i, seg. split; [exact Hi |].
    apply seg_contains_vaddr_no_wrap; [exact (proj1 Hok _ _ Hi) | exact Hin | exact Hno]. }
  destruct (seg_contains_vaddr_true _ _ (proj1 Hok _ _ Hj) Hc) as [Hinj _].
  destruct (proj1 Hok _ _ Hj) as (_ & _ & Hnz & _).
  destruct Hnz as [Htop Hbot]; [lia |].
  pose proof (Hbound _ _ Hj) as Hlt. lia.
Qed.

Lemma loaded_host_round_trip_witness :
  exists ve, vita_elf_load (Some Scenarios.S1) Scenarios.mmap = Ok ve /\
             vita_elf_vaddr_to_host ve 0x81004 = 2 ^ 32 + 4 /\
             vita_elf_host_to_vaddr ve (vita_elf_vaddr_to_host ve 0x81004) = 0x81004.
Proof.
  destruct (vita_elf_load (Some Scenarios.S1) Scenarios.mmap) as [ve | d |] eqn:Hload;
    [| vm_compute in Hload; discriminate | vm_compute in Hload; discriminate].
  exists ve. split; [reflexivity |].
  assert (Hsegs : segments ve = [Inputs.code_segment]).
  { vm_compute in Hload. apply Ok_eq in Hload. subst ve. reflexivity. }
  split.
  { unfold vita_elf_vaddr_to_host. rewrite Hsegs. reflexivity. }
  apply (loaded_host_round_trip (Some Scenarios.S1) Scenarios.mmap ve Scenarios.S1
           [ {| p_type := Scenarios.PT_LOAD; p_vaddr := 0x81000; p_memsz := 0x2000 |} ]
           0%nat Inputs.code_segment 0x81004).
  - exact Hload.
  - reflexivity.
  - reflexivity.
  - intros phdr [<- | []]. vm_compute. repeat split; discriminate.
  - intros i j pi pj Hne Hi Hj.
    apply lookup_lt_Some in Hi, Hj. cbn [length] in Hi, Hj. lia.
  - rewrite Hsegs. reflexivity.
  - vm_compute. split; [discriminate | reflexivity].
  - vm_compute. reflexivity.
Defined.

(** ** Address-space mapper *)

Lemma seg_contains_host_bounds seg host_addr :
  seg_contains_host seg host_addr = true ->
  vaddr_top seg <= host_addr < vaddr_bottom seg.
Proof.
  unfold seg_contains_host. intros H. apply andb_true_iff in H.
  destruct H as [H1 H2]. apply Z.geb_le in H1. apply Z.ltb_lt in H2. lia.
Qed.

Lemma seg_contains_host_intro seg host_addr :
  vaddr_top seg <= host_addr < vaddr_bottom seg ->
  seg_contains_host seg host_addr = true.
Proof.
  intros H. unfold seg_contains_host.
  apply andb_true_intro. split; [apply Z.geb_le | apply Z.ltb_lt]; lia.
Qed.

Lemma seg_contains_host_outside seg host_addr :
  host_addr < vaddr_top seg \/ vaddr_bottom seg <= host_addr ->
  seg_contains_host seg host_addr = false.
Proof.
  intros [H | H]; unfold seg_contains_host.
  - apply andb_false_intro1. rewrite Z.geb_leb. apply Z.leb_gt. lia.
  - apply andb_false_intro2. apply Z.ltb_ge. lia.
Qed.

(** A host pointer lies in the buffer of one segment at most. *)
Lemma seg_contains_host_unique segs (j k : nat) sj sk host_addr :
  segments_ok segs ->
  segs !! j = Some sj ->
  seg_contains_host sj host_addr = true ->
  k <> j ->
  segs !! k = Some sk ->
  seg_contains_host sk host_addr = false.
Proof.
  intros [Hok Hdis] Hj Hc Hne Hk.
  apply seg_contains_host_bounds in Hc.
  destruct (Hok _ _ Hj) as (_ & _ & Hnzj & Hzj).
  destruct (Hok _ _ Hk) as (_ & Hmk & Hnzk & Hzk).
  destruct (Z.eq_dec (seg_memsz sj) 0) as [Zj | Nj]; [destruct (Hzj Zj); lia |].
  destruct (Hnzj Nj) as [Htj Hbj].
  apply seg_contains_host_outside.
  destruct (Z.eq_dec (seg_memsz sk) 0) as [Zk | Nk]; [destruct (Hzk Zk); lia |].
  destruct (Hdis k j sk sj Hne Hk Hj); lia.
Qed.

(** No segment of a well-formed table holds the pointer [NULL]. *)
Lemma seg_contains_host_null segs (k : nat) sk :
  segments_ok segs -> segs !! k = Some sk -> seg_contains_host sk 0 = false.
Proof.
  intros [Hok _] Hk. destruct (Hok _ _ Hk) as (_ & _ & Hnz & Hz).
  apply seg_contains_host_outside.
  destruct (Z.eq_dec (seg_memsz sk) 0) as [Zk | Nk]; [destruct (Hz Zk); lia |].
  destruct (Hnz Nk); lia.
Qed.

Lemma host_to_segndx_from_only segs host_addr :
  forall i0 (j : nat) seg,
    segs !! j = Some seg ->
    seg_contains_host seg host_addr = true ->
    (forall (k : nat) sk, k <> j -> segs !! k = Some sk ->
                          seg_contains_host sk host_addr = false) ->
    host_to_segndx_from segs i0 host_addr = i0 + Z.of_nat j.
Proof.
  induction segs as [| s segs IH]; intros i0 j seg Hj Hc Hothers.
  - rewrite lookup_nil in Hj. discriminate.
  - cbn [host_to_segndx_from]. destruct j as [| j]; cbn [lookup list_lookup] in Hj.
    + apply Some_eq in Hj. subst s. rewrite Hc. lia.
    + rewrite (Hothers 0%nat s) by (discriminate || reflexivity).
      rewrite (IH (i0 + 1) j seg Hj Hc); [lia |].
      intros k sk Hne Hk. apply (Hothers (S k)); [lia | exact Hk].
Qed.

Lemma host_to_segndx_from_none segs host_addr :
  forall i0,
    (forall (k : nat) sk, segs !! k = Some sk -> seg_contains_host sk host_addr = false) ->
    host_to_segndx_from segs i0 host_addr = -1.
Proof.
  induction segs as [| s segs IH]; intros i0 Hnone; [reflexivity |].
  cbn [host_to_segndx_from]. rewrite (Hnone 0%nat s) by reflexivity.
  apply IH. intros k sk Hk. apply (Hnone (S k)). exact Hk.
Qed.

(** The loop of [vita_elf_vaddr_to_host] stops at the first segment that
    contains the address. *)
Lemma vaddr_to_host_from_spec segs vaddr :
  (vaddr_to_host_from segs vaddr = 0 /\
   forall (k : nat) sk, segs !! k = Some sk -> seg_contains_vaddr sk vaddr = false) \/
  (exists (j : nat) seg,
     segs !! j = Some seg /\ seg_contains_vaddr seg vaddr = true /\
     vaddr_to_host_from segs vaddr = vaddr_top seg + vaddr - seg_vaddr seg /\
     forall (k : nat) sk, (k < j)%nat -> segs !! k = Some sk ->
                          seg_contains_vaddr sk vaddr = false).
Proof.
  induction segs as [| s segs IH].
  - left. split; [reflexivity |]. intros k sk Hk. rewrite lookup_nil in Hk. discriminate.
  - cbn [vaddr_to_host_from]. destruct (seg_contains_vaddr s vaddr) eqn:E.
    + right. exists 0%nat, s. split; [reflexivity |]. split; [exact E |].
      split; [reflexivity |]. intros k sk Hlt. lia.
    + destruct IH as [[H0 Hnone] | (j & seg & Hj & Hc & Heq & Hbefore)].
      * left. split; [exact H0 |]. intros [| k] sk Hk; cbn [lookup list_lookup] in Hk.
        -- apply Some_eq in Hk. subst sk. exact E.
        -- apply (Hnone k). exact Hk.
      * right. exists (S j), seg. split; [exact Hj |]. split; [exact Hc |].
        split; [exact Heq |]. intros [| k] sk Hlt Hk; cbn [lookup list_lookup] in Hk.
        -- apply Some_eq in Hk. subst sk. exact E.
        -- apply (Hbefore k); [lia | exact Hk].
Qed.

(** The loop of [vita_elf_vaddr_to_segndx] stops at the first segment that
    is not of type EXIDX and contains the address. *)
Lemma vaddr_to_segndx_from_spec segs vaddr :
  forall i0,
    (vaddr_to_segndx_from segs i0 vaddr = -1 /\
     forall (k : nat) sk, segs !! k = Some sk ->
       seg_type sk = SHT_ARM_EXIDX \/ seg_contains_vaddr sk vaddr = false) \/
    (exists (j : nat) seg,
       vaddr_to_segndx_from segs i0 vaddr = i0 + Z.of_nat j /\
       segs !! j = Some seg /\
       seg_type seg <> SHT_ARM_EXIDX /\
       seg_contains_vaddr seg vaddr = true /\
       forall (k : nat) sk, (k < j)%nat -> segs !! k = Some sk ->
         seg_type sk = SHT_ARM_EXIDX \/ seg_contains_vaddr sk vaddr = false).
Proof.
  induction segs as [| s segs IH]; intros i0.
  - left. split; [reflexivity |]. intros k sk Hk. rewrite lookup_nil in Hk. discriminate.
  - cbn [vaddr_to_segndx_from].
    assert (Hskip : (seg_type s = SHT_ARM_EXIDX \/ seg_contains_vaddr s vaddr = false) ->
      (vaddr_to_segndx_from segs (i0 + 1) vaddr = -1 /\
       forall (k : nat) sk, (s :: segs) !! k = Some sk ->
         seg_type sk = SHT_ARM_EXIDX \/ seg_contains_vaddr sk vaddr = false) \/
      (exists (j : nat) seg,
         vaddr_to_segndx_from segs (i0 + 1) vaddr = i0 + Z.of_nat j /\
         (s :: segs) !! j = Some seg /\
         seg_type seg <> SHT_ARM_EXIDX /\
         seg_contains_vaddr seg vaddr = true /\
         forall (k : nat) sk, (k < j)%nat -> (s :: segs) !! k = Some sk ->
           seg_type sk = SHT_ARM_EXIDX \/ seg_contains_vaddr sk vaddr = false)).
    { intros Hs.
      destruct (IH (i0 + 1)) as [[H0 Hnone] | (j & seg & Heq & Hj & Ht & Hc & Hbefore)].
      - left. split; [exact H0 |]. intros [| k] sk Hk; cbn [lookup list_lookup] in Hk.
        + apply Some_eq in Hk. subst sk. exact Hs.
        + apply (Hnone k). exact Hk.
      - right. exists (S j), seg. split; [rewrite Heq; lia |]. split; [exact Hj |].
        split; [exact Ht |]. split; [exact Hc |].
        intros [| k] sk Hlt Hk; cbn [lookup list_lookup] in Hk.
        + apply Some_eq in Hk. subst sk. exact Hs.
        + apply (Hbefore k); [lia | exact Hk]. }
    destruct (seg_type s =? SHT_ARM_EXIDX) eqn:Et.
    + apply Hskip. left. apply Z.eqb_eq. exact Et.
    + destruct (seg_contains_vaddr s vaddr) eqn:E.
      * right. exists 0%nat, s. split; [lia |]. split; [reflexivity |].
        split; [apply Z.eqb_neq; exact Et |]. split; [exact E |].
        intros k sk Hlt. lia.
      * apply Hskip. right. reflexivity.
Qed.

Lemma lookup_single {A} (x y : A) (i : nat) : [x] !! i = Some y -> y = x.
Proof.
  destruct i as [| i]; cbn [lookup list_lookup]; intros H.
  - apply Some_eq in H. congruence.
  - destruct i; discriminate.
Qed.

Lemma segments_ok_single seg : segment_ok seg -> segments_ok [seg].
Proof.
  intros H. split.
  - intros i s Hi. apply lookup_single in Hi. subst s. exact H.
  - intros i j si sj Hne Hi Hj. apply lookup_lt_Some in Hi, Hj. cbn [length] in Hi, Hj. lia.
Qed.

Lemma code_segment_ok : segment_ok Inputs.code_segment.
Proof. unfold segment_ok. cbn. lia. Qed.

(** The test [vaddr >= seg->vaddr && vaddr < seg->vaddr + seg->memsz] on
    32-bit fields: the address lies in the guest range of the segment and
    the range ends below [2 ^ 32], where the sum does not wrap. *)
Lemma seg_contains_vaddr_holds seg vaddr :
  seg_32bit seg ->
  (seg_contains_vaddr seg vaddr = true <-> seg_holds seg vaddr).
Proof.
  intros [Hv Hm]. unfold seg_contains_vaddr, seg_holds.
  rewrite andb_true_iff, Z.geb_le, Z.ltb_lt. unfold u32.
  destruct (Z_lt_ge_dec (seg_vaddr seg + seg_memsz seg) (2 ^ 32)) as [Hlt | Hge].
  - rewrite Z.mod_small by lia. split; intros H; lia.
  - replace (seg_vaddr seg + seg_memsz seg)
      with (seg_vaddr seg + seg_memsz seg - 2 ^ 32 + 1 * 2 ^ 32) at 1 by lia.
    rewrite Z.mod_add, Z.mod_small by lia. split; intros H; lia.
Qed.

Lemma seg_contains_vaddr_not_holds seg vaddr :
  seg_32bit seg ->
  seg_contains_vaddr seg vaddr = false -> ~ seg_holds seg vaddr.
Proof.
  intros H32 Hf Hh. apply (seg_contains_vaddr_holds seg vaddr H32) in Hh.
  rewrite Hf in Hh. discriminate.
Qed.

(** For segments with 32-bit fields, [vita_elf_vaddr_to_segndx] returns
    the index of the first segment that is not of type EXIDX, whose guest
    range ends below [2 ^ 32] and contains the address, and -1 when there
    is none.  Segments of type EXIDX are passed over even when they
    contain the address, and so is a segment whose range reaches
    [2 ^ 32]. *)
Theorem vaddr_to_segndx_first_loadable ve vaddr :
  (forall (i : nat) seg, segments ve !! i = Some seg -> seg_32bit seg) ->
  (vita_elf_vaddr_to_segndx ve vaddr = -1 /\
   forall (k : nat) sk, segments ve !! k = Some sk ->
     seg_type sk = SHT_ARM_EXIDX \/ ~ seg_holds sk vaddr) \/
  (exists (j : nat) seg,
     vita_elf_vaddr_to_segndx ve vaddr = Z.of_nat j /\
     segments ve !! j = Some seg /\
     seg_type seg <> SHT_ARM_EXIDX /\
     seg_holds seg vaddr /\
     forall (k : nat) sk, (k < j)%nat -> segments ve !! k = Some sk ->
       seg_type sk = SHT_ARM_EXIDX \/ ~ seg_holds sk vaddr).
Proof.
  intros H32. unfold vita_elf_vaddr_to_segndx.
  destruct (vaddr_to_segndx_from_spec (segments ve) vaddr 0)
    as [[H0 Hnone] | (j & seg & Heq & Hj & Ht & Hc & Hbefore)].
  - left. split; [exact H0 |]. intros k sk Hk.
    destruct (Hnone k sk Hk) as [He | Hf]; [left; exact He | right].
    exact (seg_contains_vaddr_not_holds sk vaddr (H32 k sk Hk) Hf).
  - right. exists j, seg. split; [rewrite Heq; lia |]. split; [exact Hj |].
    split; [exact Ht |].
    split; [apply (seg_contains_vaddr_holds seg vaddr (H32 j seg Hj)); exact Hc |].
    intros k sk Hlt Hk.
    destruct (Hbefore k sk Hlt Hk) as [He | Hf]; [left; exact He | right].
    exact (seg_contains_vaddr_not_holds sk vaddr (H32 k sk Hk) Hf).
Qed.

Lemma vaddr_to_segndx_first_loadable_witness :
  vita_elf_vaddr_to_segndx MapperInputs.exidx_first 0x81104 = 1 /\
  seg_holds MapperInputs.exidx_segment 0x81104 /\
  ((vita_elf_vaddr_to_segndx MapperInputs.exidx_first 0x81104 = -1 /\
    forall (k : nat) sk, segments MapperInputs.exidx_first !! k = Some sk ->
      seg_type sk = SHT_ARM_EXIDX \/ ~ seg_holds sk 0x81104) \/
   (exists (j : nat) seg,
      vita_elf_vaddr_to_segndx MapperInputs.exidx_first 0x81104 = Z.of_nat j /\
      segments MapperInputs.exidx_first !! j = Some seg /\
      seg_type seg <> SHT_ARM_EXIDX /\
      seg_holds seg 0x81104 /\
      forall (k : nat) sk, (k < j)%nat -> segments MapperInputs.exidx_first !! k = Some sk ->
        seg_type sk = SHT_ARM_EXIDX \/ ~ seg_holds sk 0x81104)).
Proof.
  split; [reflexivity |].
  split; [unfold seg_holds; cbn; lia |].
  apply (vaddr_to_segndx_first_loadable MapperInputs.exidx_first 0x81104).
  intros i seg Hi.
  destruct i as [| [| i]]; cbn in Hi.
  - apply Some_eq in Hi. subst seg. unfold seg_32bit. cbn. lia.
  - apply Some_eq in Hi. subst seg. unfold seg_32bit. cbn. lia.
  - destruct i; discriminate.
Defined.

(** [vita_elf_vaddr_to_host] returns [NULL] exactly for the addresses that
    lie in no segment, when no segment reaches the end of the 32-bit
    address space. *)
Theorem vaddr_to_host_null_iff ve vaddr :
  segments_ok (segments ve) ->
  (forall (i : nat) seg, segments ve !! i = Some seg ->
                         seg_vaddr seg + seg_memsz seg < 2 ^ 32) ->
  (vita_elf_vaddr_to_host ve vaddr = 0 <->
   forall (i : nat) seg, segments ve !! i = Some seg ->
     ~ (seg_vaddr seg <= vaddr < seg_vaddr seg + seg_memsz seg)).
Proof.
  intros [Hok Hdis] Hno. unfold vita_elf_vaddr_to_host.
  destruct (vaddr_to_host_from_spec (segments ve) vaddr)
    as [[H0 Hnone] | (j & seg & Hj & Hc & Heq & _)].
  - split; [| intros _; exact H0].
    intros _ i seg Hi Hin.
    pose proof (seg_contains_vaddr_no_wrap seg vaddr (Hok _ _ Hi) Hin (Hno _ _ Hi)) as Hc.
    rewrite (Hnone _ _ Hi) in Hc. discriminate.
  - destruct (seg_contains_vaddr_true _ _ (Hok _ _ Hj) Hc) as [Hin _].
    destruct (Hok _ _ Hj) as (_ & _ & Hnz & _).
    destruct Hnz as [Htop _]; [lia |].
    split.
    + intros H. rewrite Heq in H. lia.
    + intros H. exfalso. apply (H j seg Hj). exact Hin.
Qed.

Lemma vaddr_to_host_null_iff_witness :
  vita_elf_vaddr_to_host (Inputs.with_segments [Inputs.code_segment]) 0x80000 = 0 <->
  forall (i : nat) seg,
    segments (Inputs.with_segments [Inputs.code_segment]) !! i = Some seg ->
    ~ (seg_vaddr seg <= 0x80000 < seg_vaddr seg + seg_memsz seg).
Proof.
  apply (vaddr_to_host_null_iff (Inputs.with_segments [Inputs.code_segment]) 0x80000).
  - apply segments_ok_single. exact code_segment_ok.
  - intros i seg H. apply lookup_single in H. subst seg. cbn. lia.
Defined.

(** The host address of a guest address belongs to the segment
    [vita_elf_vaddr_to_segndx] names, when no segment is of type EXIDX; for
    an address in no segment the one is [NULL] and the other -1. *)
Theorem host_segndx_of_vaddr ve vaddr :
  segments_ok (segments ve) ->
  (forall (i : nat) seg, segments ve !! i = Some seg -> seg_type seg <> SHT_ARM_EXIDX) ->
  vita_elf_host_to_segndx ve (vita_elf_vaddr_to_host ve vaddr)
    = vita_elf_vaddr_to_segndx ve vaddr.
Proof.
  intros Hsegs Hex. pose proof Hsegs as [Hok Hdis].
  unfold vita_elf_host_to_segndx, vita_elf_vaddr_to_host, vita_elf_vaddr_to_segndx.
  destruct (vaddr_to_host_from_spec (segments ve) vaddr)
    as [[H0 Hnone] | (j & seg & Hj & Hc & Heq & Hbefore)].
  - rewrite H0.
    rewrite host_to_segndx_from_none
      by (intros k sk Hk; eapply seg_contains_host_null; eassumption).
    destruct (vaddr_to_segndx_from_spec (segments ve) vaddr 0)
      as [[H1 _] | (j & seg & _ & Hj & _ & Hc & _)]; [symmetry; exact H1 |].
    rewrite (Hnone _ _ Hj) in Hc. discriminate.
  - rewrite Heq.
    destruct (seg_contains_vaddr_true _ _ (Hok _ _ Hj) Hc) as [Hin _].
    destruct (Hok _ _ Hj) as (_ & _ & Hnz & _).
    destruct Hnz as [Htop Hbot]; [lia |].
    assert (Hh : seg_contains_host seg (vaddr_top seg + vaddr - seg_vaddr seg) = true)
      by (apply seg_contains_host_intro; lia).
    rewrite (host_to_segndx_from_only _ _ 0 j seg Hj Hh)
      by (intros k sk Hne Hk; eapply (seg_contains_host_unique _ j k); eassumption).
    destruct (vaddr_to_segndx_from_spec (segments ve) vaddr 0)
      as [[_ Hnone] | (j' & seg' & Heq' & Hj' & _ & Hc' & Hbefore')].
    + destruct (Hnone _ _ Hj) as [Ht | Hf]; [destruct (Hex _ _ Hj Ht) |].
      rewrite Hf in Hc. discriminate.
    + rewrite Heq'. f_equal.
      destruct (Nat.lt_trichotomy j j') as [Hlt | [-> | Hgt]]; [| reflexivity |].
      * destruct (Hbefore' _ _ Hlt Hj) as [Ht | Hf]; [destruct (Hex _ _ Hj Ht) |].
        rewrite Hf in Hc. discriminate.
      * rewrite (Hbefore _ _ Hgt Hj') in Hc'. discriminate.
Qed.

Lemma host_segndx_of_vaddr_witness :
  vita_elf_host_to_segndx (Inputs.with_segments [Inputs.code_segment])
    (vita_elf_vaddr_to_host (Inputs.with_segments [Inputs.code_segment]) 0x81004)
  = vita_elf_vaddr_to_segndx (Inputs.with_segments [Inputs.code_segment]) 0x81004.
Proof.
  apply (host_segndx_of_vaddr (Inputs.with_segments [Inputs.code_segment]) 0x81004).
  - apply segments_ok_single. exact code_segment_ok.
  - intros i seg H. apply lookup_single in H. subst seg. cbn. discriminate.
Defined.

(** From a segment and an offset inside it to the host address and back:
    [vita_elf_segoffset_to_host] gives a pointer that is not [NULL],
    [vita_elf_host_to_segndx] finds the segment again and
    [vita_elf_host_to_segoffset] the offset, as a 32-bit signed number. *)
Theorem segoffset_host_round_trip ve (i : nat) seg offset :
  segments_ok (segments ve) ->
  segments ve !! i = Some seg ->
  0 <= offset < seg_memsz seg ->
  exists host_addr,
    vita_elf_segoffset_to_host ve i offset = Some host_addr /\
    host_addr <> 0 /\
    vita_elf_host_to_segndx ve host_addr = Z.of_nat i /\
    vita_elf_host_to_segoffset ve host_addr i = Some (s32 offset) /\
    (offset < 2 ^ 31 -> vita_elf_host_to_segoffset ve host_addr i = Some offset).
Proof.
  intros Hsegs Hi Hoff. pose proof Hsegs as [Hok Hdis].
  destruct (Hok _ _ Hi) as (_ & Hm & Hnz & _).
  destruct Hnz as [Htop Hbot]; [lia |].
  exists (vaddr_top seg + offset).
  assert (Hh : seg_contains_host seg (vaddr_top seg + offset) = true)
    by (apply seg_contains_host_intro; lia).
  assert (Hback : vita_elf_host_to_segoffset ve (vaddr_top seg + offset) i
                  = Some (s32 offset)).
  { unfold vita_elf_host_to_segoffset.
    replace (vaddr_top seg + offset =? 0) with false by (symmetry; apply Z.eqb_neq; lia).
    rewrite Hi, Hh. do 2 f_equal. lia. }
  split.
  { unfold vita_elf_segoffset_to_host. rewrite Hi.
    replace (offset <? seg_memsz seg) with true by (symmetry; apply Z.ltb_lt; lia).
    reflexivity. }
  split; [lia |]. split.
  { unfold vita_elf_host_to_segndx.
    rewrite (host_to_segndx_from_only _ _ 0 i seg Hi Hh); [lia |].
    intros k sk Hne Hk. eapply (seg_contains_host_unique _ i k); eassumption. }
  split; [exact Hback |].
  intros Hlt. rewrite Hback. f_equal. unfold s32.
  rewrite u32_small by lia.
  replace (offset <? 2 ^ 31) with true by (symmetry; apply Z.ltb_lt; lia).
  reflexivity.
Qed.

Lemma segoffset_host_round_trip_witness :
  exists host_addr,
    vita_elf_segoffset_to_host (Inputs.with_segments [Inputs.code_segment]) 0 4
      = Some host_addr /\
    vita_elf_host_to_segndx (Inputs.with_segments [Inputs.code_segment]) host_addr = 0 /\
    vita_elf_host_to_segoffset (Inputs.with_segments [Inputs.code_segment]) host_addr 0
      = Some 4.
Proof.
  destruct (segoffset_host_round_trip (Inputs.with_segments [Inputs.code_segment])
              0%nat Inputs.code_segment 4) as (h & H1 & _ & H2 & _ & H3).
  - apply segments_ok_single. exact code_segment_ok.
  - reflexivity.
  - cbn. lia.
  - exists h. split; [exact H1 |]. split; [exact H2 |]. apply H3. lia.
Defined.

(** ** Stub-symbol linker: what a bound stub was bound by *)

Lemma lookup_stub_symbols_from_sound stubs_ndx sym_type syms :
  forall symndx stubs stubs',
    lookup_stub_symbols_from syms symndx stubs stubs_ndx sym_type = Ok stubs' ->
    length stubs' = length stubs /\
    forall (k : nat) stub',
      stubs' !! k = Some stub' ->
      exists stub,
        stubs !! k = Some stub /\
        stub_addr stub' = stub_addr stub /\
        library_nid stub' = library_nid stub /\
        module_nid stub' = module_nid stub /\
        target_nid stub' = target_nid stub /\
        (stub_symbol stub' = stub_symbol stub \/
         stub_symbol stub = None /\
         exists (i : nat) cursym,
           stub_symbol stub' = Some (symndx + i)%nat /\
           syms !! i = Some cursym /\
           is_stub_symbol cursym stubs_ndx = true /\
           symbol_type cursym = sym_type /\
           symbol_value cursym = stub_addr stub').
Proof.
  induction syms as [| cursym rest IH]; intros symndx stubs stubs' H;
    cbn [lookup_stub_symbols_from] in H.
  - apply Ok_eq in H. subst stubs'. split; [reflexivity |].
    intros k stub' Hk. exists stub'. split; [exact Hk |].
    split; [reflexivity |]. split; [reflexivity |]. split; [reflexivity |].
    split; [reflexivity |]. left. reflexivity.
  - destruct (is_stub_symbol cursym stubs_ndx) eqn:Eq; cbn [negb] in H.
    + destruct (symbol_type cursym =? sym_type) eqn:Et; cbn [negb] in H; [| discriminate].
      apply Z.eqb_eq in Et.
      inv_bind H as stubs1 Hbind. rewrite bind_stub_spec in Hbind.
      destruct (stub_at stubs (symbol_value cursym)) as [k0 |] eqn:Hat; [| discriminate].
      destruct (stub_at_lookup _ _ _ Hat) as (stub0 & Hk0 & Haddr0).
      rewrite Hk0 in Hbind.
      destruct (stub_symbol stub0) eqn:Hfree; [discriminate |].
      apply Ok_eq in Hbind. subst stubs1.
      apply IH in H. destruct H as [Hlen Hall].
      rewrite length_insert in Hlen. split; [exact Hlen |].
      intros k stub' Hk.
      destruct (Hall k stub' Hk) as (s1 & Hs1 & Ha & Hl & Hm & Ht & Hsym).
      destruct (Nat.eq_dec k k0) as [-> | Hne].
      * rewrite list_lookup_insert_eq in Hs1 by (eapply lookup_lt_Some; exact Hk0).
        apply Some_eq in Hs1. subst s1.
        cbn [set_stub_symbol stub_addr library_nid module_nid target_nid stub_symbol]
          in Ha, Hl, Hm, Ht, Hsym.
        exists stub0. split; [exact Hk0 |]. split; [exact Ha |]. split; [exact Hl |].
        split; [exact Hm |]. split; [exact Ht |].
        right. split; [exact Hfree |].
        destruct Hsym as [Hsame | [Hnone _]]; [| discriminate].
        exists 0%nat, cursym. rewrite Nat.add_0_r.
        split; [exact Hsame |]. split; [reflexivity |]. split; [exact Eq |].
        split; [exact Et |]. congruence.
      * rewrite list_lookup_insert_ne in Hs1 by congruence.
        exists s1. split; [exact Hs1 |]. split; [exact Ha |]. split; [exact Hl |].
        split; [exact Hm |]. split; [exact Ht |].
        destruct Hsym as [Hsame | (Hnone & i & c & Hi & Hc & Hq & Hty & Hv)];
          [left; exact Hsame |].
        right. split; [exact Hnone |]. exists (S i), c.
        split; [rewrite Hi; f_equal; lia |]. split; [exact Hc |].
        split; [exact Hq |]. split; [exact Hty | exact Hv].
    + apply IH in H. destruct H as [Hlen Hall]. split; [exact Hlen |].
      intros k stub' Hk.
      destruct (Hall k stub' Hk) as (s1 & Hs1 & Ha & Hl & Hm & Ht & Hsym).
      exists s1. split; [exact Hs1 |]. split; [exact Ha |]. split; [exact Hl |].
      split; [exact Hm |]. split; [exact Ht |].
      destruct Hsym as [Hsame | (Hnone & i & c & Hi & Hc & Hq & Hty & Hv)];
        [left; exact Hsame |].
      right. split; [exact Hnone |]. exists (S i), c.
      split; [rewrite Hi; f_equal; lia |]. split; [exact Hc |].
      split; [exact Hq |]. split; [exact Hty | exact Hv].
Qed.

(** The linker changes nothing of a stub table but the symbol links: the
    number of stubs, and each stub's address and NIDs, stay; and a stub
    that comes out bound was either bound before or is bound to a symbol
    of the stub section (GLOBAL, of the expected type, [shndx] the
    section) whose value is the stub's address. *)
Theorem lookup_stub_symbols_sound ve stubs stubs_ndx sym_type stubs' tab :
  lookup_stub_symbols ve stubs stubs_ndx sym_type = Ok stubs' ->
  symtab ve = Some tab ->
  length stubs' = length stubs /\
  forall (k : nat) stub',
    stubs' !! k = Some stub' ->
    exists stub,
      stubs !! k = Some stub /\
      stub_addr stub' = stub_addr stub /\
      library_nid stub' = library_nid stub /\
      module_nid stub' = module_nid stub /\
      target_nid stub' = target_nid stub /\
      (stub_symbol stub' = stub_symbol stub \/
       stub_symbol stub = None /\
       exists (i : nat) cursym,
         stub_symbol stub' = Some i /\
         tab !! i = Some cursym /\
         symbol_binding cursym = STB_GLOBAL /\
         symbol_type cursym = sym_type /\
         symbol_shndx cursym = stubs_ndx /\
         symbol_value cursym = stub_addr stub').
Proof.
  unfold lookup_stub_symbols. intros H Htab. rewrite Htab in H. cbn [default] in H.
  apply lookup_stub_symbols_from_sound in H. destruct H as [Hlen Hall].
  split; [exact Hlen |]. intros k stub' Hk.
  destruct (Hall k stub' Hk) as (s & Hs & Ha & Hl & Hm & Ht & Hsym).
  exists s. split; [exact Hs |]. split; [exact Ha |]. split; [exact Hl |].
  split; [exact Hm |]. split; [exact Ht |].
  destruct Hsym as [Hsame | (Hnone & i & c & Hi & Hc & Hq & Hty & Hv)];
    [left; exact Hsame |].
  right. split; [exact Hnone |]. exists i, c.
  unfold is_stub_symbol in Hq. apply andb_true_iff in Hq. destruct Hq as [Hq Hsh].
  apply andb_true_iff in Hq. destruct Hq as [Hb _].
  apply Z.eqb_eq in Hb, Hsh.
  split; [exact Hi |]. split; [exact Hc |]. split; [exact Hb |].
  split; [exact Hty |]. split; [exact Hsh | exact Hv].
Qed.

Lemma lookup_stub_symbols_sound_witness :
  let a := LinkContexts.stub_symbol_at "a" 0x82000 in
  exists stubs',
    lookup_stub_symbols (LinkContexts.with_symbols [zero_symbol; a])
      [ImportInputs.stub_1_2_3] 2 STT_FUNC = Ok stubs' /\
    length stubs' = 1%nat.
Proof.
  intros a. eexists. split; [vm_compute; reflexivity |].
  apply (proj1 (lookup_stub_symbols_sound (LinkContexts.with_symbols [zero_symbol; a])
                  [ImportInputs.stub_1_2_3] 2 STT_FUNC _ [zero_symbol; a]
                  eq_refl eq_refl)).
Defined.

(** A symbol of the stub section whose type is not the expected one makes
    the linker fail: a GLOBAL OBJECT symbol in the function-stub section,
    or a GLOBAL FUNC symbol in the variable-stub section. *)
Theorem lookup_stub_symbols_type_mismatch ve stubs stubs_ndx sym_type tab (i : nat) cursym :
  symtab ve = Some tab ->
  tab !! i = Some cursym ->
  is_stub_symbol cursym stubs_ndx = true ->
  symbol_type cursym <> sym_type ->
  exists d, lookup_stub_symbols ve stubs stubs_ndx sym_type = Fail d.
Proof.
  intros Htab Hi Hq Hty. unfold lookup_stub_symbols. rewrite Htab.
  change (default [] (Some tab)) with tab.
  destruct (lookup_stub_symbols_from tab 0 stubs stubs_ndx sym_type) as [stubs' | d |] eqn:H.
  - apply lookup_stub_symbols_from_Ok in H. destruct H as (_ & _ & Hbound).
    destruct (Hbound i cursym Hi Hq) as [Heq _]. contradiction.
  - exists d. reflexivity.
  - exfalso. exact (lookup_stub_symbols_from_defined _ _ _ _ _ H).
Qed.

Lemma lookup_stub_symbols_type_mismatch_witness :
  let a := LinkContexts.stub_symbol_at "a" 0x82000 in
  exists d, lookup_stub_symbols (LinkContexts.with_symbols [zero_symbol; a])
              [ImportInputs.stub_1_2_3] 2 STT_OBJECT = Fail d.
Proof.
  intros a.
  apply (lookup_stub_symbols_type_mismatch (LinkContexts.with_symbols [zero_symbol; a])
           [ImportInputs.stub_1_2_3] 2 STT_OBJECT [zero_symbol; a] 1%nat a);
    [reflexivity | reflexivity | reflexivity | discriminate].
Defined.

(** ** The halves of a MOVW/MOVT pair *)

Lemma shr32_lt n k a :
  0 <= k <= n -> 0 <= a < 2 ^ n -> 0 <= shr32 a k < 2 ^ (n - k).
Proof.
  intros Hk Ha. unfold shr32. rewrite Z.shiftr_div_pow2 by lia.
  assert (0 < 2 ^ k) by (apply Z.pow_pos_nonneg; lia).
  split; [apply Z.div_pos; lia |].
  apply Z.div_lt_upper_bound; [lia |].
  rewrite <- Z.pow_add_r by lia. replace (k + (n - k)) with n by lia. lia.
Qed.

Lemma shr32_nonneg a k : 0 <= a -> 0 <= shr32 a k.
Proof. intros Ha. unfold shr32. apply Z.shiftr_nonneg. exact Ha. Qed.

Lemma shl32_lt n k a :
  0 <= k -> 0 <= n -> n + k <= 32 -> 0 <= a < 2 ^ n -> 0 <= shl32 a k < 2 ^ (n + k).
Proof.
  intros Hk Hn Hnk Ha. unfold shl32. rewrite Z.shiftl_mul_pow2 by lia.
  assert (0 < 2 ^ k) by (apply Z.pow_pos_nonneg; lia).
  assert (Hlt : a * 2 ^ k < 2 ^ (n + k)) by (rewrite Z.pow_add_r by lia; nia).
  assert (2 ^ (n + k) <= 2 ^ 32) by (apply Z.pow_le_mono_r; lia).
  rewrite u32_small by nia. nia.
Qed.

Lemma shl32_low16 a k : 16 <= k -> shl32 a k mod 2 ^ 16 = 0.
Proof.
  intros Hk. unfold shl32, u32. rewrite Z.shiftl_mul_pow2 by lia.
  replace k with ((k - 16) + 16) by lia.
  rewrite Z.pow_add_r by lia. rewrite Z.mul_assoc.
  set (x := a * 2 ^ (k - 16)).
  rewrite (Z.mod_eq (x * 2 ^ 16) (2 ^ 32)) by lia.
  replace (x * 2 ^ 16 - 2 ^ 32 * (x * 2 ^ 16 / 2 ^ 32))
    with ((x - 2 ^ 16 * (x * 2 ^ 16 / 2 ^ 32)) * 2 ^ 16)
    by (change (2 ^ 32) with (2 ^ 16 * 2 ^ 16); ring).
  apply Z.mod_mul. lia.
Qed.

Lemma lor_low16 a b :
  a mod 2 ^ 16 = 0 -> b mod 2 ^ 16 = 0 -> Z.lor a b mod 2 ^ 16 = 0.
Proof.
  rewrite <- !Z.land_ones by lia. intros Ha Hb.
  rewrite Z.land_lor_distr_l, Ha, Hb. reflexivity.
Qed.

Lemma decode_rel_target_movw data addr :
  decode_rel_target data R_ARM_MOVW_ABS_NC addr
  = Some (Z.lor (shr32 (Z.land data 0xf0000) 4) (Z.land data 0xfff)).
Proof. reflexivity. Qed.

Lemma decode_rel_target_movt data addr :
  decode_rel_target data R_ARM_MOVT_ABS addr
  = Some (shl32 (Z.lor (shr32 (Z.land data 0xf0000) 4) (Z.land data 0xfff)) 16).
Proof. reflexivity. Qed.

Lemma decode_rel_target_thm_movw data addr :
  decode_rel_target data R_ARM_THM_MOVW_ABS_NC addr
  = Some (Z.lor (Z.lor (Z.lor
            (shl32 (Z.land (shr32 (THUMB_SHUFFLE data) 16) 0xf) 12)
            (shl32 (Z.land (shr32 (THUMB_SHUFFLE data) 26) 0x1) 11))
            (shl32 (Z.land (shr32 (THUMB_SHUFFLE data) 12) 0x7) 8))
            (Z.land (THUMB_SHUFFLE data) 0xff)).
Proof. reflexivity. Qed.

Lemma decode_rel_target_thm_movt data addr :
  decode_rel_target data R_ARM_THM_MOVT_ABS addr
  = Some (Z.lor (Z.lor (Z.lor
            (shl32 (Z.land (shr32 (THUMB_SHUFFLE data) 16) 0xf) 28)
            (shl32 (Z.land (shr32 (THUMB_SHUFFLE data) 26) 0x1) 27))
            (shl32 (Z.land (shr32 (THUMB_SHUFFLE data) 12) 0x7) 24))
            (shl32 (Z.land (THUMB_SHUFFLE data) 0xff) 16)).
Proof. reflexivity. Qed.

(** The target decoded from a MOVW, ARM or Thumb, is a 16-bit number, the
    target decoded from a MOVT has its low 16 bits clear, and the two do
    not depend on the address of the instruction. *)
Theorem decode_rel_target_mov_halves data type addr target :
  0 <= data < 2 ^ 32 ->
  decode_rel_target data type addr = Some target ->
  (type = R_ARM_MOVW_ABS_NC \/ type = R_ARM_THM_MOVW_ABS_NC -> 0 <= target < 2 ^ 16) /\
  (type = R_ARM_MOVT_ABS \/ type = R_ARM_THM_MOVT_ABS ->
     0 <= target < 2 ^ 32 /\ target mod 2 ^ 16 = 0) /\
  (type = R_ARM_MOVW_ABS_NC \/ type = R_ARM_THM_MOVW_ABS_NC \/
   type = R_ARM_MOVT_ABS \/ type = R_ARM_THM_MOVT_ABS ->
     forall addr', decode_rel_target data type addr' = Some target).
Proof.
  intros Hd Hdec.
  pose proof (THUMB_SHUFFLE_range data Hd) as Hs.
  split; [| split].
  - intros [-> | ->].
    + rewrite decode_rel_target_movw in Hdec. apply Some_eq in Hdec. subst target.
      apply lor_lt_pow2.
      * apply (shr32_lt 20 4); [lia |]. apply land_lt_pow2; lia.
      * apply land_lt_pow2; lia.
    + rewrite decode_rel_target_thm_movw in Hdec. apply Some_eq in Hdec. subst target.
      repeat apply lor_lt_pow2.
      * apply (shl32_lt 4 12); try lia. apply land_lt_pow2; [| lia].
        apply shr32_nonneg; lia.
      * assert (0 <= shl32 (Z.land (shr32 (THUMB_SHUFFLE data) 26) 1) 11 < 2 ^ (1 + 11)).
        { apply shl32_lt; try lia. apply land_lt_pow2; [| lia].
          apply shr32_nonneg; lia. }
        change (2 ^ (1 + 11)) with (2 ^ 12) in *. lia.
      * assert (0 <= shl32 (Z.land (shr32 (THUMB_SHUFFLE data) 12) 7) 8 < 2 ^ (3 + 8)).
        { apply shl32_lt; try lia. apply land_lt_pow2; [| lia].
          apply shr32_nonneg; lia. }
        change (2 ^ (3 + 8)) with (2 ^ 11) in *. lia.
      * apply land_lt_pow2; lia.
  - intros Hty. split; [exact (decode_rel_target_range_aux _ _ _ _ Hd Hdec) |].
    destruct Hty as [-> | ->].
    + rewrite decode_rel_target_movt in Hdec. apply Some_eq in Hdec. subst target.
      apply shl32_low16. lia.
    + rewrite decode_rel_target_thm_movt in Hdec. apply Some_eq in Hdec. subst target.
      repeat apply lor_low16; apply shl32_low16; lia.
  - intros Hty addr'. rewrite <- Hdec.
    destruct Hty as [-> | [-> | [-> | ->]]]; reflexivity.
Qed.

Lemma decode_rel_target_mov_halves_witness :
  decode_rel_target 0xE34D0EAD R_ARM_MOVT_ABS 0x81004 = Some 0xDEAD0000 /\
  0xDEAD0000 mod 2 ^ 16 = 0.
Proof.
  split; [reflexivity |].
  destruct (decode_rel_target_mov_halves 0xE34D0EAD R_ARM_MOVT_ABS 0x81004 0xDEAD0000)
    as (_ & H & _); [lia | reflexivity |].
  apply H. left. reflexivity.
Defined.

(** ** Import resolver: what is left in the stubs *)

Section ResolverMore.
Variable find_lib find_module : Z -> Z -> Z.

Lemma find_library_spec imports nid :
  forall library,
    (imports = [] /\ find_library find_lib imports nid library = library) \/
    (imports <> [] /\ find_library find_lib imports nid library = 0 /\
     forall imp, In imp imports -> find_lib imp nid = 0) \/
    (exists (j : nat) imp,
       imports !! j = Some imp /\
       find_lib imp nid <> 0 /\
       find_library find_lib imports nid library = find_lib imp nid /\
       forall (k : nat) imp', (k < j)%nat -> imports !! k = Some imp' ->
                              find_lib imp' nid = 0).
Proof.
  induction imports as [| imp rest IH]; intros library.
  - left. split; reflexivity.
  - right. cbn [find_library].
    destruct (find_lib imp nid =? 0) eqn:E; cbn [negb].
    + apply Z.eqb_eq in E.
      destruct (IH (find_lib imp nid)) as [[-> Heq] | [(Hne & H0 & Hall) | Hhit]].
      * left. split; [discriminate |]. cbn [find_library]. split; [exact E |].
        intros imp' [<- | []]. exact E.
      * left. split; [discriminate |]. split; [exact H0 |].
        intros imp' [<- | Hin]; [exact E | apply Hall; exact Hin].
      * right. destruct Hhit as (j & imp' & Hj & Hnz & Heq & Hbefore).
        exists (S j), imp'. split; [exact Hj |]. split; [exact Hnz |].
        split; [exact Heq |].
        intros [| k] imp'' Hlt Hk; cbn [lookup list_lookup] in Hk.
        -- apply Some_eq in Hk. subst imp''. exact E.
        -- apply (Hbefore k); [lia | exact Hk].
    + apply Z.eqb_neq in E. right. exists 0%nat, imp.
      split; [reflexivity |]. split; [exact E |]. split; [reflexivity |].
      intros k imp' Hlt. lia.
Qed.

(** The library of a stub is looked up in the databases in the order they
    were given, and the first database that knows the NID decides; when
    none does the result is [NULL]; and when there is no database at all
    the stub keeps the library it had. *)
Theorem find_library_first_hit imports nid library :
  (imports = [] /\ find_library find_lib imports nid library = library) \/
  (imports <> [] /\ find_library find_lib imports nid library = 0 /\
   forall imp, In imp imports -> find_lib imp nid = 0) \/
  (exists (j : nat) imp,
     imports !! j = Some imp /\
     find_lib imp nid <> 0 /\
     find_library find_lib imports nid library = find_lib imp nid /\
     forall (k : nat) imp', (k < j)%nat -> imports !! k = Some imp' ->
                            find_lib imp' nid = 0).
Proof. apply find_library_spec. Qed.

Lemma lookup_stub_fields tab imports find_stub name stub :
  let stub' := fst (lookup_stub find_lib find_module tab imports find_stub name stub) in
  stub_addr stub' = stub_addr stub /\
  library_nid stub' = library_nid stub /\
  module_nid stub' = module_nid stub /\
  target_nid stub' = target_nid stub /\
  stub_symbol stub' = stub_symbol stub /\
  stub_library stub' = find_library find_lib imports (library_nid stub) (stub_library stub) /\
  (stub_library stub' = 0 ->
     stub_module stub' = stub_module stub /\ stub_target stub' = stub_target stub) /\
  (stub_library stub' <> 0 ->
     stub_module stub' = find_module (stub_library stub') (module_nid stub)) /\
  (stub_library stub' <> 0 -> stub_module stub' = 0 ->
     stub_target stub' = stub_target stub) /\
  (stub_library stub' <> 0 -> stub_module stub' <> 0 ->
     stub_target stub' = find_stub (stub_module stub') (target_nid stub)).
Proof.
  unfold lookup_stub.
  set (library := find_library find_lib imports (library_nid stub) (stub_library stub)).
  set (module := find_module library (module_nid stub)).
  set (target := find_stub module (target_nid stub)).
  destruct (library =? 0) eqn:El.
  { apply Z.eqb_eq in El.
    cbn [fst set_stub_imports stub_addr library_nid module_nid target_nid stub_symbol
         stub_library stub_module stub_target].
    split; [reflexivity |]. split; [reflexivity |]. split; [reflexivity |].
    split; [reflexivity |]. split; [reflexivity |]. split; [reflexivity |].
    split; [intros _; split; reflexivity |].
    split; [intros H; contradiction |]. split; intros H; contradiction. }
  apply Z.eqb_neq in El.
  destruct (module =? 0) eqn:Em.
  { apply Z.eqb_eq in Em.
    cbn [fst set_stub_imports stub_addr library_nid module_nid target_nid stub_symbol
         stub_library stub_module stub_target].
    split; [reflexivity |]. split; [reflexivity |]. split; [reflexivity |].
    split; [reflexivity |]. split; [reflexivity |]. split; [reflexivity |].
    split; [intros H; contradiction |].
    split; [intros _; reflexivity |].
    split; [intros _ _; reflexivity |]. intros _ H. contradiction. }
  apply Z.eqb_neq in Em.
  assert (Hboth :
    let stub' := set_stub_imports stub library module target in
    stub_addr stub' = stub_addr stub /\
    library_nid stub' = library_nid stub /\
    module_nid stub' = module_nid stub /\
    target_nid stub' = target_nid stub /\
    stub_symbol stub' = stub_symbol stub /\
    stub_library stub' = library /\
    (stub_library stub' = 0 ->
       stub_module stub' = stub_module stub /\ stub_target stub' = stub_target stub) /\
    (stub_library stub' <> 0 -> stub_module stub' = find_module (stub_library stub')
                                                     (module_nid stub)) /\
    (stub_library stub' <> 0 -> stub_module stub' = 0 ->
       stub_target stub' = stub_target stub) /\
    (stub_library stub' <> 0 -> stub_module stub' <> 0 ->
       stub_target stub' = find_stub (stub_module stub') (target_nid stub))).
  { cbn [set_stub_imports stub_addr library_nid module_nid target_nid stub_symbol
         stub_library stub_module stub_target].
    split; [reflexivity |]. split; [reflexivity |]. split; [reflexivity |].
    split; [reflexivity |]. split; [reflexivity |]. split; [reflexivity |].
    split; [intros H; contradiction |].
    split; [intros _; reflexivity |].
    split; [intros _ H; contradiction |]. intros _ _. reflexivity. }
  destruct (target =? 0); exact Hboth.
Qed.

Lemma lookup_stubs_lookup tab imports find_stub name stubs :
  forall (k : nat) stub,
    stubs !! k = Some stub ->
    fst (fst (lookup_stubs find_lib find_module tab stubs imports find_stub name)) !! k
    = Some (fst (lookup_stub find_lib find_module tab imports find_stub name stub)).
Proof.
  induction stubs as [| s rest IH]; intros k stub Hk.
  - rewrite lookup_nil in Hk. discriminate.
  - cbn [lookup_stubs].
    destruct (snd (lookup_stub find_lib find_module tab imports find_stub name s));
      cbn [fst snd]; destruct k as [| k]; cbn [lookup list_lookup] in Hk |- *.
    + apply Some_eq in Hk. subst s. reflexivity.
    + apply IH. exact Hk.
    + apply Some_eq in Hk. subst s. reflexivity.
    + apply IH. exact Hk.
Qed.

(** [lookup_stubs] leaves each stub where it was, with its address, NIDs
    and symbol; the library of the stub is what the databases give for its
    library NID; after a library that was not found the module and the
    target are as they were, after a module that was not found the target
    is; otherwise they are what the library gives for the module NID and
    the module for the target NID. *)
Theorem lookup_stubs_keeps_stubs tab imports find_stub name stubs (k : nat) stub :
  stubs !! k = Some stub ->
  exists stub',
    fst (fst (lookup_stubs find_lib find_module tab stubs imports find_stub name)) !! k
      = Some stub' /\
    stub_addr stub' = stub_addr stub /\
    library_nid stub' = library_nid stub /\
    module_nid stub' = module_nid stub /\
    target_nid stub' = target_nid stub /\
    stub_symbol stub' = stub_symbol stub /\
    stub_library stub' = find_library find_lib imports (library_nid stub) (stub_library stub) /\
    (stub_library stub' = 0 ->
       stub_module stub' = stub_module stub /\ stub_target stub' = stub_target stub) /\
    (stub_library stub' <> 0 ->
       stub_module stub' = find_module (stub_library stub') (module_nid stub)) /\
    (stub_library stub' <> 0 -> stub_module stub' = 0 ->
       stub_target stub' = stub_target stub) /\
    (stub_library stub' <> 0 -> stub_module stub' <> 0 ->
       stub_target stub' = find_stub (stub_module stub') (target_nid stub)).
Proof.
  intros Hk. eexists. split; [apply lookup_stubs_lookup; exact Hk |].
  apply lookup_stub_fields.
Qed.

(** [lookup_stubs] reports success exactly when it made no warning, and
    that is exactly when every stub resolves; the warnings are as many as
    the stubs that do not resolve. *)
Theorem lookup_stubs_found_all_iff_silent tab imports find_stub name stubs :
  let r := lookup_stubs find_lib find_module tab stubs imports find_stub name in
  (snd r = true <-> snd (fst r) = []) /\
  (snd r = true <->
   forall stub, In stub stubs ->
                stub_resolves find_lib find_module imports find_stub stub = true) /\
  length (snd (fst r)) =
    length (filter (fun s => stub_resolves find_lib find_module imports find_stub s = false)
              stubs).
Proof.
  intros r. split; [apply lookup_stubs_silent |].
  destruct (lookup_stubs_all find_lib find_module tab imports find_stub name stubs)
    as (_ & Hcount & Hall).
  fold r in Hcount, Hall. split; [| exact Hcount].
  rewrite Hall. rewrite forallb_forall. reflexivity.
Qed.

Variable find_function find_variable : Z -> Z -> Z.

(** [vita_elf_lookup_imports] changes nothing of the context but the two
    stub tables, whose lengths stay; the warnings about function stubs
    come before those about variable stubs; and it reports success exactly
    when no warning was made. *)
Theorem vita_elf_lookup_imports_frame ve imports :
  let r := vita_elf_lookup_imports find_lib find_module find_function find_variable
             ve imports in
  let tab := default [] (symtab ve) in
  let f := lookup_stubs find_lib find_module tab (fstubs ve) imports find_function
             "function" in
  let v := lookup_stubs find_lib find_module tab (vstubs ve) imports find_variable
             "variable" in
  symtab (fst (fst r)) = symtab ve /\
  rela_tables (fst (fst r)) = rela_tables ve /\
  segments (fst (fst r)) = segments ve /\
  fstubs_ndx (fst (fst r)) = fstubs_ndx ve /\
  vstubs_ndx (fst (fst r)) = vstubs_ndx ve /\
  length (fstubs (fst (fst r))) = length (fstubs ve) /\
  length (vstubs (fst (fst r))) = length (vstubs ve) /\
  snd (fst r) = snd (fst f) ++ snd (fst v) /\
  (snd r = true <-> snd (fst r) = []).
Proof.
  intros r tab f v. unfold r, vita_elf_lookup_imports. fold tab. fold f. fold v.
  cbn [fst snd set_stubs symtab rela_tables segments fstubs_ndx vstubs_ndx fstubs vstubs].
  split; [reflexivity |]. split; [reflexivity |]. split; [reflexivity |].
  split; [reflexivity |]. split; [reflexivity |].
  split; [apply (lookup_stubs_all find_lib find_module tab imports find_function) |].
  split; [apply (lookup_stubs_all find_lib find_module tab imports find_variable) |].
  split; [reflexivity |].
  pose proof (lookup_stubs_silent find_lib find_module tab imports find_function
                "function" (fstubs ve)) as Hf.
  pose proof (lookup_stubs_silent find_lib find_module tab imports find_variable
                "variable" (vstubs ve)) as Hv.
  cbv zeta in Hf, Hv. fold f in Hf. fold v in Hv.
  rewrite andb_true_iff, Hf, Hv. split.
  - intros [-> ->]. reflexivity.
  - intros H. apply app_eq_nil in H. exact H.
Qed.
End ResolverMore.

Lemma lookup_stubs_keeps_stubs_witness :
  exists stub',
    fst (fst (lookup_stubs ImportInputs.find_lib ImportInputs.find_module []
                [ImportInputs.stub_1_2_3] [7] ImportInputs.find_function "function"))
      !! 0%nat = Some stub' /\
    stub_library stub' = 100 /\ stub_module stub' = 200 /\ stub_target stub' = 0.
Proof.
  destruct (lookup_stubs_keeps_stubs ImportInputs.find_lib ImportInputs.find_module []
              [7] ImportInputs.find_function "function" [ImportInputs.stub_1_2_3]
              0%nat ImportInputs.stub_1_2_3 eq_refl)
    as (stub' & Hk & _).
  exists stub'. split; [exact Hk |].
  apply Some_eq in Hk. subst stub'. split; [reflexivity |]. split; reflexivity.
Defined.

(** ** The driver: a stage that fails *)

Section MainMore.
Variable find_lib find_module find_function find_variable : Z -> Z -> Z.
Variable stage_ok : stage -> bool.

(** When a stage of the output fails, [main] exits with failure whatever
    the import resolver found: the stages before it were called in order,
    none after it is, and the output file is not closed. *)
Theorem main_stops_at_failed_stage argc file mmap ve dbs pre s post :
  3 <= argc ->
  vita_elf_load file mmap = Ok ve ->
  segments ve <> [] ->
  output_stages = pre ++ s :: post ->
  forallb stage_ok pre = true ->
  stage_ok s = false ->
  main find_lib find_module find_function find_variable stage_ok
    argc file mmap (Some dbs)
  = Some (EXIT_FAILURE,
          map Ev_warn
            (snd (fst (vita_elf_lookup_imports find_lib find_module find_function
                         find_variable ve dbs)))
          ++ map Ev_stage pre ++ [Ev_stage s; Ev_assert_failed s]).
Proof.
  intros Hargc Hload Hsegs Hsplit Hpre Hs. unfold main.
  replace (argc <? 3) with false by (symmetry; apply Z.ltb_ge; lia).
  rewrite Hload.
  destruct (vita_elf_lookup_imports_found_all find_lib find_module find_function
              find_variable ve dbs) as [Hseg _].
  cbv zeta in Hseg. cbv zeta. rewrite Hseg.
  destruct (segments ve) as [| seg segs]; [contradiction |].
  rewrite Hsplit, (run_stages_stops stage_ok pre s post Hpre Hs). reflexivity.
Qed.
End MainMore.

Lemma main_stops_at_failed_stage_witness :
  main ImportInputs.find_nothing ImportInputs.find_nothing ImportInputs.find_nothing
    ImportInputs.find_nothing StageInputs.update_fails
    3 (Some Scenarios.S1) Scenarios.mmap (Some [7])
  = Some (EXIT_FAILURE,
          [Ev_warn (W_library 1 "function" (Some "(unreferenced stub)"%string));
           Ev_stage St_copy_to_file; Ev_stage St_duplicate_shstrtab;
           Ev_stage St_discard_invalid_relocs; Ev_stage St_write_module_info;
           Ev_stage St_write_rela_sections; Ev_stage St_rewrite_stubs;
           Ev_stage St_elf_update; Ev_assert_failed St_elf_update]).
Proof.
  destruct (vita_elf_load (Some Scenarios.S1) Scenarios.mmap) as [ve | d |] eqn:Hload;
    [| vm_compute in Hload; discriminate | vm_compute in Hload; discriminate].
  rewrite (main_stops_at_failed_stage ImportInputs.find_nothing ImportInputs.find_nothing
             ImportInputs.find_nothing ImportInputs.find_nothing StageInputs.update_fails
             3 (Some Scenarios.S1) Scenarios.mmap ve [7]
             [St_copy_to_file; St_duplicate_shstrtab; St_discard_invalid_relocs;
              St_write_module_info; St_write_rela_sections; St_rewrite_stubs]
             St_elf_update [St_set_headers]).
  - vm_compute in Hload. apply Ok_eq in Hload. subst ve. reflexivity.
  - lia.
  - exact Hload.
  - vm_compute in Hload. apply Ok_eq in Hload. subst ve. discriminate.
  - reflexivity.
  - reflexivity.
  - reflexivity.
Defined.
